(** * One-way folder synchronisation ([sync_folders.py])

  A shallow embedding of the synchronisation script: POSIX path strings,
  a file system of regular files and directories, [hashlib.md5],
  [calculate_md5] and the two walks of [sync_folders], followed by the
  properties of the synchronisation pass. *)

From Stdlib Require Import ZArith Lia Ascii String.
From stdpp Require Import base list strings gmap.

Local Open Scope Z_scope.
Local Open Scope stdpp_scope.

(* ===================================================================== *)
(** * Python strings *)
(* ===================================================================== *)

Module Str.

(** [s.startswith(p)] *)
Fixpoint startswith (s p : string) {struct p} : bool :=
  match p with
  | EmptyString => true
  | String c p' =>
      match s with
      | EmptyString => false
      | String d s' => if Ascii.eqb c d then startswith s' p' else false
      end
  end.

(** [s.endswith(c)] for a one-character suffix *)
Fixpoint endswith (s : string) (c : ascii) : bool :=
  match s with
  | EmptyString => false
  | String d EmptyString => Ascii.eqb d c
  | String _ s' => endswith s' c
  end.

(** [s[n:]] *)
Fixpoint drop (n : nat) (s : string) : string :=
  match n, s with
  | O, _ => s
  | S _, EmptyString => EmptyString
  | S n', String _ s' => drop n' s'
  end.

(** [s.replace(old, new, 1)]: the leftmost occurrence of [old] is
    replaced; a string without occurrence is returned as it is. *)
Fixpoint replace1 (old new s : string) : string :=
  if startswith s old then new +:+ drop (String.length old) s
  else match s with
       | EmptyString => EmptyString
       | String c s' => String c (replace1 old new s')
       end.

(** [s.split(c)] for a one-character separator *)
Fixpoint split (c : ascii) (s : string) : list string :=
  match s with
  | EmptyString => [EmptyString]
  | String a s' =>
      if Ascii.eqb a c then EmptyString :: split c s'
      else match split c s' with
           | w :: ws => String a w :: ws
           | [] => [String a EmptyString]
           end
  end.

(** [c.join(ws)] *)
Fixpoint join (c : ascii) (ws : list string) : string :=
  match ws with
  | [] => EmptyString
  | [w] => w
  | w :: ws' => w +:+ String c (join c ws')
  end.

(** [c in s] *)
Fixpoint contains (c : ascii) (s : string) : bool :=
  match s with
  | EmptyString => false
  | String a s' => Ascii.eqb a c || contains c s'
  end.

End Str.

(* ===================================================================== *)
(** * [posixpath] *)
(* ===================================================================== *)

Module Posix.

Definition sep : ascii := "/"%char.

(** [os.path.isabs] *)
Definition isabs (p : string) : bool := Str.startswith p "/".

(** [os.path.join(a, b)] *)
Definition join (a b : string) : string :=
  if Str.startswith b "/" then b
  else if bool_decide (a = "") || Str.endswith a sep then a +:+ b
  else a +:+ String sep b.

(** One round of the loop of [normpath] over the components. *)
Definition norm_step (initial_slashes : nat) (new_comps : list string)
    (comp : string) : list string :=
  if bool_decide (comp = "") || bool_decide (comp = ".") then new_comps
  else if negb (bool_decide (comp = ".."))
          || (bool_decide (initial_slashes = 0%nat)
              && bool_decide (new_comps = []))
          || bool_decide (last new_comps = Some "..")
  then new_comps ++ [comp]
  else removelast new_comps.

(** [os.path.normpath] *)
Definition normpath (path : string) : string :=
  if bool_decide (path = "") then "."
  else
    let initial_slashes : nat :=
      if Str.startswith path "/" then
        if Str.startswith path "//" && negb (Str.startswith path "///")
        then 2%nat else 1%nat
      else 0%nat in
    let comps := foldl (norm_step initial_slashes) [] (Str.split sep path) in
    let path' := Str.join sep comps in
    let path' :=
      match initial_slashes with
      | 0%nat => path'
      | 1%nat => "/" +:+ path'
      | _ => "//" +:+ path'
      end in
    if bool_decide (path' = "") then "." else path'.

(** [os.path.abspath], with the working directory of the process. *)
Definition abspath (cwd path : string) : string :=
  normpath (if isabs path then path else join cwd path).

(** The components the kernel walks through when it resolves a path:
    empty components and [.] are skipped.  The paths of this program are
    built from normalised roots and directory entries, so [..] never
    occurs in them. *)
Definition is_comp (w : string) : bool :=
  negb (bool_decide (w = "")) && negb (bool_decide (w = ".")).

Definition components (p : string) : list string :=
  List.filter is_comp (Str.split sep p).

(** Names a directory entry can have. *)
Definition valid_name (n : string) : bool :=
  is_comp n && negb (Str.contains sep n).

End Posix.

(* ===================================================================== *)
(** * [hashlib.md5] (RFC 1321) *)
(* ===================================================================== *)

Module MD5.

Definition word (x : Z) : Z := x mod 2 ^ 32.

Definition rotl (x n : Z) : Z :=
  word (Z.lor (Z.shiftl x n) (Z.shiftr (word x) (32 - n))).

Definition lnot32 (x : Z) : Z := Z.lxor x 0xffffffff.

Definition K : list Z :=
  [ 0xd76aa478; 0xe8c7b756; 0x242070db; 0xc1bdceee;
    0xf57c0faf; 0x4787c62a; 0xa8304613; 0xfd469501;
    0x698098d8; 0x8b44f7af; 0xffff5bb1; 0x895cd7be;
    0x6b901122; 0xfd987193; 0xa679438e; 0x49b40821;
    0xf61e2562; 0xc040b340; 0x265e5a51; 0xe9b6c7aa;
    0xd62f105d; 0x02441453; 0xd8a1e681; 0xe7d3fbc8;
    0x21e1cde6; 0xc33707d6; 0xf4d50d87; 0x455a14ed;
    0xa9e3e905; 0xfcefa3f8; 0x676f02d9; 0x8d2a4c8a;
    0xfffa3942; 0x8771f681; 0x6d9d6122; 0xfde5380c;
    0xa4beea44; 0x4bdecfa9; 0xf6bb4b60; 0xbebfbc70;
    0x289b7ec6; 0xeaa127fa; 0xd4ef3085; 0x04881d05;
    0xd9d4d039; 0xe6db99e5; 0x1fa27cf8; 0xc4ac5665;
    0xf4292244; 0x432aff97; 0xab9423a7; 0xfc93a039;
    0x655b59c3; 0x8f0ccc92; 0xffeff47d; 0x85845dd1;
    0x6fa87e4f; 0xfe2ce6e0; 0xa3014314; 0x4e0811a1;
    0xf7537e82; 0xbd3af235; 0x2ad7d2bb; 0xeb86d391 ].

Definition shifts : list Z :=
  [ 7; 12; 17; 22; 7; 12; 17; 22; 7; 12; 17; 22; 7; 12; 17; 22;
    5; 9; 14; 20; 5; 9; 14; 20; 5; 9; 14; 20; 5; 9; 14; 20;
    4; 11; 16; 23; 4; 11; 16; 23; 4; 11; 16; 23; 4; 11; 16; 23;
    6; 10; 15; 21; 6; 10; 15; 21; 6; 10; 15; 21; 6; 10; 15; 21 ].

Definition byteZ (b : Byte.byte) : Z := Z.of_N (Byte.to_N b).

Definition zbyte (x : Z) : Byte.byte :=
  default Byte.x00 (Byte.of_N (Z.to_N (x mod 256))).

(** The sixteen little-endian words of a block. *)
Fixpoint words (bs : list Byte.byte) : list Z :=
  match bs with
  | b0 :: b1 :: b2 :: b3 :: bs' =>
      (byteZ b0 + Z.shiftl (byteZ b1) 8 + Z.shiftl (byteZ b2) 16
       + Z.shiftl (byteZ b3) 24) :: words bs'
  | _ => []
  end.

Record chain := Chain { cA : Z; cB : Z; cC : Z; cD : Z }.

Definition round (M : list Z) (c : chain) (i : nat) : chain :=
  let '(Chain A B C D) := c in
  let '(F, g) :=
    if decide (i < 16)%nat then
      (Z.lor (Z.land B C) (Z.land (lnot32 B) D), i)
    else if decide (i < 32)%nat then
      (Z.lor (Z.land D B) (Z.land (lnot32 D) C), ((5 * i + 1) mod 16)%nat)
    else if decide (i < 48)%nat then
      (Z.lxor (Z.lxor B C) D, ((3 * i + 5) mod 16)%nat)
    else
      (Z.lxor C (Z.lor B (lnot32 D)), ((7 * i) mod 16)%nat) in
  let F' := word (F + A + default 0 (K !! i) + default 0 (M !! g)) in
  Chain D (word (B + rotl F' (default 0 (shifts !! i)))) B C.

Definition compress (c : chain) (block : list Byte.byte) : chain :=
  let c' := foldl (round (words block)) c (seq 0 64) in
  Chain (word (cA c + cA c')) (word (cB c + cB c'))
        (word (cC c + cC c')) (word (cD c + cD c')).

(** The hash object: chaining value, the bytes of the block being
    filled, and the number of bytes fed so far. *)
Record t := Hash { chaining : chain; buffer : list Byte.byte; count : Z }.

(** [hashlib.md5()] *)
Definition new : t :=
  Hash (Chain 0x67452301 0xefcdab89 0x98badcfe 0x10325476) [] 0.

Definition absorb (c : chain) (buf : list Byte.byte) (b : Byte.byte)
  : chain * list Byte.byte :=
  let buf' := buf ++ [b] in
  if decide (length buf' = 64%nat) then (compress c buf', [])
  else (c, buf').

Definition feed (h : t) (b : Byte.byte) : t :=
  let '(c, buf) := absorb (chaining h) (buffer h) b in
  Hash c buf (count h + 1).

(** [h.update(data)] *)
Definition update (h : t) (data : list Byte.byte) : t := foldl feed h data.

Definition le_bytes (n : nat) (x : Z) : list Byte.byte :=
  (fun i => zbyte (Z.shiftr x (8 * Z.of_nat i))) <$> seq 0 n.

(** Padding: one byte [0x80], zeros up to 56 modulo 64, and the length
    of the message in bits on 64 bits. *)
Definition padding (len : Z) : list Byte.byte :=
  let r := len mod 64 in
  let zeros := if decide (r < 56) then 55 - r else 119 - r in
  Byte.x80 :: replicate (Z.to_nat zeros) Byte.x00
    ++ le_bytes 8 ((8 * len) mod 2 ^ 64).

(** [h.digest()] *)
Definition digest (h : t) : list Byte.byte :=
  let c := chaining (update h (padding (count h))) in
  le_bytes 4 (cA c) ++ le_bytes 4 (cB c) ++ le_bytes 4 (cC c)
    ++ le_bytes 4 (cD c).

Definition hexdigit (x : Z) : ascii :=
  default "0"%char
    (list_ascii_of_string "0123456789abcdef" !! Z.to_nat x).

Fixpoint hex (bs : list Byte.byte) : string :=
  match bs with
  | [] => EmptyString
  | b :: bs' =>
      String (hexdigit (byteZ b / 16))
        (String (hexdigit (byteZ b mod 16)) (hex bs'))
  end.

(** [h.hexdigest()] *)
Definition hexdigest (h : t) : string := hex (digest h).

(** [hashlib.md5(data).hexdigest()] *)
Definition md5 (data : list Byte.byte) : string :=
  hexdigest (update new data).

Definition unhexdigit (c : ascii) : Z :=
  let n := Z.of_nat (nat_of_ascii c) in
  if decide (n < 58) then n - 48 else n - 87.

(** [bytes.fromhex] *)
Fixpoint fromhex (s : string) : list Byte.byte :=
  match s with
  | String a (String b s') =>
      zbyte (16 * unhexdigit a + unhexdigit b) :: fromhex s'
  | _ => []
  end.

End MD5.

Abbreviation bytes := (list Byte.byte).

(** [b"..."] literals *)
Definition b_ (s : string) : bytes := String.list_byte_of_string s.

(* ===================================================================== *)
(** * The file system: regular files and directories *)
(* ===================================================================== *)

(** The file systems of this development, and so the runs every theorem
    below speaks of, are these:
    - an entry is a regular file or a directory: no symbolic link, no
      FIFO, socket or device;
    - a path names its own entry, and no other path names it: no hard
      link, no folding of case;
    - an operation fails only for the kind of the entries it meets (a
      missing entry, a directory where a file is wanted and the like):
      none is denied for lack of permission and none fails part-way for
      lack of space, so that [copy2] copies all or raises with nothing
      written;
    - nothing but the call itself changes the file system while it runs.
    The functions of [FS] take the path strings the program builds:
    absolute, normalised by [resolve_path], and extended with the names
    of directory entries. *)

Inductive node :=
  | File (data : bytes)
  | Dir.

Definition is_dir (nd : node) : bool :=
  match nd with Dir => true | File _ => false end.

(** The subclasses of [OSError] that calls on such a file system raise. *)
Inductive OSError :=
  | FileNotFoundError
  | NotADirectoryError
  | IsADirectoryError
  | FileExistsError
  | SameFileError.

(** A file system maps the components of an absolute path to the node
    found there; the empty list is the root directory. *)
Abbreviation filesystem := (gmap (list string) node).

Module FS.

(** Every entry but the root lies in a directory and has a name that a
    directory entry can have. *)
Definition wf_entry (fs : filesystem) (k : list string) : bool :=
  match last k with
  | None => true
  | Some n =>
      match fs !! removelast k with
      | Some Dir => Posix.valid_name n
      | _ => false
      end
  end.

Definition wf (fs : filesystem) : Prop :=
  fs !! [] = Some Dir ∧ map_Forall (fun k _ => wf_entry fs k = true) fs.

(** Path resolution as the kernel does it, one component at a time from
    the directory [cur]: a missing component is [ENOENT], a component
    looked up inside a regular file is [ENOTDIR]. *)
Fixpoint resolve (fs : filesystem) (cur rest : list string)
  : OSError + node :=
  match fs !! cur with
  | None => inl FileNotFoundError
  | Some nd =>
      match rest with
      | [] => inr nd
      | c :: rest' =>
          match nd with
          | Dir => resolve fs (cur ++ [c]) rest'
          | File _ => inl NotADirectoryError
          end
      end
  end.

Definition stat (fs : filesystem) (p : string) : OSError + node :=
  resolve fs [] (Posix.components p).

(** [os.path.exists]: [os.stat] succeeds. *)
Definition exists_ (fs : filesystem) (p : string) : bool :=
  match stat fs p with inr _ => true | inl _ => false end.

(** [os.path.isdir] *)
Definition isdir (fs : filesystem) (p : string) : bool :=
  match stat fs p with inr Dir => true | _ => false end.

(** The name under which [k] is an entry of the directory [p]. *)
Definition child_name (p k : list string) : option string :=
  match last k with
  | Some n => if decide (removelast k = p) then Some n else None
  | None => None
  end.

Definition entries (fs : filesystem) (p : list string)
  : list (string * node) :=
  omap (fun kv => (fun n => (n, kv.2)) <$> child_name p kv.1) (map_to_list fs).

(** [os.scandir], split as [os.walk] splits it into the names of the
    directories and of the other entries. *)
Definition scandir (fs : filesystem) (p : string)
  : OSError + (list string * list string) :=
  match stat fs p with
  | inl e => inl e
  | inr (File _) => inl NotADirectoryError
  | inr Dir =>
      let es := entries fs (Posix.components p) in
      inr ((filter (fun e => is_dir e.2) es).*1,
           (filter (fun e => negb (is_dir e.2)) es).*1)
  end.

(** [open(p, 'rb').read()] *)
Definition open_rb (fs : filesystem) (p : string) : OSError + bytes :=
  match stat fs p with
  | inl e => inl e
  | inr Dir => inl IsADirectoryError
  | inr (File data) => inr data
  end.

(** [open(p, 'wb').write(data)] *)
Definition write_wb (fs : filesystem) (p : string) (data : bytes)
  : OSError + filesystem :=
  let k := Posix.components p in
  match k with
  | [] => inl IsADirectoryError
  | _ =>
      match resolve fs [] (removelast k) with
      | inl e => inl e
      | inr (File _) => inl NotADirectoryError
      | inr Dir =>
          match fs !! k with
          | Some Dir => inl IsADirectoryError
          | _ => inr (<[k := File data]> fs)
          end
      end
  end.

(** [os.makedirs(p)] with [exist_ok=False]: the missing directories are
    made from the first missing ancestor down to [p]; [done] is the part
    of the path already passed. *)
Fixpoint makedirs_from (fs : filesystem) (done todo : list string)
  : OSError + filesystem :=
  match todo with
  | [] => inr fs
  | c :: todo' =>
      let k := done ++ [c] in
      match fs !! k with
      | Some Dir =>
          match todo' with
          | [] => inl FileExistsError
          | _ => makedirs_from fs k todo'
          end
      | Some (File _) =>
          match todo' with
          | [] => inl FileExistsError
          | _ => inl NotADirectoryError
          end
      | None => makedirs_from (<[k := Dir]> fs) k todo'
      end
  end.

Definition makedirs (fs : filesystem) (p : string) : OSError + filesystem :=
  match Posix.components p with
  | [] => inl FileExistsError
  | k =>
      match fs !! [] with
      | Some Dir => makedirs_from fs [] k
      | Some (File _) => inl NotADirectoryError
      | None => inl FileNotFoundError
      end
  end.

(** [os.remove] *)
Definition remove (fs : filesystem) (p : string) : OSError + filesystem :=
  match stat fs p with
  | inl e => inl e
  | inr Dir => inl IsADirectoryError
  | inr (File _) => inr (delete (Posix.components p) fs)
  end.

(** [os.path.basename] *)
Definition basename (p : string) : string :=
  default "" (last (Str.split Posix.sep p)).

(** [os.path.samefile] guarded as [shutil] guards it: both paths name an
    existing node, and the same one. *)
Definition samefile (fs : filesystem) (a b : string) : bool :=
  exists_ fs a && exists_ fs b
  && bool_decide (Posix.components a = Posix.components b).

(** [shutil.copy2(src, dst)]: the content of [src] is written to [dst],
    or into [dst] under the name of [src] when [dst] is a directory.  The
    file metadata [copy2] also copies is not part of this file system. *)
Definition copy2 (fs : filesystem) (src dst : string)
  : OSError + filesystem :=
  let dst := if isdir fs dst then Posix.join dst (basename src) else dst in
  if samefile fs src dst then inl SameFileError
  else match open_rb fs src with
       | inl e => inl e
       | inr data => write_wb fs dst data
       end.

End FS.

(* ===================================================================== *)
(** * The state of a run, exceptions and the logger *)
(* ===================================================================== *)

(** What [sync_folders] passes to [logger.info]. *)
Inductive event :=
  | Created_directory (replica_path : string)
  | Copied_file (source_file replica_file : string)
  | Removed_file (replica_file : string).

(** The message of the f-string. *)
Definition message (e : event) : string :=
  match e with
  | Created_directory p => "Created directory: " +:+ p
  | Copied_file s r => "Copied file: " +:+ s +:+ " to " +:+ r
  | Removed_file r => "Removed file: " +:+ r
  end.

Record state := State { fs : filesystem; log : list event }.

(** A call returns, raises, or is cut off by the bound on the depth of the
    walk. *)
Inductive outcome (A : Type) :=
  | Ok (a : A) (st : state)
  | Raise (e : OSError) (st : state)
  | OutOfFuel.
Arguments Ok {A} a st.
Arguments Raise {A} e st.
Arguments OutOfFuel {A}.

Definition M (A : Type) : Type := state -> outcome A.

Definition ret {A} (a : A) : M A := fun st => Ok a st.

Definition bind {A B} (m : M A) (f : A -> M B) : M B :=
  fun st =>
    match m st with
    | Ok a st' => f a st'
    | Raise e st' => Raise e st'
    | OutOfFuel => OutOfFuel
    end.

Notation "x <- m ;; k" := (bind m (fun x => k))
  (at level 100, m at next level, right associativity).
Notation "m ;;; k" := (bind m (fun _ => k))
  (at level 100, right associativity).

(** A query of the file system. *)
Definition query {A} (f : filesystem -> A) : M A := fun st => Ok (f (fs st)) st.

(** A call that raises or returns a value without changing anything. *)
Definition read_call {A} (f : filesystem -> OSError + A) : M A :=
  fun st =>
    match f (fs st) with
    | inl e => Raise e st
    | inr a => Ok a st
    end.

(** A call that raises or changes the file system. *)
Definition write_call (f : filesystem -> OSError + filesystem) : M unit :=
  fun st =>
    match f (fs st) with
    | inl e => Raise e st
    | inr fs' => Ok tt (State fs' (log st))
    end.

(** [logger.info(...)] *)
Definition logger_info (e : event) : M unit :=
  fun st => Ok tt (State (fs st) (log st ++ [e])).

(** [for x in xs: body(x)] *)
Fixpoint for_each {A} (xs : list A) (body : A -> M unit) : M unit :=
  match xs with
  | [] => ret tt
  | x :: xs' => body x ;;; for_each xs' body
  end.

(* ===================================================================== *)
(** * [calculate_md5] *)
(* ===================================================================== *)

(** An open binary file: its content and the read position. *)
Record reader := Reader { content : bytes; pos : nat }.

(** [f.read(n)] *)
Definition read (f : reader) (n : nat) : bytes * reader :=
  let chunk := take n (drop (pos f) (content f)) in
  (chunk, Reader (content f) (pos f + length chunk)).

Definition chunk_size : nat := 4096.

(** [for chunk in iter(lambda: f.read(4096), b""): hash_md5.update(chunk)]
    for a hash object of state [H] with the method [update]; [rounds]
    bounds the number of reads. *)
Fixpoint read_loop {H : Type} (update : H -> bytes -> H) (rounds : nat)
    (f : reader) (hash_md5 : H) : option H :=
  match rounds with
  | O => None
  | S rounds' =>
      let '(chunk, f') := read f chunk_size in
      match chunk with
      | [] => Some hash_md5
      | _ => read_loop update rounds' f' (update hash_md5 chunk)
      end
  end.

(** The body of [calculate_md5] for any hash object in place of
    [hashlib.md5()], so that what the loop feeds to [update] shows in the
    result.  The file is read to its end in at most one read per byte and
    one more that returns [b""]. *)
Definition hash_file {H : Type} (new : H) (update : H -> bytes -> H)
    (hexdigest : H -> string) (file_path : string) : M string :=
  data <- read_call (fun fs => FS.open_rb fs file_path) ;;
  fun st =>
    match read_loop update (S (length data)) (Reader data 0) new with
    | Some hash_md5 => Ok (hexdigest hash_md5) st
    | None => OutOfFuel
    end.

(** [calculate_md5(file_path)]: the hash object is [hashlib.md5()]. *)
Definition calculate_md5 (file_path : string) : M string :=
  hash_file MD5.new MD5.update MD5.hexdigest file_path.

(* ===================================================================== *)
(** * [os.walk] *)
(* ===================================================================== *)

(** [os.walk(top, topdown)] with the body of the [for] loop that consumes
    it.  The entries of a directory are listed when the walk reaches it,
    on the file system as the loop has left it; an error of [scandir] is
    ignored ([onerror] is [None]).  Top-down, the body runs before the
    walk enters the sub-directories; bottom-up, after it has left them,
    on the names listed before.  [fuel] bounds the depth of the walk. *)
Fixpoint os_walk (fuel : nat) (topdown : bool) (top : string)
    (body : string -> list string -> list string -> M unit) : M unit :=
  match fuel with
  | O => fun _ => OutOfFuel
  | S fuel' =>
      listing <- query (fun fs => FS.scandir fs top) ;;
      match listing with
      | inl _ => ret tt
      | inr (dirs, nondirs) =>
          let below :=
            for_each dirs
              (fun dirname =>
                 os_walk fuel' topdown (Posix.join top dirname) body) in
          if topdown then body top dirs nondirs ;;; below
          else below ;;; body top dirs nondirs
      end
  end.

(* ===================================================================== *)
(** * [sync_folders] *)
(* ===================================================================== *)

(** [resolve_path] *)
Definition resolve_path (cwd path : string) : string :=
  Posix.abspath cwd path.

(** Lines 87-91: one file of a directory of the source. *)
Definition sync_file (dirpath replica_path filename : string) : M unit :=
  let source_file := Posix.join dirpath filename in
  let replica_file := Posix.join replica_path filename in
  found <- query (fun fs => FS.exists_ fs replica_file) ;;
  differs <-
    (if negb found then ret true
     else h1 <- calculate_md5 source_file ;;
          h2 <- calculate_md5 replica_file ;;
          ret (negb (bool_decide (h1 = h2)))) ;;
  if differs : bool then
    write_call (fun fs => FS.copy2 fs source_file replica_file) ;;;
    logger_info (Copied_file source_file replica_file)
  else ret tt.

(** Lines 81-91: the body of the loop over the walk of the source. *)
Definition sync_dir (source replica : string)
    (dirpath : string) (dirnames filenames : list string) : M unit :=
  let replica_path := Str.replace1 source replica dirpath in
  found <- query (fun fs => FS.exists_ fs replica_path) ;;
  (if negb found then
     write_call (fun fs => FS.makedirs fs replica_path) ;;;
     logger_info (Created_directory replica_path)
   else ret tt) ;;;
  for_each filenames (sync_file dirpath replica_path).

(** Lines 95-99: one file of a directory of the replica. *)
Definition prune_file (source replica : string) (dirpath filename : string)
  : M unit :=
  let replica_file := Posix.join dirpath filename in
  let source_file := Str.replace1 replica source replica_file in
  found <- query (fun fs => FS.exists_ fs source_file) ;;
  if negb found then
    write_call (fun fs => FS.remove fs replica_file) ;;;
    logger_info (Removed_file replica_file)
  else ret tt.

(** Lines 94-99: the body of the loop over the walk of the replica. *)
Definition prune_dir (source replica : string)
    (dirpath : string) (dirnames filenames : list string) : M unit :=
  for_each filenames (prune_file source replica dirpath).

(** The first loop of [sync_folders], on the resolved roots. *)
Definition propagate (fuel : nat) (source replica : string) : M unit :=
  os_walk fuel true source (sync_dir source replica).

(** The second loop of [sync_folders], on the resolved roots. *)
Definition prune (fuel : nat) (source replica : string) : M unit :=
  os_walk fuel false replica (prune_dir source replica).

(** [sync_folders(source, replica, logger)], run in the working directory
    [cwd]; the logger is the [log] of the state. *)
Definition sync_folders (fuel : nat) (cwd : string) (source replica : string)
  : M unit :=
  let source := resolve_path cwd source in
  let replica := resolve_path cwd replica in
  propagate fuel source replica ;;;
  prune fuel source replica.

(* ===================================================================== *)
(** * Two files with one digest *)
(* ===================================================================== *)

(** Two messages of 128 bytes with the same MD5 digest (Wang and Yu,
    2005). *)
Definition collision_a : bytes := Eval vm_compute in MD5.fromhex
  ("d131dd02c5e6eec4693d9a0698aff95c2fcab58712467eab4004583eb8fb7f89" +:+
   "55ad340609f4b30283e488832571415a085125e8f7cdc99fd91dbdf280373c5b" +:+
   "d8823e3156348f5bae6dacd436c919c6dd53e2b487da03fd02396306d248cda0" +:+
   "e99f33420f577ee8ce54b67080a80d1ec69821bcb6a8839396f9652b6ff72a70").

Definition collision_b : bytes := Eval vm_compute in MD5.fromhex
  ("d131dd02c5e6eec4693d9a0698aff95c2fcab50712467eab4004583eb8fb7f89" +:+
   "55ad340609f4b30283e4888325f1415a085125e8f7cdc99fd91dbd7280373c5b" +:+
   "d8823e3156348f5bae6dacd436c919c6dd53e23487da03fd02396306d248cda0" +:+
   "e99f33420f577ee8ce54b67080280d1ec69821bcb6a8839396f965ab6ff72a70").

Local Close Scope Z_scope.

(* ===================================================================== *)
(** * Paths below a root *)
(* ===================================================================== *)

(** The path [os.walk] builds for the entry reached from [top] through
    the names [q]. *)
Definition walk_path (top : string) (q : list string) : string :=
  foldl Posix.join top q.

(** The text after the root in such a path. *)
Fixpoint rel (q : list string) : string :=
  match q with
  | [] => EmptyString
  | n :: q' => String Posix.sep (n +:+ rel q')
  end.

(** A root that [os.path.join] extends with a separator. *)
Definition good_root (top : string) : Prop :=
  top ≠ "" ∧ Str.endswith top Posix.sep = false.

(** Neither list of components leads into the other. *)
Definition disjoint_roots (cs cr : list string) : Prop :=
  ¬ cs `prefix_of` cr ∧ ¬ cr `prefix_of` cs.

(* ===================================================================== *)
(** * What the calls of the file system find and leave *)
(* ===================================================================== *)

Abbreviation valid_names := (Forall (fun n => Posix.valid_name n = true)).

(** What [stat] finds, or nothing when it raises. *)
Definition found (r : OSError + node) : option node :=
  match r with inr nd => Some nd | inl _ => None end.

(** The file system after the missing directories on the way to [k] have
    been made. *)
Definition made (fs : filesystem) (k p : list string) : option node :=
  match fs !! p with
  | Some nd => Some nd
  | None => if bool_decide (p `prefix_of` k) then Some Dir else None
  end.

(* ===================================================================== *)
(** * What holds of a call *)
(* ===================================================================== *)

(** What holds of the result of [m] from [st]: [Q] when it returns, [E]
    when it raises, [T] when the walk is cut off. *)
Definition spec {A} (m : M A) (st : state)
    (Q : A → state → Prop) (E : OSError → state → Prop) (T : Prop) : Prop :=
  match m st with
  | Ok a st' => Q a st'
  | Raise e st' => E e st'
  | OutOfFuel => T
  end.

(** The events a state has logged beyond those of an earlier state. *)
Definition logged_since (st st' : state) (evs : list event) : Prop :=
  log st' = log st ++ evs.

(* ===================================================================== *)
(** * Conditions on the two trees *)
(* ===================================================================== *)

(** No regular file stands at the replica root or above it, and wherever
    both trees have an entry under the same relative path, both entries
    are directories or both are regular files. *)
Definition no_conflict (fs : filesystem) (cs cr : list string) : Prop :=
  (∀ k c, k `prefix_of` cr → fs !! k ≠ Some (File c))
  ∧ ∀ q ndS ndR, fs !! (cs ++ q) = Some ndS → fs !! (cr ++ q) = Some ndR →
                 is_dir ndS = is_dir ndR.

(** No file of the source has the MD5 digest of a different file found
    under the same relative path in the replica. *)
Definition collision_free (fs : filesystem) (cs cr : list string) : Prop :=
  ∀ q c c', fs !! (cs ++ q) = Some (File c) → fs !! (cr ++ q) = Some (File c') →
            MD5.md5 c' = MD5.md5 c → c' = c.

(** The length of the longest path of the file system: a walk with more
    fuel than that reaches every entry. *)
Definition fs_height (fs : filesystem) : nat :=
  max_list (length <$> (map_to_list fs).*1).

(* ===================================================================== *)
(** * What the first loop may change *)
(* ===================================================================== *)

Section PropagateVocabulary.

Context (source replica : string) (st0 : state).
Local Abbreviation cs := (Posix.components source).
Local Abbreviation cr := (Posix.components replica).
Local Abbreviation fs0 := (fs st0).

(** The replica lacks an up-to-date copy of the source file [q]. *)
Definition stale (st : state) (q : list string) (c : bytes) : Prop :=
  fs st !! (cr ++ q) = None
  ∨ ∃ c0, fs st !! (cr ++ q) = Some (File c0) ∧ MD5.md5 c0 ≠ MD5.md5 c.

(** An event the first loop logs from [st], with its reason. *)
Definition justified (st : state) (e : event) : Prop :=
  (∃ q, e = Created_directory (walk_path replica q)
        ∧ fs0 !! (cs ++ q) = Some Dir ∧ fs st !! (cr ++ q) = None)
  ∨ (∃ q c, e = Copied_file (walk_path source q) (walk_path replica q)
            ∧ fs0 !! (cs ++ q) = Some (File c) ∧ fs0 !! cs = Some Dir
            ∧ stale st q c).

(** What the first loop may have done at [p] between [st] and [st']:
    nothing, made a directory that mirrors one of the source or leads to
    the replica root, or copied a file of the source over a stale or
    missing one. *)
Definition change (evs : list event) (st st' : state) (p : list string)
  : Prop :=
  fs st' !! p = fs st !! p
  ∨ (fs st !! p = None ∧ fs st' !! p = Some Dir ∧ fs0 !! cs = Some Dir
     ∧ (p `prefix_of` cr ∨ ∃ q, p = cr ++ q ∧ fs0 !! (cs ++ q) = Some Dir))
  ∨ (∃ q c, p = cr ++ q ∧ fs0 !! (cs ++ q) = Some (File c)
            ∧ fs0 !! cs = Some Dir
            ∧ fs st' !! p = Some (File c) ∧ stale st q c
            ∧ Copied_file (walk_path source q) (walk_path replica q) ∈ evs).

(** [st'] comes from [st] by steps of the first loop that log [evs]. *)
Definition ExtBy (evs : list event) (st st' : state) : Prop :=
  logged_since st st' evs ∧ Forall (justified st) evs
  ∧ ∀ p, change evs st st' p.

Definition Ext (st st' : state) : Prop := ∃ evs, ExtBy evs st st'.

(** The replica has the directory, the file, the whole sub-tree of the
    source below [q]. *)
Definition dir_done (st : state) (q : list string) : Prop :=
  is_Some (fs st !! (cr ++ q)).

Definition file_done (st : state) (q : list string) (c : bytes) : Prop :=
  ∃ c', fs st !! (cr ++ q) = Some (File c') ∧ MD5.md5 c' = MD5.md5 c.

Definition entry_done (st : state) (q : list string) : Prop :=
  match fs0 !! (cs ++ q) with
  | Some Dir => dir_done st q
  | Some (File c) => file_done st q c
  | None => True
  end.

Definition subtree_done (q : list string) (st : state) : Prop :=
  ∀ q', q `prefix_of` q' → entry_done st q'.

(** Why the first loop raises: a regular file of the replica stands where
    the source has a directory, or on the way to an entry of the source;
    or a directory of the replica stands where the source has a file. *)
Definition blame : Prop :=
  (∃ q k c, is_Some (fs0 !! (cs ++ q)) ∧ fs0 !! cs = Some Dir
            ∧ k `prefix_of` cr ++ q ∧ k ≠ cr ++ q
            ∧ fs0 !! k = Some (File c))
  ∨ (∃ q c, fs0 !! (cs ++ q) = Some (File c) ∧ fs0 !! cs = Some Dir
            ∧ fs0 !! (cr ++ q) = Some Dir).

Definition in_step : Prop := fs0 !! cs = Some Dir → subtree_done [] st0.

End PropagateVocabulary.

(* ===================================================================== *)
(** * What the second loop may change *)
(* ===================================================================== *)

(** The paths strictly below [k]. *)
Definition below (k p : list string) : Prop := ∃ r, r ≠ [] ∧ p = k ++ r.

Section PruneVocabulary.

Context (source replica : string) (st0 : state).
Local Abbreviation cs := (Posix.components source).
Local Abbreviation cr := (Posix.components replica).
Local Abbreviation fs0 := (fs st0).

(** The replica has a regular file under [q] and the source has nothing
    there. *)
Definition orphan (st : state) (q : list string) : Prop :=
  q ≠ [] ∧ (∃ c, fs st !! (cr ++ q) = Some (File c))
  ∧ fs0 !! (cs ++ q) = None.

Definition removal (st : state) (e : event) : Prop :=
  ∃ q, e = Removed_file (walk_path replica q) ∧ orphan st q.

(** Between [st] and [st'] the loop has removed orphans, all of them at
    paths of [frame], and logged [evs]. *)
Definition ShrinkBy (evs : list event) (frame : list string → Prop)
    (st st' : state) : Prop :=
  logged_since st st' evs ∧ Forall (removal st) evs
  ∧ ∀ p, fs st' !! p = fs st !! p
         ∨ (fs st' !! p = None ∧ frame p ∧ ∃ q, p = cr ++ q ∧ orphan st q).

Definition Shrink (frame : list string → Prop) (st st' : state) : Prop :=
  ∃ evs, ShrinkBy evs frame st st'.

(** Every regular file the replica has below [q] has a counterpart in the
    source. *)
Definition pruned (q : list string) (st : state) : Prop :=
  ∀ r c, r ≠ [] → fs st !! (cr ++ q ++ r) = Some (File c) →
         is_Some (fs0 !! (cs ++ q ++ r)).

End PruneVocabulary.

(* ===================================================================== *)
(** * The two decisions of the loops *)
(* ===================================================================== *)

(** The components of a root as [sync_folders] resolves it. *)
Abbreviation root_of cwd path := (Posix.components (resolve_path cwd path)).



(* ===================================================================== *)
(** * Checking the conditions on a given file system *)
(* ===================================================================== *)

#[global] Instance byte_eq_dec : EqDecision Byte.byte := Byte.byte_eq_dec.

(** What follows [root] in [k], when [k] lies under [root]. *)
Definition strip (root k : list string) : option (list string) :=
  if bool_decide (take (length root) k = root)
  then Some (drop (length root) k) else None.

Definition file_at (fs : filesystem) (k : list string) : bool :=
  match fs !! k with Some (File _) => true | _ => false end.

Definition same_kind (fs : filesystem) (cr : list string)
    (q : option (list string)) (nd : node) : bool :=
  match q with
  | Some q =>
      match fs !! (cr ++ q) with
      | Some nd' => bool_decide (is_dir nd = is_dir nd')
      | None => true
      end
  | None => true
  end.

Definition same_content (fs : filesystem) (cr : list string)
    (q : option (list string)) (nd : node) : bool :=
  match q, nd with
  | Some q, File c =>
      match fs !! (cr ++ q) with
      | Some (File c') =>
          implb (bool_decide (MD5.md5 c' = MD5.md5 c)) (bool_decide (c' = c))
      | _ => true
      end
  | _, _ => true
  end.

Definition no_conflict_check (fs : filesystem) (cs cr : list string) : Prop :=
  Forall (fun n => file_at fs (take n cr) = false) (seq 0 (S (length cr)))
  ∧ map_Forall (fun k nd => same_kind fs cr (strip cs k) nd = true) fs.

Definition collision_free_check (fs : filesystem) (cs cr : list string)
  : Prop :=
  map_Forall (fun k nd => same_content fs cr (strip cs k) nd = true) fs.

(* ===================================================================== *)
(** * Runs on given file systems *)
(* ===================================================================== *)

(** What a call has left at a path, the lines it has logged, the
    exception it has raised, whether it has returned. *)
Definition left_at {A} (o : outcome A) (p : list string) : option node :=
  match o with
  | Ok _ st | Raise _ st => fs st !! p
  | OutOfFuel => None
  end.

Definition logged {A} (o : outcome A) : list event :=
  match o with
  | Ok _ st | Raise _ st => log st
  | OutOfFuel => []
  end.

Definition raised {A} (o : outcome A) : option OSError :=
  match o with Raise e _ => Some e | _ => None end.

Definition returned {A} (o : outcome A) : bool :=
  match o with Ok _ _ => true | _ => false end.

Definition state_after {A} (o : outcome A) : state :=
  match o with
  | Ok _ st | Raise _ st => st
  | OutOfFuel => State ∅ []
  end.

(** The source holds [/s/a/b.txt], the replica [/r] is empty. *)
Definition fs_hello : filesystem := list_to_map
  [ ([], Dir); (["s"], Dir); (["s"; "a"], Dir);
    (["s"; "a"; "b.txt"], File (b_ "hello")); (["r"], Dir) ].

(** The replica holds an older [/r/a/b.txt] and a file the source has not. *)
Definition fs_world : filesystem := list_to_map
  [ ([], Dir); (["s"], Dir); (["s"; "a"], Dir);
    (["s"; "a"; "b.txt"], File (b_ "world")); (["r"], Dir);
    (["r"; "a"], Dir); (["r"; "a"; "b.txt"], File (b_ "hello"));
    (["r"; "old.txt"], File (b_ "old")) ].

(** The replica has a regular file where the source has a directory. *)
Definition fs_file_for_dir : filesystem := list_to_map
  [ ([], Dir); (["s"], Dir); (["s"; "d"], Dir);
    (["r"], Dir); (["r"; "d"], File []) ].

(** The replica has a directory where the source has a file, and an
    orphan. *)
Definition fs_dir_for_file : filesystem := list_to_map
  [ ([], Dir); (["s"], Dir); (["s"; "x"], File (b_ "hello"));
    (["r"], Dir); (["r"; "x"], Dir); (["r"; "old.txt"], File (b_ "old")) ].

(** The same conflict at the top, and a changed file further down. *)
Definition fs_conflict_first : filesystem := list_to_map
  [ ([], Dir); (["s"], Dir); (["s"; "x"], File (b_ "hello"));
    (["s"; "sub"], Dir); (["s"; "sub"; "f"], File (b_ "new"));
    (["r"], Dir); (["r"; "x"], Dir); (["r"; "sub"], Dir);
    (["r"; "sub"; "f"], File (b_ "old")) ].

(** The replica has a directory the source has not. *)
Definition fs_extra_dir : filesystem := list_to_map
  [ ([], Dir); (["s"], Dir); (["r"], Dir); (["r"; "e"], Dir);
    (["r"; "e"; "g"], File (b_ "g")) ].

(** Source and replica hold two different files with one MD5 digest. *)
Definition fs_collision : filesystem := list_to_map
  [ ([], Dir); (["s"], Dir); (["s"; "f"], File collision_a);
    (["r"], Dir); (["r"; "f"], File collision_b) ].

(** The replica root [/a/r] lies in the source root [/a]. *)
Definition fs_replica_inside : filesystem := list_to_map
  [ ([], Dir); (["a"], Dir); (["a"; "f"], File (b_ "hello")) ].

(** The source root [/r/s] lies in the replica root [/r]. *)
Definition fs_source_inside : filesystem := list_to_map
  [ ([], Dir); (["r"], Dir); (["r"; "s"], Dir);
    (["r"; "s"; "f"], File (b_ "hello")) ].

(* ===================================================================== *)
(** * What a call reports and records *)
(* ===================================================================== *)

(** What a line of the log says of the file system before and after the
    call: a directory that was not there and is there now; a file whose
    content is now at the second path; a file that was there and is not
    any more. *)
Definition reported (before after : filesystem) (e : event) : Prop :=
  match e with
  | Created_directory replica_path =>
      FS.exists_ before replica_path = false
      ∧ FS.isdir after replica_path = true
  | Copied_file source_file replica_file =>
      ∃ c, FS.open_rb before source_file = inr c
           ∧ FS.open_rb after replica_file = inr c
  | Removed_file replica_file =>
      (∃ c, FS.open_rb before replica_file = inr c)
      ∧ FS.exists_ after replica_file = false
  end.

(** From [st] to [st'] no directory has gone, the log has only grown, and
    the file system has not changed unless a line has been logged. *)
Definition recorded (st st' : state) : Prop :=
  (∀ p, fs st !! p = Some Dir → fs st' !! p = Some Dir)
  ∧ ∃ evs, log st' = log st ++ evs ∧ (evs = [] → fs st' = fs st).

(** A call that keeps to [recorded], whether it returns or raises. *)
Definition keeps_record {A} (m : M A) : Prop :=
  ∀ st, spec m st (fun _ st' => recorded st st')
          (fun _ st' => recorded st st') True.

(* ===================================================================== *)
(** * [ensure_log_dir_exists] and [setup_logging] *)
(* ===================================================================== *)

(** [s.rstrip(c)] *)
Fixpoint str_rstrip (c : ascii) (s : string) : string :=
  match s with
  | EmptyString => EmptyString
  | String a s' =>
      match str_rstrip c s' with
      | EmptyString =>
          if Ascii.eqb a c then EmptyString else String a EmptyString
      | r => String a r
      end
  end.

(** [s[:s.rfind(c) + 1]]: [s] up to its last [c], nothing when it has
    none. *)
Fixpoint str_upto_last (c : ascii) (s : string) : string :=
  match s with
  | EmptyString => EmptyString
  | String a s' =>
      match str_upto_last c s' with
      | EmptyString =>
          if Ascii.eqb a c then String a EmptyString else EmptyString
      | r => String a r
      end
  end.

(** [s == c * len(s)] *)
Fixpoint str_all (c : ascii) (s : string) : bool :=
  match s with
  | EmptyString => true
  | String a s' => Ascii.eqb a c && str_all c s'
  end.

(** [os.path.dirname] *)
Definition dirname (p : string) : string :=
  let head := str_upto_last Posix.sep p in
  if negb (bool_decide (head = "")) && negb (str_all Posix.sep head)
  then str_rstrip Posix.sep head
  else head.

(** [open(p, 'a')]: a missing file is made, empty; a file that is there
    is left as it is. *)
Definition open_a (fs : filesystem) (p : string) : OSError + filesystem :=
  let k := Posix.components p in
  match k with
  | [] => inl IsADirectoryError
  | _ =>
      match FS.resolve fs [] (removelast k) with
      | inl e => inl e
      | inr (File _) => inl NotADirectoryError
      | inr Dir =>
          match fs !! k with
          | Some Dir => inl IsADirectoryError
          | Some (File _) => inr fs
          | None => inr (<[k := File []]> fs)
          end
      end
  end.

(** [ensure_log_dir_exists(log_path)], on a path as [setup_logging]
    passes it: resolved. *)
Definition ensure_log_dir_exists (log_path : string) (fs : filesystem)
  : OSError + filesystem :=
  let log_dir := dirname log_path in
  if negb (FS.exists_ fs log_dir) then FS.makedirs fs log_dir
  else inr fs.

(** The handlers [setup_logging] makes, each with its formatter. *)
Inductive handler :=
  | RotatingFileHandler (baseFilename : string) (maxBytes : N)
      (backupCount : nat) (fmt : string)
  | StreamHandler (fmt : string).

Inductive level := NOTSET | INFO.

(** The logger that [logging.getLogger('FolderSync')] returns, the same
    at every call. *)
Record logger := Logger { level_of : level; handlers : list handler }.

(** The file system and the logger of the process. *)
Record process := Process { files : filesystem; FolderSync : logger }.

Definition formatter : string :=
  "%(asctime)s - %(name)s - %(levelname)s - %(message)s".

(** [setup_logging(log_path)] run in the working directory [cwd].  The
    handler opens its file for appending when it is made, at the absolute
    path of the name it is given; the logger returned is the [FolderSync]
    of the process returned.  An exception leaves with the process as it
    is then. *)
Definition setup_logging (cwd log_path : string) (p : process)
  : OSError * process + process :=
  let log_path := resolve_path cwd log_path in
  match ensure_log_dir_exists log_path (files p) with
  | inl e => inl (e, p)
  | inr fs1 =>
      let logger := Logger INFO (handlers (FolderSync p)) in
      let baseFilename := Posix.abspath cwd log_path in
      match open_a fs1 baseFilename with
      | inl e => inl (e, Process fs1 logger)
      | inr fs2 =>
          let handler := RotatingFileHandler baseFilename 10240%N 5 formatter in
          let console := StreamHandler formatter in
          inr (Process fs2
                 (Logger INFO (handlers logger ++ [handler; console])))
      end
  end.

(* ===================================================================== *)
(** * The library functions on known inputs *)
(* ===================================================================== *)

Example split_ex : Str.split "/" "/a//b/" = [""; "a"; ""; "b"; ""].
Proof. reflexivity. Qed.

Example replace1_ex : Str.replace1 "/a" "/r" "/a/a/x" = "/r/a/x".
Proof. reflexivity. Qed.

Example replace1_mid : Str.replace1 "ab" "X" "cabab" = "cXab".
Proof. reflexivity. Qed.

Example replace1_empty : Str.replace1 "" "X" "abc" = "Xabc".
Proof. reflexivity. Qed.

Example normpath_ex : Posix.normpath "/a/./b/../c//d/" = "/a/c/d".
Proof. vm_compute. reflexivity. Qed.

Example normpath_rel : Posix.normpath "../a/.." = "..".
Proof. vm_compute. reflexivity. Qed.

Example abspath_ex : Posix.abspath "/home/u" "./source" = "/home/u/source".
Proof. vm_compute. reflexivity. Qed.

Example abspath_root : Posix.abspath "/home/u" "/.." = "/".
Proof. vm_compute. reflexivity. Qed.

Example components_ex : Posix.components "//a/./b/" = ["a"; "b"].
Proof. vm_compute. reflexivity. Qed.

Example md5_empty : MD5.md5 [] = "d41d8cd98f00b204e9800998ecf8427e".
Proof. vm_compute. reflexivity. Qed.

Example md5_abc : MD5.md5 (b_ "abc") = "900150983cd24fb0d6963f7d28e17f72".
Proof. vm_compute. reflexivity. Qed.

Example md5_hello : MD5.md5 (b_ "hello") = "5d41402abc4b2a76b9719d911017c592".
Proof. vm_compute. reflexivity. Qed.

Example md5_block :
  MD5.md5 (replicate 64 Byte.x61) = "014842d480b571495a4a0363793f7367".
Proof. vm_compute. reflexivity. Qed.

Example md5_56 :
  MD5.md5 (replicate 56 Byte.x61) = "3b0c8ac703f828b04c6c197006d17218".
Proof. vm_compute. reflexivity. Qed.

(** The two messages of Wang and Yu differ and have one digest. *)
Lemma md5_collision :
  collision_a ≠ collision_b ∧ length collision_a = length collision_b
  ∧ MD5.md5 collision_a = MD5.md5 collision_b.
Proof. split; [|split]; vm_compute; [discriminate | reflexivity..]. Qed.

Section PathLemmas.

Local Arguments String.append : simpl nomatch.

(* ===================================================================== *)
(** * Strings *)
(* ===================================================================== *)

Lemma str_app_nil_r (s : string) : s +:+ "" = s.
Proof. induction s; simpl; congruence. Qed.

Lemma str_app_assoc (a b c : string) : (a +:+ b) +:+ c = a +:+ (b +:+ c).
Proof. induction a; simpl; congruence. Qed.

Lemma str_app_eq_nil (a b : string) : a +:+ b = "" → a = "" ∧ b = "".
Proof. destruct a; simpl; [tauto | discriminate]. Qed.

Lemma startswith_app (p s : string) : Str.startswith (p +:+ s) p = true.
Proof.
  induction p as [|c p IH]; simpl; [done|].
  by rewrite Ascii.eqb_refl.
Qed.

Lemma drop_app (p s : string) : Str.drop (String.length p) (p +:+ s) = s.
Proof. induction p; simpl; [by destruct s | done]. Qed.

Lemma replace1_unfold (old new s : string) :
  Str.replace1 old new s =
    if Str.startswith s old then new +:+ Str.drop (String.length old) s
    else match s with
         | EmptyString => EmptyString
         | String c s' => String c (Str.replace1 old new s')
         end.
Proof. by destruct s. Qed.

Lemma replace1_prefix (old new rest : string) :
  Str.replace1 old new (old +:+ rest) = new +:+ rest.
Proof. by rewrite replace1_unfold, startswith_app, drop_app. Qed.

Lemma split_nonempty (c : ascii) (s : string) : Str.split c s ≠ [].
Proof.
  induction s as [|a s IH]; simpl; [done|].
  destruct (Ascii.eqb a c); [done|]. by destruct (Str.split c s).
Qed.

Lemma split_app (c : ascii) (a b : string) :
  Str.split c (a +:+ String c b) = Str.split c a ++ Str.split c b.
Proof.
  induction a as [|x a IH]; simpl.
  - by rewrite Ascii.eqb_refl.
  - destruct (Ascii.eqb x c); [by rewrite IH|].
    rewrite IH. pose proof (split_nonempty c a).
    by destruct (Str.split c a).
Qed.

Lemma split_no_sep (c : ascii) (n : string) :
  Str.contains c n = false → Str.split c n = [n].
Proof.
  induction n as [|a n IH]; simpl; [done|].
  intros [Ha Hn]%orb_false_elim. rewrite Ha. by rewrite IH.
Qed.

Lemma split_pieces (c : ascii) (s : string) :
  Forall (fun w => Str.contains c w = false) (Str.split c s).
Proof.
  induction s as [|a s IH]; simpl; [by repeat constructor|].
  destruct (Ascii.eqb a c) eqn:Ha; [by constructor|].
  destruct (Str.split c s) as [|w ws].
  { constructor; [simpl; by rewrite Ha | constructor]. }
  inversion_clear IH. constructor; [|done]. simpl. by rewrite Ha.
Qed.

Lemma endswith_app (a n : string) (c : ascii) :
  n ≠ "" → Str.endswith (a +:+ n) c = Str.endswith n c.
Proof.
  intros Hn. induction a as [|x a IH]; simpl; [done|].
  rewrite IH. destruct (a +:+ n) eqn:E; [|done].
  by apply str_app_eq_nil in E as [_ ?].
Qed.

Lemma endswith_no_sep (n : string) (c : ascii) :
  Str.contains c n = false → Str.endswith n c = false.
Proof.
  induction n as [|a n IH]; simpl; [done|].
  intros [Ha Hn]%orb_false_elim. destruct n; [done|]. by apply IH.
Qed.

Lemma startswith_no_sep (n : string) :
  Str.contains Posix.sep n = false → Str.startswith n "/" = false.
Proof.
  destruct n as [|a n]; [done|].
  intros [Ha _]%orb_false_elim. unfold Str.startswith.
  destruct (Ascii.eqb_spec "/" a) as [<-|]; [|done].
  by rewrite Ascii.eqb_refl in Ha.
Qed.

(* ===================================================================== *)
(** * Components *)
(* ===================================================================== *)

Lemma valid_name_inv (n : string) :
  Posix.valid_name n = true →
  n ≠ "" ∧ Posix.is_comp n = true ∧ Str.contains Posix.sep n = false.
Proof.
  unfold Posix.valid_name, Posix.is_comp.
  intros [[H1 H2]%andb_prop H3]%andb_prop.
  apply negb_true_iff in H3. apply negb_true_iff, bool_decide_eq_false in H1.
  repeat split; [done| |done]. by rewrite H2, andb_true_r, negb_true_iff,
    bool_decide_eq_false.
Qed.

Lemma components_nil : Posix.components "" = [].
Proof. reflexivity. Qed.

Lemma components_app (a b : string) :
  Posix.components (a +:+ String Posix.sep b)
  = Posix.components a ++ Posix.components b.
Proof. unfold Posix.components. by rewrite split_app, List.filter_app. Qed.

Lemma components_name (n : string) :
  Posix.valid_name n = true → Posix.components n = [n].
Proof.
  intros (_ & Hc & Hs)%valid_name_inv. unfold Posix.components.
  rewrite split_no_sep by done. simpl. by rewrite Hc.
Qed.

Lemma components_valid (s : string) :
  Forall (fun n => Posix.valid_name n = true) (Posix.components s).
Proof.
  unfold Posix.components. pose proof (split_pieces Posix.sep s) as H.
  induction H as [|w ws Hw _ IH]; simpl; [constructor|].
  destruct (Posix.is_comp w) eqn:E; [|done].
  constructor; [|done]. unfold Posix.valid_name. by rewrite E, Hw.
Qed.

Lemma components_rel (a : string) (q : list string) :
  Forall (fun n => Posix.valid_name n = true) q →
  Posix.components (a +:+ rel q) = Posix.components a ++ q.
Proof.
  intros Hq. revert a. induction Hq as [|n q Hn _ IH]; intros a; simpl.
  - by rewrite str_app_nil_r, app_nil_r.
  - by rewrite components_app, IH, (components_name n).
Qed.

(* ===================================================================== *)
(** * [os.path.join] along a walk *)
(* ===================================================================== *)

Lemma join_name (top n : string) :
  good_root top → Posix.valid_name n = true →
  Posix.join top n = top +:+ String Posix.sep n.
Proof.
  intros [Hne Hend] (_ & _ & Hs)%valid_name_inv. unfold Posix.join.
  rewrite startswith_no_sep by done.
  rewrite bool_decide_eq_false_2 by done. by rewrite Hend.
Qed.

Lemma good_root_snoc (top n : string) :
  Posix.valid_name n = true → good_root (top +:+ String Posix.sep n).
Proof.
  intros (Hne & _ & Hs)%valid_name_inv. split.
  - by intros [_ ?]%str_app_eq_nil.
  - rewrite endswith_app by done. simpl.
    destruct n; [done|]. by apply (endswith_no_sep (String _ _)).
Qed.

Lemma walk_path_snoc (top : string) (q : list string) (n : string) :
  walk_path top (q ++ [n]) = Posix.join (walk_path top q) n.
Proof. unfold walk_path. by rewrite foldl_app. Qed.

Lemma walk_path_rel (top : string) (q : list string) :
  good_root top → Forall (fun n => Posix.valid_name n = true) q →
  walk_path top q = top +:+ rel q.
Proof.
  intros Htop Hq. revert top Htop.
  induction Hq as [|n q Hn _ IH]; intros top Htop; simpl.
  - by rewrite str_app_nil_r.
  - change (walk_path top (n :: q)) with (walk_path (Posix.join top n) q).
    rewrite join_name by done. rewrite IH by by apply good_root_snoc.
    by rewrite str_app_assoc.
Qed.

Lemma walk_path_good (top : string) (q : list string) :
  good_root top → Forall (fun n => Posix.valid_name n = true) q →
  good_root (walk_path top q).
Proof.
  intros Htop Hq. revert top Htop.
  induction Hq as [|n q Hn _ IH]; intros top Htop; [done|].
  change (walk_path top (n :: q)) with (walk_path (Posix.join top n) q).
  apply IH. rewrite join_name by done. by apply good_root_snoc.
Qed.

Lemma walk_path_components (top : string) (q : list string) :
  good_root top → Forall (fun n => Posix.valid_name n = true) q →
  Posix.components (walk_path top q) = Posix.components top ++ q.
Proof. intros. rewrite walk_path_rel by done. by apply components_rel. Qed.

Lemma walk_path_mirror (top top' : string) (q : list string) :
  good_root top → good_root top' →
  Forall (fun n => Posix.valid_name n = true) q →
  Str.replace1 top top' (walk_path top q) = walk_path top' q.
Proof.
  intros. rewrite !walk_path_rel by done. apply replace1_prefix.
Qed.



(* ===================================================================== *)
(** * Normalised roots *)
(* ===================================================================== *)

Lemma join_sep_rel (w : string) (ws : list string) :
  Str.join Posix.sep (w :: ws) = w +:+ rel ws.
Proof.
  revert w. induction ws as [|w' ws IH]; intros w.
  - simpl. by rewrite str_app_nil_r.
  - change (Str.join Posix.sep (w :: w' :: ws))
      with (w +:+ String Posix.sep (Str.join Posix.sep (w' :: ws))).
    by rewrite IH.
Qed.

Lemma endswith_rel (a : string) (q : list string) :
  Forall (fun n => Posix.valid_name n = true) q → q ≠ [] →
  Str.endswith (a +:+ rel q) Posix.sep = false.
Proof.
  intros Hq. revert a. induction Hq as [|n q Hn Hq IH]; intros a Hne; [done|].
  destruct q as [|n' q].
  - simpl. rewrite str_app_nil_r.
    by destruct (good_root_snoc a n Hn).
  - change (rel (n :: n' :: q)) with (String Posix.sep (n +:+ rel (n' :: q))).
    replace (a +:+ String Posix.sep (n +:+ rel (n' :: q)))
      with ((a +:+ String Posix.sep n) +:+ rel (n' :: q)).
    + by apply IH.
    + by rewrite str_app_assoc.
Qed.

Lemma norm_step_valid (k : nat) (acc : list string) (comp : string) :
  Str.contains Posix.sep comp = false →
  Forall (fun n => Posix.valid_name n = true) acc →
  Forall (fun n => Posix.valid_name n = true) (Posix.norm_step k acc comp).
Proof.
  intros Hc Hacc. unfold Posix.norm_step.
  destruct (bool_decide (comp = "") || bool_decide (comp = ".")) eqn:E;
    [done|].
  match goal with |- context [if ?b then _ else _] => destruct b end.
  - apply Forall_app. split; [done|]. constructor; [|constructor].
    unfold Posix.valid_name, Posix.is_comp. rewrite Hc.
    apply orb_false_elim in E as [-> ->]. done.
  - clear E. induction Hacc as [|x [|y l] Hx Hl IH]; simpl; try constructor;
      try done.
Qed.

Lemma norm_comps_valid (k : nat) (ws acc : list string) :
  Forall (fun w => Str.contains Posix.sep w = false) ws →
  Forall (fun n => Posix.valid_name n = true) acc →
  Forall (fun n => Posix.valid_name n = true)
    (foldl (Posix.norm_step k) acc ws).
Proof.
  intros Hws. revert acc. induction Hws as [|w ws Hw _ IH]; intros acc Hacc;
    simpl; [done|].
  by apply IH, norm_step_valid.
Qed.

Lemma normpath_good (p : string) :
  Posix.components (Posix.normpath p) ≠ [] → good_root (Posix.normpath p).
Proof.
  unfold Posix.normpath. case_bool_decide as Hp; [done|].
  set (k := if Str.startswith p "/" then _ else _).
  pose proof (norm_comps_valid k (Str.split Posix.sep p) []
                (split_pieces _ _) (Forall_nil_2 _)) as Hv.
  destruct (foldl (Posix.norm_step k) [] (Str.split Posix.sep p))
    as [|w ws].
  { by destruct k as [|[|k]]. }
  rewrite join_sep_rel. inversion_clear Hv as [|?? Hw Hws].
  pose proof (valid_name_inv _ Hw) as (Hwne & _ & Hwsep).
  set (pre := match k with 0%nat => _ | _ => _ end).
  assert (∃ s, pre = s +:+ w +:+ rel ws) as [s Hs].
  { subst pre. destruct k as [|[|k]]; [by exists "" | by exists "/" | by exists "//"]. }
  rewrite Hs.
  assert (s +:+ w +:+ rel ws ≠ "") as Hne.
  { intros [_ [? _]%str_app_eq_nil]%str_app_eq_nil. done. }
  rewrite bool_decide_eq_false_2 by done.
  intros _. split; [done|].
  destruct ws as [|w' ws].
  - simpl. rewrite str_app_nil_r, endswith_app by done.
    by apply endswith_no_sep.
  - rewrite <- str_app_assoc. by apply endswith_rel.
Qed.

Lemma resolve_path_good (cwd p : string) :
  Posix.components (resolve_path cwd p) ≠ [] → good_root (resolve_path cwd p).
Proof. apply normpath_good. Qed.

Lemma disjoint_roots_nonempty (cs cr : list string) :
  disjoint_roots cs cr → cs ≠ [] ∧ cr ≠ [].
Proof.
  intros [H1 H2]; split; intros ->; [apply H1 | apply H2]; apply prefix_nil.
Qed.

End PathLemmas.

(* ===================================================================== *)
(** * Well-formed file systems *)
(* ===================================================================== *)

Lemma wf_snoc (fs : filesystem) (p : list string) (n : string) :
  FS.wf fs → is_Some (fs !! (p ++ [n])) →
  fs !! p = Some Dir ∧ Posix.valid_name n = true.
Proof.
  intros [_ H] [nd Hnd]. specialize (H _ _ Hnd). unfold FS.wf_entry in H.
  rewrite last_snoc, List.removelast_last in H.
  destruct (fs !! p) as [[|]|]; done.
Qed.

Lemma wf_prefix (fs : filesystem) (p q : list string) :
  FS.wf fs → is_Some (fs !! (p ++ q)) → q ≠ [] → fs !! p = Some Dir.
Proof.
  intros Hwf. induction q as [|n q IH] using rev_ind; [done|].
  rewrite app_assoc. intros [Hp _]%wf_snoc _; [|done].
  destruct q; [by rewrite app_nil_r in Hp|]. apply IH; [by rewrite Hp|done].
Qed.

Lemma wf_prefix_some (fs : filesystem) (p k : list string) :
  FS.wf fs → is_Some (fs !! k) → p `prefix_of` k → is_Some (fs !! p).
Proof.
  intros Hwf Hk [q ->]. destruct q as [|n q].
  - by rewrite app_nil_r in Hk.
  - by rewrite (wf_prefix fs p (n :: q)).
Qed.

Lemma wf_valid (fs : filesystem) (k : list string) :
  FS.wf fs → is_Some (fs !! k) → valid_names k.
Proof.
  intros Hwf. induction k as [|n k IH] using rev_ind; [constructor|].
  intros Hk. destruct (wf_snoc _ _ _ Hwf Hk) as [Hp Hn].
  apply Forall_app. split; [apply IH; by rewrite Hp|by constructor].
Qed.

Lemma wf_below_file (fs : filesystem) (p q : list string) (c : bytes) :
  FS.wf fs → fs !! p = Some (File c) → q ≠ [] → fs !! (p ++ q) = None.
Proof.
  intros Hwf Hp Hq. destruct (fs !! (p ++ q)) eqn:E; [|done].
  rewrite (wf_prefix fs p q) in Hp; by eauto.
Qed.

Lemma wf_below_none (fs : filesystem) (p q : list string) :
  FS.wf fs → fs !! p = None → fs !! (p ++ q) = None.
Proof.
  intros Hwf Hp. destruct (fs !! (p ++ q)) eqn:E; [|done].
  destruct (wf_prefix_some fs p (p ++ q)) as [? Hs];
    [done | by eauto | by apply prefix_app_r | congruence].
Qed.

Lemma wf_insert_dir (fs : filesystem) (p : list string) (n : string) :
  FS.wf fs → fs !! p = Some Dir → Posix.valid_name n = true →
  fs !! (p ++ [n]) = None →
  FS.wf (<[p ++ [n] := Dir]> fs).
Proof.
  intros [Hroot Hall] Hp Hn Hnone. split.
  - rewrite lookup_insert_ne; [done|]. by destruct p.
  - apply map_Forall_insert; [done|]. split.
    + unfold FS.wf_entry. rewrite last_snoc, List.removelast_last.
      rewrite lookup_insert_ne, Hp; [done|].
      intros E. apply (f_equal length) in E. rewrite length_app in E.
      simpl in E. lia.
    + intros k nd Hk. specialize (Hall k nd Hk). unfold FS.wf_entry in *.
      destruct (last k); [|done].
      destruct (decide (p ++ [n] = removelast k)) as [E|Hne].
      * by rewrite <- E, Hnone in Hall.
      * by rewrite lookup_insert_ne.
Qed.

Lemma wf_insert_file (fs : filesystem) (p : list string) (n : string)
    (data : bytes) :
  FS.wf fs → fs !! p = Some Dir → Posix.valid_name n = true →
  fs !! (p ++ [n]) ≠ Some Dir →
  FS.wf (<[p ++ [n] := File data]> fs).
Proof.
  intros [Hroot Hall] Hp Hn Hnd. split.
  - rewrite lookup_insert_ne; [done|]. by destruct p.
  - intros k nd Hk. unfold FS.wf_entry.
    destruct (last k) as [m|] eqn:Hlast; [|done].
    assert (<[p ++ [n] := File data]> fs !! removelast k
            = fs !! removelast k ∨ removelast k = p ++ [n]) as [->|E].
    { destruct (decide (p ++ [n] = removelast k)); [by right|].
      left. by rewrite lookup_insert_ne. }
    + destruct (decide (k = p ++ [n])) as [->|Hne].
      * rewrite last_snoc in Hlast. rewrite List.removelast_last, Hp.
        congruence.
      * rewrite lookup_insert_ne in Hk by done.
        specialize (Hall k nd Hk). unfold FS.wf_entry in Hall.
        by rewrite Hlast in Hall.
    + destruct (decide (k = p ++ [n])) as [->|Hne].
      * rewrite List.removelast_last in E.
        apply (f_equal length) in E. rewrite length_app in E.
        simpl in E. lia.
      * rewrite lookup_insert_ne in Hk by done.
        specialize (Hall k nd Hk). unfold FS.wf_entry in Hall.
        rewrite Hlast, E in Hall.
        destruct (fs !! (p ++ [n])) as [[|]|]; done.
Qed.

Lemma wf_delete_file (fs : filesystem) (k : list string) (data : bytes) :
  FS.wf fs → fs !! k = Some (File data) → FS.wf (delete k fs).
Proof.
  intros [Hroot Hall] Hk. split.
  - rewrite lookup_delete_ne; [done|]. intros ->. congruence.
  - intros k' nd [Hne Hk']%lookup_delete_Some.
    specialize (Hall k' nd Hk'). unfold FS.wf_entry in *.
    destruct (last k'); [|done].
    destruct (decide (k = removelast k')) as [E|Hne'].
    + by rewrite <- E, Hk in Hall.
    + by rewrite lookup_delete_ne.
Qed.

(* ===================================================================== *)
(** * Path resolution *)
(* ===================================================================== *)

Lemma resolve_found (fs : filesystem) (cur rest : list string) :
  FS.wf fs → found (FS.resolve fs cur rest) = fs !! (cur ++ rest).
Proof.
  intros Hwf. revert cur. induction rest as [|c rest IH]; intros cur; simpl.
  - rewrite app_nil_r. by destruct (fs !! cur).
  - destruct (fs !! cur) as [[data|]|] eqn:E; simpl.
    + symmetry. by eapply wf_below_file.
    + rewrite IH. by rewrite <- app_assoc.
    + symmetry. by apply wf_below_none.
Qed.

Lemma stat_found (fs : filesystem) (p : string) :
  FS.wf fs → found (FS.stat fs p) = fs !! Posix.components p.
Proof. intros. unfold FS.stat. by rewrite resolve_found. Qed.

Lemma stat_some (fs : filesystem) (p : string) (nd : node) :
  FS.wf fs → fs !! Posix.components p = Some nd → FS.stat fs p = inr nd.
Proof.
  intros Hwf H. rewrite <- stat_found in H by done.
  by destruct (FS.stat fs p); simplify_eq/=.
Qed.

Lemma stat_none (fs : filesystem) (p : string) :
  FS.wf fs → fs !! Posix.components p = None → ∃ e, FS.stat fs p = inl e.
Proof.
  intros Hwf H. rewrite <- stat_found in H by done.
  destruct (FS.stat fs p); simplify_eq/=; eauto.
Qed.

Lemma exists_some (fs : filesystem) (p : string) :
  FS.wf fs → FS.exists_ fs p = true ↔ is_Some (fs !! Posix.components p).
Proof.
  intros Hwf. unfold FS.exists_. rewrite <- stat_found by done.
  destruct (FS.stat fs p); simpl; split; intros H; try done.
Qed.

Lemma exists_none (fs : filesystem) (p : string) :
  FS.wf fs → FS.exists_ fs p = false ↔ fs !! Posix.components p = None.
Proof.
  intros Hwf. rewrite <- not_true_iff_false, exists_some by done.
  by rewrite eq_None_not_Some.
Qed.

(* ===================================================================== *)
(** * Listing a directory *)
(* ===================================================================== *)

Lemma child_name_spec (p k : list string) (n : string) :
  FS.child_name p k = Some n ↔ k = p ++ [n].
Proof.
  unfold FS.child_name. split.
  - destruct (last k) as [m|] eqn:E; [|done].
    apply last_Some in E as [l ->]. rewrite List.removelast_last.
    case_decide; naive_solver.
  - intros ->. rewrite last_snoc, List.removelast_last.
    by rewrite decide_True.
Qed.

Lemma entries_spec (fs : filesystem) (p : list string) (n : string)
    (nd : node) :
  (n, nd) ∈ FS.entries fs p ↔ fs !! (p ++ [n]) = Some nd.
Proof.
  unfold FS.entries. rewrite list_elem_of_omap. split.
  - intros ([k nd'] & Hin & Hf). apply elem_of_map_to_list in Hin.
    simpl in Hf. destruct (FS.child_name p k) eqn:E; simplify_eq/=.
    by apply child_name_spec in E as ->.
  - intros H. exists (p ++ [n], nd). split; [by apply elem_of_map_to_list|].
    simpl. by rewrite (proj2 (child_name_spec p (p ++ [n]) n)).
Qed.

Lemma NoDup_omap_inj {A B} (f : A → option B) (l : list A) :
  NoDup l →
  (∀ x y z, x ∈ l → y ∈ l → f x = Some z → f y = Some z → x = y) →
  NoDup (omap f l).
Proof.
  induction 1 as [|x l Hx Hl IH]; intros Hinj; simpl; [constructor|].
  assert (NoDup (omap f l)) as IH'.
  { apply IH. intros ??? ??. apply Hinj; by constructor. }
  destruct (f x) as [z|] eqn:E; [|done].
  constructor; [|done]. intros (y & Hy & Hfy)%list_elem_of_omap.
  assert (x = y) as -> by (eapply Hinj; [by left | by right | done..]).
  done.
Qed.

Lemma entries_NoDup (fs : filesystem) (p : list string) :
  NoDup (FS.entries fs p).
Proof.
  apply NoDup_omap_inj; [apply NoDup_map_to_list|].
  intros [k1 v1] [k2 v2] [n nd] _ _ H1 H2. simpl in *.
  destruct (FS.child_name p k1) eqn:E1; simplify_eq/=.
  destruct (FS.child_name p k2) eqn:E2; simplify_eq/=.
  apply child_name_spec in E1, E2. by subst.
Qed.

Lemma entries_names_NoDup (fs : filesystem) (p : list string)
    (P : string * node → Prop) `{!∀ e, Decision (P e)} :
  NoDup (filter P (FS.entries fs p)).*1.
Proof.
  apply NoDup_fmap_fst; [|apply NoDup_filter, entries_NoDup].
  intros n nd1 nd2 [_ H1%entries_spec]%list_elem_of_filter
    [_ H2%entries_spec]%list_elem_of_filter. congruence.
Qed.

Lemma scandir_spec (fs : filesystem) (top : string) :
  FS.wf fs → fs !! Posix.components top = Some Dir →
  ∃ dirs files, FS.scandir fs top = inr (dirs, files)
    ∧ (∀ n, n ∈ dirs ↔ fs !! (Posix.components top ++ [n]) = Some Dir)
    ∧ (∀ n, n ∈ files
            ↔ ∃ c, fs !! (Posix.components top ++ [n]) = Some (File c))
    ∧ NoDup files.
Proof.
  intros Hwf Hk. unfold FS.scandir. rewrite (stat_some fs top Dir) by done.
  eexists _, _. split; [done|]. split; [|split].
  - intros n. rewrite list_elem_of_fmap. split.
    + intros ([n' nd] & -> & [Hd Hin]%list_elem_of_filter).
      apply entries_spec in Hin. by destruct nd.
    + intros H. exists (n, Dir). split; [done|].
      apply list_elem_of_filter. split; [done|]. by apply entries_spec.
  - intros n. rewrite list_elem_of_fmap. split.
    + intros ([n' nd] & -> & [Hd Hin]%list_elem_of_filter).
      apply entries_spec in Hin. destruct nd; [by eauto|done].
    + intros [c H]. exists (n, File c). split; [done|].
      apply list_elem_of_filter. split; [done|]. by apply entries_spec.
  - apply entries_names_NoDup.
Qed.

Lemma scandir_fail (fs : filesystem) (top : string) :
  FS.wf fs → fs !! Posix.components top ≠ Some Dir →
  ∃ e, FS.scandir fs top = inl e.
Proof.
  intros Hwf Hk. unfold FS.scandir.
  rewrite <- stat_found in Hk by done.
  destruct (FS.stat fs top) as [e|[c|]]; simpl in *; by eauto.
Qed.

(* ===================================================================== *)
(** * Reading, writing and removing *)
(* ===================================================================== *)

Lemma open_rb_file (fs : filesystem) (p : string) (data : bytes) :
  FS.wf fs → fs !! Posix.components p = Some (File data) →
  FS.open_rb fs p = inr data.
Proof. intros. unfold FS.open_rb. by rewrite (stat_some fs p (File data)). Qed.

Lemma open_rb_dir (fs : filesystem) (p : string) :
  FS.wf fs → fs !! Posix.components p = Some Dir →
  FS.open_rb fs p = inl IsADirectoryError.
Proof. intros. unfold FS.open_rb. by rewrite (stat_some fs p Dir). Qed.

Lemma isdir_spec (fs : filesystem) (p : string) :
  FS.wf fs → FS.isdir fs p = true ↔ fs !! Posix.components p = Some Dir.
Proof.
  intros Hwf. unfold FS.isdir. rewrite <- stat_found by done.
  destruct (FS.stat fs p) as [|[|]]; simpl; naive_solver.
Qed.

Lemma remove_file (fs : filesystem) (p : string) (data : bytes) :
  FS.wf fs → fs !! Posix.components p = Some (File data) →
  FS.remove fs p = inr (delete (Posix.components p) fs).
Proof. intros. unfold FS.remove. by rewrite (stat_some fs p (File data)). Qed.

Lemma write_wb_ok (fs : filesystem) (top : string) (p : list string)
    (n : string) (data : bytes) :
  FS.wf fs → Posix.components top = p ++ [n] → fs !! p = Some Dir →
  fs !! (p ++ [n]) ≠ Some Dir →
  FS.write_wb fs top data = inr (<[p ++ [n] := File data]> fs).
Proof.
  intros Hwf Hk Hp Hnd. unfold FS.write_wb. rewrite Hk.
  destruct (p ++ [n]) eqn:E; [by destruct p|]. rewrite <- E in Hnd |- *.
  rewrite List.removelast_last.
  pose proof (resolve_found fs [] p Hwf) as Hr. simpl in Hr.
  rewrite Hp in Hr. destruct (FS.resolve fs [] p) as [|[|]]; simplify_eq/=.
  by destruct (fs !! (p ++ [n])) as [[|]|] eqn:E'.
Qed.

Lemma write_wb_fail (fs : filesystem) (top : string) (p : list string)
    (n : string) (data : bytes) :
  FS.wf fs → Posix.components top = p ++ [n] → fs !! p ≠ Some Dir →
  ∃ e, FS.write_wb fs top data = inl e.
Proof.
  intros Hwf Hk Hp. unfold FS.write_wb. rewrite Hk.
  destruct (p ++ [n]) eqn:E; [by destruct p|]. rewrite <- E.
  rewrite List.removelast_last.
  pose proof (resolve_found fs [] p Hwf) as Hr. simpl in Hr.
  destruct (FS.resolve fs [] p) as [|[|]]; simplify_eq/=; by eauto.
Qed.

(* ===================================================================== *)
(** * [os.makedirs] and [shutil.copy2] *)
(* ===================================================================== *)

Lemma makedirs_from_spec (fs : filesystem) (done todo : list string) :
  FS.wf fs → fs !! done = Some Dir → valid_names todo →
  match FS.makedirs_from fs done todo with
  | inr fs' => FS.wf fs' ∧ ∀ p, fs' !! p = made fs (done ++ todo) p
  | inl _ =>
      (todo ≠ [] ∧ is_Some (fs !! (done ++ todo)))
      ∨ ∃ k c, k `prefix_of` (done ++ todo) ∧ fs !! k = Some (File c)
  end.
Proof.
  intros Hwf Hdone Hvalid. revert fs done Hwf Hdone.
  induction Hvalid as [|c todo Hc Hvalid IH]; intros fs done Hwf Hdone.
  - simpl. split; [done|]. intros p. unfold made. rewrite app_nil_r.
    destruct (fs !! p) eqn:Ep; [done|]. case_bool_decide as Hpre; [|done].
    destruct (wf_prefix_some fs p done Hwf) as [? ?]; [by eauto|done|].
    congruence.
  - simpl. replace (done ++ c :: todo) with ((done ++ [c]) ++ todo)
      by by rewrite <- app_assoc.
    destruct (fs !! (done ++ [c])) as [[data|]|] eqn:Ek.
    + destruct todo.
      * left. rewrite app_nil_r, Ek. split; [done|by eexists].
      * right. exists (done ++ [c]), data. split; [by apply prefix_app_r|done].
    + destruct todo as [|c' todo].
      * left. rewrite app_nil_r, Ek. split; [done|by eexists].
      * specialize (IH fs (done ++ [c]) Hwf Ek).
        destruct (FS.makedirs_from fs (done ++ [c]) (c' :: todo)); [|done].
        destruct IH as [[_ ?]|?]; [left|right]; done.
    + assert (FS.wf (<[done ++ [c] := Dir]> fs)) as Hwf1
        by by apply wf_insert_dir.
      specialize (IH _ (done ++ [c]) Hwf1 (lookup_insert_eq _ _ _)).
      destruct (FS.makedirs_from _ (done ++ [c]) todo) as [e|fs'].
      * right. destruct IH as [[Hne [nd Hs]]|(k & data & Hpre & Hk)].
        -- rewrite lookup_insert_ne in Hs.
           ++ by rewrite (wf_below_none fs (done ++ [c]) todo) in Hs.
           ++ intros E. apply (f_equal length) in E.
              rewrite !length_app in E. destruct todo; [done|simpl in E; lia].
        -- exists k, data. split; [done|].
           destruct (decide (done ++ [c] = k)) as [<-|Hne].
           ++ by rewrite lookup_insert_eq in Hk.
           ++ by rewrite lookup_insert_ne in Hk.
      * destruct IH as [Hwf' Hchar]. split; [done|]. intros p.
        rewrite Hchar. unfold made.
        destruct (decide (done ++ [c] = p)) as [<-|Hne].
        -- rewrite lookup_insert_eq, Ek.
           rewrite bool_decide_eq_true_2; [done|]. by apply prefix_app_r.
        -- by rewrite lookup_insert_ne.
Qed.

Lemma makedirs_spec (fs : filesystem) (top : string) :
  FS.wf fs → fs !! Posix.components top = None →
  match FS.makedirs fs top with
  | inr fs' => FS.wf fs' ∧ ∀ p, fs' !! p = made fs (Posix.components top) p
  | inl _ =>
      ∃ k c, k `prefix_of` Posix.components top ∧ fs !! k = Some (File c)
  end.
Proof.
  intros Hwf Hnone. unfold FS.makedirs.
  pose proof (components_valid top) as Hv.
  destruct (Posix.components top) as [|c k] eqn:E.
  { destruct Hwf as [Hroot _]. congruence. }
  destruct Hwf as [Hroot Hall]. rewrite Hroot.
  pose proof (makedirs_from_spec fs [] (c :: k) (conj Hroot Hall) Hroot Hv)
    as H.
  destruct (FS.makedirs_from fs [] (c :: k)); [|done].
  destruct H as [[_ [? ?]]|?]; [|done]. simpl in *. congruence.
Qed.

Lemma copy2_ok (fs : filesystem) (src dst : string) (p : list string)
    (n : string) (data : bytes) :
  FS.wf fs → fs !! Posix.components src = Some (File data) →
  Posix.components dst = p ++ [n] → fs !! p = Some Dir →
  fs !! (p ++ [n]) ≠ Some Dir →
  Posix.components src ≠ Posix.components dst →
  FS.copy2 fs src dst = inr (<[p ++ [n] := File data]> fs).
Proof.
  intros Hwf Hsrc Hdst Hp Hnd Hne. unfold FS.copy2.
  assert (FS.isdir fs dst = false) as ->.
  { apply not_true_iff_false. rewrite isdir_spec by done. congruence. }
  unfold FS.samefile. rewrite (bool_decide_eq_false_2 _ Hne), andb_false_r.
  rewrite (open_rb_file fs src data) by done. by apply write_wb_ok.
Qed.

Lemma copy2_fail (fs : filesystem) (src dst : string) (p : list string)
    (n : string) (data : bytes) :
  FS.wf fs → fs !! Posix.components src = Some (File data) →
  Posix.components dst = p ++ [n] → fs !! p ≠ Some Dir →
  ∃ e, FS.copy2 fs src dst = inl e.
Proof.
  intros Hwf Hsrc Hdst Hp. unfold FS.copy2.
  assert (FS.isdir fs dst = false) as ->.
  { apply not_true_iff_false. rewrite isdir_spec, Hdst by done.
    intros H. by destruct (wf_snoc fs p n Hwf); [eauto|]. }
  destruct (FS.samefile fs src dst); [by eauto|].
  rewrite (open_rb_file fs src data) by done. by eapply write_wb_fail.
Qed.

(* ===================================================================== *)
(** * Reasoning about calls *)
(* ===================================================================== *)

(* ===================================================================== *)
(** * The rules *)
(* ===================================================================== *)

Lemma spec_ret {A} (a : A) st (Q : A → state → Prop) E T :
  Q a st → spec (ret a) st Q E T.
Proof. done. Qed.

Lemma spec_bind {A B} (m : M A) (f : A → M B) st
    (Q : B → state → Prop) E T :
  spec m st (fun a st' => spec (f a) st' Q E T) E T →
  spec (bind m f) st Q E T.
Proof. unfold spec, bind. by destruct (m st). Qed.

Lemma spec_mono {A} (m : M A) st (Q Q' : A → state → Prop)
    (E E' : OSError → state → Prop) (T T' : Prop) :
  spec m st Q E T →
  (∀ a st', Q a st' → Q' a st') → (∀ e st', E e st' → E' e st') →
  (T → T') →
  spec m st Q' E' T'.
Proof. unfold spec. destruct (m st); eauto. Qed.

Lemma spec_query {A} (f : filesystem → A) st (Q : A → state → Prop) E T :
  Q (f (fs st)) st → spec (query f) st Q E T.
Proof. done. Qed.

Lemma spec_logger_info (e : event) st (Q : unit → state → Prop) E T :
  Q tt (State (fs st) (log st ++ [e])) → spec (logger_info e) st Q E T.
Proof. done. Qed.

Lemma spec_write_ok (f : filesystem → OSError + filesystem) st fs'
    (Q : unit → state → Prop) E T :
  f (fs st) = inr fs' → Q tt (State fs' (log st)) →
  spec (write_call f) st Q E T.
Proof. unfold spec, write_call. by intros ->. Qed.

Lemma spec_write_fail (f : filesystem → OSError + filesystem) st e
    (Q : unit → state → Prop) (E : OSError → state → Prop) T :
  f (fs st) = inl e → E e st → spec (write_call f) st Q E T.
Proof. unfold spec, write_call. by intros ->. Qed.

(** A loop whose rounds are related by a preorder [R] and each leave a
    fact [D] that later rounds keep. *)
Lemma spec_for_each {A} (xs : list A) (body : A → M unit)
    (P : state → Prop) (R : state → state → Prop) (D : A → state → Prop)
    (B : state → Prop) (T : Prop) st :
  (∀ s, R s s) → (∀ s1 s2 s3, R s1 s2 → R s2 s3 → R s1 s3) →
  (∀ x s s', D x s → R s s' → D x s') →
  (∀ x s, x ∈ xs → P s →
     spec (body x) s (fun _ s' => P s' ∧ R s s' ∧ D x s')
       (fun _ s' => R s s' ∧ B s') T) →
  P st →
  spec (for_each xs body) st
    (fun _ s' => P s' ∧ R st s' ∧ Forall (fun x => D x s') xs)
    (fun _ s' => R st s' ∧ B s') T.
Proof.
  intros Hrefl Htrans Hstable. revert st.
  induction xs as [|x xs IH]; intros st Hbody HP; simpl.
  - apply spec_ret. by repeat split.
  - apply spec_bind.
    eapply spec_mono; [apply Hbody; [by left|done] | | done..].
    intros [] s1 (HP1 & HR1 & HD1). simpl.
    eapply spec_mono; [apply IH; [|done] | | |done].
    + intros y s Hy. apply Hbody. by right.
    + intros [] s2 (HP2 & HR2 & HD2). simpl. repeat split; eauto.
    + intros e s2 [HR2 HB]. simpl. eauto.
Qed.

(* ===================================================================== *)
(** * [calculate_md5] *)
(* ===================================================================== *)

Lemma update_app (h : MD5.t) (a b : bytes) :
  MD5.update (MD5.update h a) b = MD5.update h (a ++ b).
Proof. unfold MD5.update. by rewrite foldl_app. Qed.

Lemma read_length (f : reader) (n : nat) : length (read f n).1 ≤ n.
Proof. unfold read. simpl. rewrite length_take. lia. Qed.

Lemma take_drop_length {A} (n : nat) (l : list A) :
  take n l ++ drop (length (take n l)) l = l.
Proof.
  destruct (decide (n ≤ length l)).
  - rewrite length_take, Nat.min_l by done. apply take_drop.
  - rewrite take_ge by lia. rewrite drop_all. apply app_nil_r.
Qed.

(** The chunks the loop reads from [off] on: they make up the rest of the
    content, none is empty and none has more than 4096 bytes, and the
    loop feeds them to [update] one after the other. *)
Lemma read_loop_chunks (rounds : nat) (data : bytes) (off : nat) :
  off ≤ length data → length data - off < rounds →
  ∃ chunks : list bytes,
    concat chunks = drop off data
    ∧ Forall (fun chunk => 0 < length chunk ≤ 4096) chunks
    ∧ ∀ (H : Type) (update : H → bytes → H) (h : H),
        read_loop update rounds (Reader data off) h
        = Some (foldl update h chunks).
Proof.
  revert off. induction rounds as [|rounds IH]; intros off Hoff Hlt; [lia|].
  pose proof (take_drop_length chunk_size (drop off data)) as Hsplit.
  destruct (take chunk_size (drop off data)) as [|b chunk] eqn:E.
  - exists []. apply (f_equal length) in E. rewrite length_take in E.
    assert (0 < chunk_size)%nat as Hpos by (unfold chunk_size; lia).
    assert (drop off data = []) as Hnil
      by (destruct (drop off data); [done|simpl in E; lia]).
    split_and!; [done|done|]. intros H update h.
    cbn [read_loop read content pos]. by rewrite Hnil, take_nil.
  - assert (length (b :: chunk) ≤ chunk_size) as Hmax.
    { rewrite <- E, length_take. lia. }
    assert (length (b :: chunk) ≤ length data - off) as Hlen.
    { rewrite <- E, length_take, length_drop. lia. }
    destruct (IH (off + length (b :: chunk))) as (chunks & Hcat & Hall & Hrun);
      [cbn [length] in *; lia..|].
    exists ((b :: chunk) :: chunks). split_and!.
    + cbn [concat]. rewrite Hcat. by rewrite drop_drop in Hsplit.
    + constructor; [|done]. unfold chunk_size in Hmax.
      cbn [length] in *. lia.
    + intros H update h. cbn [read_loop read content pos]. rewrite E.
      cbn [foldl]. apply Hrun.
Qed.

Lemma update_concat (h : MD5.t) (chunks : list bytes) :
  foldl MD5.update h chunks = MD5.update h (concat chunks).
Proof.
  revert h. induction chunks as [|c chunks IH]; intros h; simpl.
  - unfold MD5.update. done.
  - by rewrite IH, update_app.
Qed.

Lemma read_loop_all (rounds : nat) (data : bytes) (off : nat) (h : MD5.t) :
  off ≤ length data → length data - off < rounds →
  read_loop MD5.update rounds (Reader data off) h
  = Some (MD5.update h (drop off data)).
Proof.
  intros Hoff Hlt.
  destruct (read_loop_chunks rounds data off Hoff Hlt)
    as (chunks & Hcat & _ & Hrun).
  by rewrite Hrun, update_concat, Hcat.
Qed.

(** What [hash_file] returns for a file that can be read. *)
Lemma hash_file_ok (file_path : string) (data : bytes) (st : state) :
  FS.open_rb (fs st) file_path = inr data →
  ∃ chunks : list bytes,
    concat chunks = data
    ∧ Forall (fun chunk => 0 < length chunk ≤ 4096) chunks
    ∧ ∀ (H : Type) (new : H) (update : H → bytes → H)
        (hexdigest : H → string),
        hash_file new update hexdigest file_path st
        = Ok (hexdigest (foldl update new chunks)) st.
Proof.
  intros Hopen.
  destruct (read_loop_chunks (S (length data)) data 0)
    as (chunks & Hcat & Hall & Hrun); [lia..|].
  exists chunks. rewrite drop_0 in Hcat. split_and!; [done..|].
  intros H new update hexdigest. unfold hash_file, bind, read_call.
  by rewrite Hopen, Hrun.
Qed.

Lemma calculate_md5_ok (file_path : string) (data : bytes) (st : state) :
  FS.open_rb (fs st) file_path = inr data →
  calculate_md5 file_path st = Ok (MD5.md5 data) st.
Proof.
  intros Hopen. unfold calculate_md5, hash_file, bind, read_call.
  rewrite Hopen. rewrite read_loop_all by (simpl; lia). by rewrite drop_0.
Qed.

Lemma calculate_md5_raise (file_path : string) (e : OSError) (st : state) :
  FS.open_rb (fs st) file_path = inl e →
  calculate_md5 file_path st = Raise e st.
Proof.
  intros Hopen. unfold calculate_md5, hash_file, bind, read_call.
  by rewrite Hopen.
Qed.

(* ===================================================================== *)
(** * Prefixes of component lists *)
(* ===================================================================== *)

Lemma prefix_app_cases {A} (k a b : list A) :
  k `prefix_of` a ++ b → k `prefix_of` a ∨ ∃ b', k = a ++ b' ∧ b' `prefix_of` b.
Proof.
  intros Hk.
  destruct (prefix_weak_total k a (a ++ b) Hk (prefix_app_r a a b (reflexivity a)))
    as [?|[b' ->]]; [by left|right].
  exists b'. split; [done|]. by eapply prefix_app_inv.
Qed.

Lemma disjoint_under (cs cr q q' : list string) :
  disjoint_roots cs cr → cs ++ q ≠ cr ++ q'.
Proof.
  intros [H1 H2] E.
  destruct (prefix_weak_total cs cr (cr ++ q')) as [?|?]; try done.
  - rewrite <- E. by apply prefix_app_r.
  - by apply prefix_app_r.
Qed.

Lemma disjoint_prefix (cs cr q p : list string) :
  disjoint_roots cs cr → cs `prefix_of` p → p `prefix_of` cr ++ q → False.
Proof.
  intros Hd [x ->] [y Hy].
  apply (disjoint_under cs cr (x ++ y) q Hd). by rewrite app_assoc.
Qed.

Lemma app_snoc_length_ne {A} (p q : list A) (n : A) : p ++ q ++ [n] ≠ p.
Proof.
  intros E. apply (f_equal length) in E. rewrite !length_app in E.
  simpl in E. lia.
Qed.

(* ===================================================================== *)
(** * Conditions on the two trees *)
(* ===================================================================== *)

Lemma fs_height_le (fs : filesystem) (k : list string) :
  is_Some (fs !! k) → length k ≤ fs_height fs.
Proof.
  intros [nd Hk]. apply max_list_elem_of_le, list_elem_of_fmap.
  exists k. split; [done|]. apply list_elem_of_fmap. exists (k, nd).
  split; [done|]. by apply elem_of_map_to_list.
Qed.

(* ===================================================================== *)
(** * The first loop: what it may change *)
(* ===================================================================== *)

Section PropagateChanges.

Context (source replica : string) (st0 : state).
Local Abbreviation cs := (Posix.components source).
Local Abbreviation cr := (Posix.components replica).
Local Abbreviation fs0 := (fs st0).

Local Abbreviation stale := (stale replica).
Local Abbreviation justified := (justified source replica st0).
Local Abbreviation change := (change source replica st0).
Local Abbreviation ExtBy := (ExtBy source replica st0).
Local Abbreviation Ext := (Ext source replica st0).
Local Abbreviation dir_done := (dir_done replica).
Local Abbreviation file_done := (file_done replica).
Local Abbreviation entry_done := (entry_done source replica st0).
Local Abbreviation subtree_done := (subtree_done source replica st0).
Local Abbreviation blame := (blame source replica st0).
Local Abbreviation in_step := (in_step source replica st0).

Hypothesis Hsrc : good_root source.
Hypothesis Hrep : good_root replica.
Hypothesis Hdisj : disjoint_roots cs cr.
Hypothesis Hwf0 : FS.wf fs0.

Lemma Ext_refl st : Ext st st.
Proof.
  exists []. split_and!; [|constructor|by left].
  unfold logged_since. by rewrite app_nil_r.
Qed.

Lemma Ext_none st st' p : Ext st st' → fs st' !! p = None → fs st !! p = None.
Proof.
  intros (evs & _ & _ & H) Hp.
  destruct (H p) as [E|[(_ & E & _)|(? & ? & _ & _ & _ & E & _)]]; congruence.
Qed.

Lemma Ext_some st st' p :
  Ext st st' → is_Some (fs st !! p) → is_Some (fs st' !! p).
Proof.
  intros HE [nd Hp]. destruct (fs st' !! p) eqn:E; [by eauto|].
  apply (Ext_none _ _ _ HE) in E. congruence.
Qed.

Lemma Ext_log st st' e : Ext st st' → e ∈ log st → e ∈ log st'.
Proof.
  intros (evs & -> & _) He. apply elem_of_app. by left.
Qed.

Lemma stale_back st st' q c :
  fs0 !! (cs ++ q) = Some (File c) →
  Ext st st' → stale st' q c → stale st q c.
Proof.
  intros Hc (evs & _ & _ & H) Hs. destruct (H (cr ++ q))
    as [E|[(_ & E & _)|(q2 & c2 & Hq & Hsrc2 & _ & E & Hst & _)]].
  - unfold stale in *. rewrite E in Hs. exact Hs.
  - destruct Hs as [Hs|(c0 & Hs & _)]; congruence.
  - apply app_inv_head in Hq as <-.
    destruct Hs as [Hs|(c0 & Hs & Hne)]; [congruence|].
    rewrite E in Hs. by simplify_eq.
Qed.

Lemma justified_back st st' e :
  Ext st st' → justified st' e → justified st e.
Proof.
  intros HE [(q & -> & Hq & Hn)|(q & c & -> & Hq & Hr & Hs)].
  - left. exists q. split_and!; [done..|]. by eapply Ext_none.
  - right. exists q, c. split_and!; [done..|]. by eapply stale_back.
Qed.

Lemma Ext_trans st1 st2 st3 : Ext st1 st2 → Ext st2 st3 → Ext st1 st3.
Proof.
  intros H12 H23.
  pose proof H12 as (e1 & L1 & J1 & C1). pose proof H23 as (e2 & L2 & J2 & C2).
  exists (e1 ++ e2). split_and!.
  - unfold logged_since in *. by rewrite L2, L1, app_assoc.
  - apply Forall_app. split; [done|].
    eapply Forall_impl; [exact J2|]. intros e. by apply justified_back.
  - intros p. pose proof (C1 p) as C12. pose proof (C2 p) as C23.
    destruct C23 as [E23|[(N2 & D3 & Hr & Hp)|(q & c & -> & Hq & Hr & F3 & S2 & L3)]].
    + destruct C12 as [E12|[(N1 & D2 & Hr & Hp)|(q & c & -> & Hq & Hr & F2 & S1 & L1')]].
      * left. congruence.
      * right. left. split_and!; try done. congruence.
      * right. right. exists q, c. split_and!; try done; [congruence|].
        apply elem_of_app. by left.
    + right. left. split_and!; try done. by eapply Ext_none.
    + right. right. exists q, c. split_and!; try done.
      * by eapply stale_back.
      * apply elem_of_app. by right.
Qed.

Lemma Ext_static st st' p :
  Ext st st' → cs `prefix_of` p → fs st' !! p = fs st !! p.
Proof.
  intros (evs & _ & _ & H) Hp.
  destruct (H p) as [E|[(_ & _ & _ & [Hpre|(q & -> & _)])|(q & c & -> & _)]];
    [done|exfalso..].
  - apply (disjoint_prefix cs cr [] p Hdisj Hp). by rewrite app_nil_r.
  - by apply (disjoint_prefix cs cr q (cr ++ q) Hdisj Hp).
  - by apply (disjoint_prefix cs cr q (cr ++ q) Hdisj Hp).
Qed.

Lemma dir_done_stable st st' q : dir_done st q → Ext st st' → dir_done st' q.
Proof. intros H HE. by eapply Ext_some. Qed.

Lemma file_done_stable st st' q c :
  fs0 !! (cs ++ q) = Some (File c) →
  file_done st q c → Ext st st' → file_done st' q c.
Proof.
  intros Hq (c' & Hc' & Hmd5) (evs & _ & _ & H).
  destruct (H (cr ++ q)) as [E|[(N & _)|(q2 & c2 & Hq2 & Hs2 & _ & F & _)]].
  - exists c'. by rewrite E.
  - congruence.
  - apply app_inv_head in Hq2 as <-. exists c2. split; [done|]. congruence.
Qed.

Lemma entry_done_stable st st' q :
  entry_done st q → Ext st st' → entry_done st' q.
Proof.
  unfold entry_done. destruct (fs0 !! (cs ++ q)) as [[c|]|] eqn:E; [| |done].
  - by apply file_done_stable.
  - apply dir_done_stable.
Qed.

Lemma subtree_done_stable st st' q :
  subtree_done q st → Ext st st' → subtree_done q st'.
Proof. intros H HE q' Hq'. eapply entry_done_stable; eauto. Qed.

(** ** Paths and entries of the source *)

Lemma src_valid q : is_Some (fs0 !! (cs ++ q)) → valid_names q.
Proof. intros H. by apply (wf_valid _ _ Hwf0), Forall_app in H as [_ ?]. Qed.

Lemma src_path q :
  valid_names q → Posix.components (walk_path source q) = cs ++ q.
Proof. by apply walk_path_components. Qed.

Lemma rep_path q :
  valid_names q → Posix.components (walk_path replica q) = cr ++ q.
Proof. by apply walk_path_components. Qed.

Lemma src_parent q n :
  is_Some (fs0 !! (cs ++ q ++ [n])) → fs0 !! (cs ++ q) = Some Dir.
Proof.
  intros H. rewrite app_assoc in H. by apply (wf_snoc _ _ _ Hwf0) in H as [? _].
Qed.

Lemma src_above q q' :
  is_Some (fs0 !! (cs ++ q')) → q `prefix_of` q' → q ≠ q' →
  fs0 !! (cs ++ q) = Some Dir.
Proof.
  intros H [r ->] Hne. rewrite app_assoc in H.
  apply (wf_prefix _ _ _ Hwf0) in H; [done|]. intros ->.
  by rewrite app_nil_r in Hne.
Qed.

Lemma src_root q : is_Some (fs0 !! (cs ++ q)) → fs0 !! cs = Some Dir
                                              ∨ q = [].
Proof.
  intros H. destruct q as [|n q]; [by right|left].
  rewrite <- (app_nil_r cs). apply (src_above [] (n :: q)); [done| |done].
  apply prefix_nil.
Qed.

(** ** Where the entries of a later state come from *)

Lemma file_origin st p c :
  Ext st0 st → fs st !! p = Some (File c) →
  fs0 !! p = Some (File c) ∨ ∃ q, p = cr ++ q ∧ fs0 !! (cs ++ q) = Some (File c).
Proof.
  intros (evs & _ & _ & H) Hp.
  destruct (H p) as [E|[(_ & E & _)|(q & c2 & -> & Hq & _ & E & _)]].
  - left. congruence.
  - congruence.
  - right. exists q. split; [done|]. congruence.
Qed.

Lemma dir_origin st p :
  Ext st0 st → fs st !! p = Some Dir →
  fs0 !! p = Some Dir
  ∨ p `prefix_of` cr ∨ ∃ q, p = cr ++ q ∧ fs0 !! (cs ++ q) = Some Dir.
Proof.
  intros (evs & _ & _ & H) Hp.
  destruct (H p) as [E|[(_ & _ & _ & E)|(q & c2 & -> & Hq & _ & E & _)]].
  - left. congruence.
  - by right.
  - congruence.
Qed.

(** A regular file of the replica in the way of an entry of the source is
    one the replica had from the start. *)
Lemma blame_file_above st q k c :
  Ext st0 st → is_Some (fs0 !! (cs ++ q)) → fs0 !! cs = Some Dir →
  k `prefix_of` cr ++ q → k ≠ cr ++ q → fs st !! k = Some (File c) →
  blame.
Proof.
  intros HE Hq Hroot Hpre Hne Hk. left. exists q, k, c.
  repeat split; try done.
  destruct (file_origin st k c HE Hk) as [?|(q2 & -> & Hq2)]; [done|].
  apply prefix_app_inv in Hpre.
  rewrite (src_above q2 q) in Hq2; [done..|]. congruence.
Qed.

(** ** One file of the source *)

Lemma spec_calculate_md5_ok (p : string) (data : bytes) st
    (Q : string → state → Prop) E T :
  FS.wf (fs st) → fs st !! Posix.components p = Some (File data) →
  Q (MD5.md5 data) st → spec (calculate_md5 p) st Q E T.
Proof.
  intros Hwf Hp HQ. unfold spec.
  by rewrite (calculate_md5_ok p data st) by by apply open_rb_file.
Qed.

Lemma spec_calculate_md5_dir (p : string) st
    (Q : string → state → Prop) (E : OSError → state → Prop) T :
  FS.wf (fs st) → fs st !! Posix.components p = Some Dir →
  E IsADirectoryError st → spec (calculate_md5 p) st Q E T.
Proof.
  intros Hwf Hp HE. unfold spec.
  by rewrite (calculate_md5_raise p IsADirectoryError st)
    by by apply open_rb_dir.
Qed.

(** The copy of the source file [q ++ [n]], and the line it logs. *)
Lemma spec_copy q n c st (T : Prop) :
  FS.wf (fs st) → Ext st0 st → dir_done st q →
  fs0 !! (cs ++ q ++ [n]) = Some (File c) →
  stale st (q ++ [n]) c →
  spec (write_call (fun fs => FS.copy2 fs (walk_path source (q ++ [n]))
                                (walk_path replica (q ++ [n]))) ;;;
        logger_info (Copied_file (walk_path source (q ++ [n]))
                       (walk_path replica (q ++ [n])))) st
    (fun _ st' => (FS.wf (fs st') ∧ Ext st0 st' ∧ dir_done st' q)
                  ∧ Ext st st' ∧ file_done st' (q ++ [n]) c)
    (fun _ st' => Ext st st' ∧ FS.wf (fs st') ∧ blame) T.
Proof.
  intros Hwf HE Hdir Hq Hstale.
  assert (valid_names (q ++ [n])) as Hv by (apply src_valid; by eauto).
  assert (Posix.valid_name n = true) as Hn.
  { pose proof Hv as [_ Hn]%Forall_app. by inversion Hn. }
  assert (fs st !! (cs ++ q ++ [n]) = Some (File c)) as Hsrc'.
  { rewrite (Ext_static st0 st) by (done || by apply prefix_app_r). done. }
  assert (fs0 !! cs = Some Dir) as Hroot.
  { destruct (src_root (q ++ [n])) as [?|E]; [by eauto|done|].
    by destruct q. }
  apply spec_bind.
  destruct (fs st !! (cr ++ q)) as [[c'|]|] eqn:Hpar;
    [|clear Hdir|destruct Hdir; congruence].
  - (* the directory of the replica is a regular file *)
    destruct (copy2_fail (fs st) (walk_path source (q ++ [n]))
                (walk_path replica (q ++ [n])) (cr ++ q) n c)
      as [e He]; try done.
    + by rewrite src_path.
    + rewrite rep_path by done. by rewrite app_assoc.
    + congruence.
    + eapply spec_write_fail; [exact He|].
      split; [apply Ext_refl|]. split; [done|].
      apply (blame_file_above st (q ++ [n]) (cr ++ q) c'); try done.
      * by apply prefix_app, prefix_app_r.
      * rewrite app_assoc. apply not_eq_sym, (app_snoc_length_ne (cr ++ q) []).
  - assert (fs st !! ((cr ++ q) ++ [n]) ≠ Some Dir) as Hnd.
    { rewrite <- app_assoc.
      destruct Hstale as [->|(c0 & -> & _)]; done. }
    eapply spec_write_ok.
    { apply copy2_ok with (p := cr ++ q) (n := n) (data := c); try done.
      - by rewrite src_path.
      - rewrite rep_path by done. by rewrite app_assoc.
      - rewrite src_path, rep_path by done. by apply disjoint_under. }
    apply spec_logger_info. simpl.
    set (st' := State _ _).
    assert (Ext st st') as HE'.
    { eexists [_]. split_and!; [done| |].
      - constructor; [|constructor]. right. by exists (q ++ [n]), c.
      - intros p. destruct (decide ((cr ++ q) ++ [n] = p)) as [<-|Hne].
        + right. right. exists (q ++ [n]), c. simpl.
          rewrite lookup_insert_eq. split_and!; try done.
          * by rewrite app_assoc.
          * by left.
        + left. simpl. by rewrite lookup_insert_ne. }
    split_and!; try done.
    + simpl. by apply wf_insert_file.
    + by eapply Ext_trans.
    + unfold dir_done. simpl. rewrite lookup_insert_ne; [by eauto|].
      exact (app_snoc_length_ne (cr ++ q) [] n).
    + exists c. simpl. rewrite app_assoc, lookup_insert_eq. done.
Qed.

Lemma sync_file_spec q n c st (T : Prop) :
  FS.wf (fs st) → Ext st0 st → dir_done st q →
  fs0 !! (cs ++ q ++ [n]) = Some (File c) →
  spec (sync_file (walk_path source q) (walk_path replica q) n) st
    (fun _ st' => (FS.wf (fs st') ∧ Ext st0 st' ∧ dir_done st' q)
                  ∧ Ext st st' ∧ file_done st' (q ++ [n]) c)
    (fun _ st' => Ext st st' ∧ FS.wf (fs st') ∧ blame) T.
Proof.
  intros Hwf HE Hdir Hq.
  assert (valid_names (q ++ [n])) as Hv by (apply src_valid; by eauto).
  assert (fs st !! (cs ++ q ++ [n]) = Some (File c)) as Hsrc'.
  { rewrite (Ext_static st0 st) by (done || by apply prefix_app_r). done. }
  unfold sync_file. rewrite <- !walk_path_snoc.
  apply spec_bind, spec_query. apply spec_bind.
  destruct (FS.exists_ (fs st) (walk_path replica (q ++ [n]))) eqn:Hex; simpl.
  - apply exists_some in Hex as [nd Hnd]; [|done]. rewrite rep_path in Hnd by done.
    apply spec_bind. eapply spec_calculate_md5_ok; [done|by rewrite src_path|].
    apply spec_bind. destruct nd as [c'|].
    + eapply spec_calculate_md5_ok; [done|by rewrite rep_path|].
      apply spec_ret. case_bool_decide as Hmd5; simpl.
      * apply spec_ret. split_and!; try done; [apply Ext_refl|].
        exists c'. by rewrite app_assoc in Hnd |- *.
      * apply spec_copy; try done. right. exists c'. split; [done|congruence].
    + eapply spec_calculate_md5_dir; [done|by rewrite rep_path|].
      split; [apply Ext_refl|]. split; [done|].
      destruct (dir_origin st _ HE Hnd) as [H0|[Hpre|(q2 & E & Hq2)]].
      * right. exists (q ++ [n]), c. split_and!; try done.
        destruct (src_root (q ++ [n])) as [?|E]; [by eauto|done|].
        by destruct q.
      * apply prefix_length in Hpre. rewrite !length_app in Hpre.
        simpl in Hpre. lia.
      * apply app_inv_head in E as <-. congruence.
  - apply exists_none in Hex; [|done]. rewrite rep_path in Hex by done.
    apply spec_ret. apply spec_copy; try done. by left.
Qed.

(** ** One directory of the source *)

Lemma sync_dir_spec q dirs files st (T : Prop) :
  FS.wf (fs st) → Ext st0 st → fs0 !! (cs ++ q) = Some Dir →
  (∀ n, n ∈ files → ∃ c, fs0 !! (cs ++ q ++ [n]) = Some (File c)) →
  spec (sync_dir source replica (walk_path source q) dirs files) st
    (fun _ st' => FS.wf (fs st') ∧ Ext st st' ∧ dir_done st' q
                  ∧ ∀ n, n ∈ files → entry_done st' (q ++ [n]))
    (fun _ st' => Ext st st' ∧ FS.wf (fs st') ∧ blame) T.
Proof.
  intros Hwf HE Hq Hfiles.
  assert (valid_names q) as Hv by (apply src_valid; by eauto).
  assert (fs0 !! cs = Some Dir) as Hroot.
  { destruct (src_root q) as [?| ->]; [by eauto|done|].
    by rewrite app_nil_r in Hq. }
  unfold sync_dir. rewrite walk_path_mirror by done.
  apply spec_bind, spec_query. apply spec_bind.
  assert (spec
    (if negb (FS.exists_ (fs st) (walk_path replica q))
     then write_call (fun fs => FS.makedirs fs (walk_path replica q)) ;;;
          logger_info (Created_directory (walk_path replica q))
     else ret tt) st
    (fun _ s => (FS.wf (fs s) ∧ Ext st0 s ∧ dir_done s q) ∧ Ext st s)
    (fun _ s => Ext st s ∧ FS.wf (fs s) ∧ blame) T) as Hstep.
  { destruct (FS.exists_ (fs st) (walk_path replica q)) eqn:Hex; simpl.
    - apply spec_ret. apply exists_some in Hex; [|done].
      rewrite rep_path in Hex by done. split_and!; try done. apply Ext_refl.
    - apply exists_none in Hex; [|done].
      pose proof (makedirs_spec (fs st) (walk_path replica q) Hwf Hex) as Hm.
      rewrite !rep_path in * by done. apply spec_bind.
      destruct (FS.makedirs (fs st) (walk_path replica q)) as [e|fs'] eqn:Em.
      + destruct Hm as (k & c & Hpre & Hk).
        eapply spec_write_fail; [done|]. split; [apply Ext_refl|].
        split; [done|].
        apply (blame_file_above st q k c);
          [done|by eauto|done|done|congruence|done].
      + destruct Hm as [Hwf' Hm]. eapply spec_write_ok; [done|].
        apply spec_logger_info.
        set (st' := State _ _).
        assert (Ext st st') as HE'.
        { eexists [_]. split_and!; [done| |].
          - constructor; [|constructor]. left. by exists q.
          - intros p. unfold change, st'. simpl. rewrite Hm. unfold made.
            destruct (fs st !! p) eqn:Ep; [by left|].
            case_bool_decide as Hpre; [|by left].
            right. left. split_and!; try done.
            destruct (prefix_app_cases _ _ _ Hpre) as [?|(q2 & -> & Hq2)];
              [by left|right].
            exists q2. split; [done|].
            destruct (decide (q2 = q)) as [->|Hne]; [done|].
            apply (src_above q2 q); by eauto. }
        split_and!; try done.
        * by eapply Ext_trans.
        * unfold dir_done, st'. simpl. rewrite Hm. unfold made. rewrite Hex.
          by rewrite bool_decide_eq_true_2. }
  eapply spec_mono; [exact Hstep| |done..].
  intros [] s1 ((Hwf1 & HE1 & Hd1) & HR1). simpl.
  eapply spec_mono.
  - apply (spec_for_each files _
             (fun s => FS.wf (fs s) ∧ Ext st0 s ∧ dir_done s q) Ext
             (fun n s => entry_done s (q ++ [n]))
             (fun s => FS.wf (fs s) ∧ blame) T s1).
    + apply Ext_refl.
    + apply Ext_trans.
    + intros ???. apply entry_done_stable.
    + intros n s Hn (Hwfs & HEs & Hds).
      destruct (Hfiles n Hn) as [c Hc].
      eapply spec_mono; [by apply (sync_file_spec q n c)| |done..].
      intros [] s' ((? & ? & ?) & HR & HD). simpl. split_and!; try done.
      unfold entry_done. by rewrite Hc.
    + done.
  - intros [] s2 ((Hwf2 & HE2 & Hd2) & HR2 & HD). simpl.
    split_and!; try done; [by eapply Ext_trans|].
    intros n Hn. by eapply Forall_forall in HD.
  - intros e s2 (HR2 & HB). simpl. split; [by eapply Ext_trans|done].
  - done.
Qed.

(** ** The walk of the source *)

Lemma propagate_walk fuel q st :
  FS.wf (fs st) → Ext st0 st → fs0 !! (cs ++ q) = Some Dir →
  spec (os_walk fuel true (walk_path source q) (sync_dir source replica)) st
    (fun _ st' => FS.wf (fs st') ∧ Ext st st' ∧ subtree_done q st')
    (fun _ st' => Ext st st' ∧ FS.wf (fs st') ∧ blame)
    (¬ ∀ q', is_Some (fs0 !! (cs ++ q ++ q')) → length q' < fuel).
Proof.
  revert q st. induction fuel as [|fuel IH]; intros q st Hwf HE Hq.
  { unfold spec. simpl. intros H. specialize (H []).
    rewrite app_nil_r, Hq in H. simpl in H. by apply Nat.lt_irrefl with 0, H. }
  assert (valid_names q) as Hv by (apply src_valid; by eauto).
  cbn [os_walk]. apply spec_bind, spec_query.
  destruct (scandir_spec (fs st) (walk_path source q) Hwf)
    as (dirs & files & -> & Hdirs & Hfiles & _).
  { rewrite src_path by done.
    rewrite (Ext_static st0 st) by (done || by apply prefix_app_r). done. }
  rewrite src_path in Hdirs, Hfiles by done.
  assert (∀ p, fs st !! (cs ++ p) = fs0 !! (cs ++ p)) as Hstatic.
  { intros p. apply (Ext_static st0 st); [done|by apply prefix_app_r]. }
  setoid_rewrite <- app_assoc in Hdirs. setoid_rewrite <- app_assoc in Hfiles.
  setoid_rewrite Hstatic in Hdirs. setoid_rewrite Hstatic in Hfiles.
  apply spec_bind.
  eapply spec_mono; [apply (sync_dir_spec q dirs files st); try done| | |].
  - intros n Hn. by apply Hfiles.
  - intros [] s1 (Hwf1 & HE1 & Hd1 & Hf1). simpl.
    eapply spec_mono.
    + apply (spec_for_each dirs _
               (fun s => FS.wf (fs s) ∧ Ext st0 s) Ext
               (fun d s => subtree_done (q ++ [d]) s)
               (fun s => FS.wf (fs s) ∧ blame)
               (¬ ∀ q', is_Some (fs0 !! (cs ++ q ++ q'))
                        → length q' < S fuel) s1).
      * apply Ext_refl.
      * apply Ext_trans.
      * intros ???. apply subtree_done_stable.
      * intros d s Hd (Hwfs & HEs). rewrite <- walk_path_snoc.
        eapply spec_mono; [apply (IH (q ++ [d]) s); try done| | |].
        -- by apply Hdirs.
        -- intros [] s' (? & ? & ?). split_and!; try done.
           by eapply Ext_trans.
        -- done.
        -- intros HT H. apply HT. intros q' Hq'.
           rewrite <- app_assoc in Hq'. apply H in Hq'. simpl in Hq'. lia.
      * split; [done|]. by eapply Ext_trans.
    + intros [] s2 ((Hwf2 & HE2) & HR2 & HD). simpl.
      split_and!; try done; [by eapply Ext_trans|].
      intros q' [r ->]. destruct r as [|n r].
      { rewrite app_nil_r. unfold entry_done. rewrite Hq.
        by eapply dir_done_stable. }
      destruct (fs0 !! (cs ++ q ++ [n])) as [[c|]|] eqn:En.
      * destruct r as [|n' r].
        -- eapply entry_done_stable; [|done]. apply Hf1, Hfiles. by eauto.
        -- unfold entry_done.
           replace (cs ++ q ++ n :: n' :: r)
             with ((cs ++ q ++ [n]) ++ n' :: r)
             by by rewrite <- !app_assoc.
           by rewrite (wf_below_file _ _ _ c Hwf0).
      * apply Hdirs in En. eapply Forall_forall in HD; [|done].
        apply HD. by apply prefix_app, prefix_cons, prefix_nil.
      * unfold entry_done.
        replace (cs ++ q ++ n :: r) with ((cs ++ q ++ [n]) ++ r)
          by by rewrite <- !app_assoc.
        by rewrite (wf_below_none _ _ _ Hwf0).
    + intros e s2 (HR2 & HB). simpl. split; [by eapply Ext_trans|done].
    + exact (fun H => H).
  - done.
  - done.
Qed.

(** ** The whole first loop *)

Lemma propagate_spec fuel :
  spec (propagate fuel source replica) st0
    (fun _ st' => FS.wf (fs st') ∧ Ext st0 st'
                  ∧ (fs0 !! cs = Some Dir → subtree_done [] st'))
    (fun _ st' => Ext st0 st' ∧ FS.wf (fs st') ∧ blame)
    (¬ fs_height fs0 < fuel).
Proof.
  unfold propagate.
  destruct (fs0 !! cs) as [[c|]|] eqn:Hroot.
  2: { change source with (walk_path source []) at 1.
    eapply spec_mono; [apply (propagate_walk fuel [] st0)| | |].
    + done.
    + apply Ext_refl.
    + by rewrite app_nil_r.
    + intros [] st' (? & ? & ?). done.
    + done.
    + intros H Hfuel. apply H. intros q' Hq'. simpl in Hq'.
      apply fs_height_le in Hq'. rewrite length_app in Hq'. lia. }
  all: destruct fuel as [|fuel]; [unfold spec; simpl; lia|].
  all: cbn [os_walk]; apply spec_bind, spec_query.
  all: destruct (scandir_fail fs0 source Hwf0) as [e ->]; [congruence|].
  all: apply spec_ret; split_and!; [done|apply Ext_refl|done].
Qed.

(** ** What a run without conflict leaves *)

Lemma blame_conflict : blame → ¬ no_conflict fs0 cs cr.
Proof.
  intros [(q & k & c & Hq & Hroot & Hpre & Hne & Hk)|(q & c & Hq & Hroot & Hr)]
    [NC1 NC2].
  - destruct (prefix_app_cases _ _ _ Hpre) as [?|(q2 & -> & Hq2)].
    + by eapply NC1.
    + assert (fs0 !! (cs ++ q2) = Some Dir) as Hs.
      { apply (src_above q2 q); [done..|]. congruence. }
      by specialize (NC2 _ _ _ Hs Hk).
  - by specialize (NC2 _ _ _ Hq Hr).
Qed.

Lemma done_dir_kind st q :
  no_conflict fs0 cs cr → Ext st0 st → fs0 !! (cs ++ q) = Some Dir →
  dir_done st q → fs st !! (cr ++ q) = Some Dir.
Proof.
  intros [_ NC2] HE Hq [[c|] Hd]; [|done].
  destruct (file_origin st _ c HE Hd) as [H0|(q2 & E & Hq2)].
  - by specialize (NC2 _ _ _ Hq H0).
  - apply app_inv_head in E as <-. congruence.
Qed.

Lemma done_file_content st q c :
  collision_free fs0 cs cr → Ext st0 st → fs0 !! (cs ++ q) = Some (File c) →
  file_done st q c → fs st !! (cr ++ q) = Some (File c).
Proof.
  intros CF HE Hq (c' & Hc' & Hmd5).
  destruct (file_origin st _ c' HE Hc') as [H0|(q2 & E & Hq2)].
  - by rewrite (CF _ _ _ Hq H0 Hmd5) in Hc'.
  - apply app_inv_head in E as <-. congruence.
Qed.

(** A stale or missing file has been copied, and the copy logged. *)
Lemma done_file_copied evs st q c :
  ExtBy evs st0 st → fs0 !! (cs ++ q) = Some (File c) → stale st0 q c →
  file_done st q c →
  fs st !! (cr ++ q) = Some (File c)
  ∧ Copied_file (walk_path source q) (walk_path replica q) ∈ evs.
Proof.
  intros (_ & _ & H) Hq Hstale (c' & Hc' & Hmd5).
  destruct (H (cr ++ q))
    as [E|[(_ & E & _)|(q2 & c2 & E & Hq2 & _ & F & _ & L)]].
  - rewrite E in Hc'. destruct Hstale as [?|(c0 & ? & ?)]; congruence.
  - congruence.
  - apply app_inv_head in E as <-. split; congruence.
Qed.

(** The first loop adds nothing deeper below the replica root than the
    file system already is. *)
Lemma Ext_depth st r :
  Ext st0 st → is_Some (fs st !! (cr ++ r)) → length r ≤ fs_height fs0.
Proof.
  intros (evs & _ & _ & H) Hr.
  destruct (H (cr ++ r))
    as [E|[(_ & _ & _ & [Hpre|(q & E & Hq)])|(q & c & E & Hq & _)]].
  - rewrite E in Hr. apply fs_height_le in Hr. rewrite length_app in Hr. lia.
  - apply prefix_length in Hpre. rewrite length_app in Hpre. lia.
  - apply app_inv_head in E as <-.
    pose proof (fs_height_le fs0 _ (mk_is_Some _ _ Hq)) as Hh.
    rewrite length_app in Hh. lia.
  - apply app_inv_head in E as <-.
    pose proof (fs_height_le fs0 _ (mk_is_Some _ _ Hq)) as Hh.
    rewrite length_app in Hh. lia.
Qed.

(** ** A replica that is already in step *)

Lemma in_step_entry q :
  in_step → is_Some (fs0 !! (cs ++ q)) → fs0 !! cs = Some Dir →
  entry_done st0 q.
Proof. intros H _ Hroot. apply (H Hroot). apply prefix_nil. Qed.

Lemma blame_in_step : blame → ¬ in_step.
Proof.
  intros [(q & k & c & Hq & Hroot & Hpre & Hne & Hk)|(q & c & Hq & Hroot & Hr)]
    Hin.
  - pose proof (in_step_entry q Hin Hq Hroot) as Hd.
    assert (is_Some (fs0 !! (cr ++ q))) as Hsome.
    { unfold entry_done in Hd. destruct Hq as [[c'|] Hq]; rewrite Hq in Hd;
        [by destruct Hd as (? & -> & _)|done]. }
    destruct Hpre as [r Hr]. rewrite Hr in Hsome, Hne.
    rewrite (wf_prefix fs0 k r) in Hk; try done.
    intros ->. by rewrite app_nil_r in Hne.
  - pose proof (in_step_entry q Hin (mk_is_Some _ _ Hq) Hroot) as Hd.
    unfold entry_done in Hd. rewrite Hq in Hd.
    destruct Hd as (? & ? & _). congruence.
Qed.

Lemma in_step_unchanged evs st :
  in_step → ExtBy evs st0 st → evs = [] ∧ fs st = fs0.
Proof.
  intros Hin (HL & HJ & HC).
  assert (∀ q c, fs0 !! (cs ++ q) = Some (File c) → fs0 !! cs = Some Dir →
                 ¬ stale st0 q c) as Hfresh.
  { intros q c Hq Hroot Hs.
    pose proof (in_step_entry q Hin (mk_is_Some _ _ Hq) Hroot) as Hd.
    unfold entry_done in Hd. rewrite Hq in Hd. destruct Hd as (c' & Hc' & ?).
    destruct Hs as [?|(c0 & ? & ?)]; congruence. }
  assert (∀ q, fs0 !! (cs ++ q) = Some Dir → fs0 !! cs = Some Dir →
               is_Some (fs0 !! (cr ++ q))) as Hdirs.
  { intros q Hq Hroot.
    pose proof (in_step_entry q Hin (mk_is_Some _ _ Hq) Hroot) as Hd.
    unfold entry_done in Hd. by rewrite Hq in Hd. }
  split.
  - destruct evs as [|e evs]; [done|]. exfalso.
    inversion_clear HJ as [|?? [(q & _ & Hq & Hn)|(q & c & _ & Hq & Hr & Hs)] _].
    + destruct (Hdirs q Hq) as [? ?]; [|congruence].
      destruct (src_root q) as [?| ->]; [by eauto|done|].
      by rewrite app_nil_r in Hq.
    + by eapply Hfresh.
  - apply map_eq. intros p.
    destruct (HC p) as [E|[(N & _ & Hroot & [Hpre|(q & -> & Hq)])|
                           (q & c & -> & Hq & Hroot & _ & Hs & _)]];
      [done|exfalso..].
    + destruct (Hdirs [] ) as [nd Hnd]; [by rewrite app_nil_r|done|].
      rewrite app_nil_r in Hnd.
      destruct (wf_prefix_some fs0 p cr Hwf0) as [? ?]; [by eauto|done|].
      congruence.
    + destruct (Hdirs q Hq Hroot) as [? ?]. congruence.
    + by eapply Hfresh.
Qed.

End PropagateChanges.

(* ===================================================================== *)
(** * The second loop: what it may change *)
(* ===================================================================== *)

Section PruneChanges.

Context (source replica : string) (st0 : state).
Local Abbreviation cs := (Posix.components source).
Local Abbreviation cr := (Posix.components replica).
Local Abbreviation fs0 := (fs st0).

Local Abbreviation orphan := (orphan source replica st0).
Local Abbreviation removal := (removal source replica st0).
Local Abbreviation ShrinkBy := (ShrinkBy source replica st0).
Local Abbreviation Shrink := (Shrink source replica st0).
Local Abbreviation pruned := (pruned source replica st0).

Hypothesis Hsrc : good_root source.
Hypothesis Hrep : good_root replica.
Hypothesis Hdisj : disjoint_roots cs cr.
Hypothesis Hwf0 : FS.wf fs0.

Lemma Shrink_refl frame st : Shrink frame st st.
Proof.
  exists []. split_and!; [|constructor|by left].
  unfold logged_since. by rewrite app_nil_r.
Qed.

Lemma Shrink_keep frame st st' p nd :
  Shrink frame st st' → fs st' !! p = Some nd → fs st !! p = Some nd.
Proof.
  intros (evs & _ & _ & H) Hp. destruct (H p) as [E|[E _]]; congruence.
Qed.

Lemma Shrink_dir frame st st' p :
  Shrink frame st st' → fs st !! p = Some Dir → fs st' !! p = Some Dir.
Proof.
  intros (evs & _ & _ & H) Hp.
  destruct (H p) as [E|(_ & _ & q & -> & _ & [c Hc] & _)]; congruence.
Qed.

Lemma Shrink_outside frame st st' p :
  Shrink frame st st' → ¬ frame p → fs st' !! p = fs st !! p.
Proof. intros (evs & _ & _ & H) Hp. by destruct (H p) as [E|(_ & ? & _)]. Qed.

Lemma Shrink_weaken (frame frame' : list string → Prop) st st' :
  (∀ p, frame p → frame' p) → Shrink frame st st' → Shrink frame' st st'.
Proof.
  intros Hf (evs & HL & HJ & H). exists evs. split_and!; [done..|].
  intros p. destruct (H p) as [E|(? & ? & ?)]; [by left|right]. eauto.
Qed.

Lemma orphan_back frame st st' q :
  Shrink frame st st' → orphan st' q → orphan st q.
Proof.
  intros HS (Hne & [c Hc] & Hn). split_and!; [done| |done].
  exists c. by eapply Shrink_keep.
Qed.

Lemma Shrink_trans frame st1 st2 st3 :
  Shrink frame st1 st2 → Shrink frame st2 st3 → Shrink frame st1 st3.
Proof.
  intros H12 H23.
  pose proof H12 as (e1 & L1 & J1 & C1). pose proof H23 as (e2 & L2 & J2 & C2).
  exists (e1 ++ e2). split_and!.
  - unfold logged_since in *. by rewrite L2, L1, app_assoc.
  - apply Forall_app. split; [done|].
    eapply Forall_impl; [exact J2|]. intros e (q & -> & Ho).
    exists q. split; [done|]. by eapply orphan_back.
  - intros p. destruct (C2 p) as [E2|(N & Hf & q & -> & Ho)].
    + destruct (C1 p) as [E1|(N & Hf & Ho)]; [left; congruence|right].
      split_and!; [congruence|done..].
    + right. split_and!; [done..|]. exists q. split; [done|].
      by eapply orphan_back.
Qed.

Lemma below_root (q r : list string) : q ++ r ≠ [] → below cr (cr ++ q ++ r).
Proof. intros H. by exists (q ++ r). Qed.

Lemma Shrink_static st p :
  Shrink (below cr) st0 st → cs `prefix_of` p → fs st !! p = fs0 !! p.
Proof.
  intros HS Hp. eapply Shrink_outside; [done|]. intros (r & _ & ->).
  by apply (disjoint_prefix cs cr r (cr ++ r) Hdisj Hp).
Qed.

Lemma pruned_stable frame st st' q :
  pruned q st → Shrink frame st st' → pruned q st'.
Proof. intros H HS r c Hr Hc. eapply H; [done|]. by eapply Shrink_keep. Qed.

(** ** One file of the replica *)

Lemma prune_file_spec q n c st (T : Prop) :
  FS.wf (fs st) → Shrink (below cr) st0 st →
  fs st !! (cr ++ q ++ [n]) = Some (File c) →
  spec (prune_file source replica (walk_path replica q) n) st
    (fun _ st' => FS.wf (fs st')
       ∧ Shrink (fun p => p = cr ++ q ++ [n]) st st'
       ∧ ∀ c', fs st' !! (cr ++ q ++ [n]) = Some (File c') →
               is_Some (fs0 !! (cs ++ q ++ [n])))
    (fun _ _ => False) T.
Proof.
  intros Hwf HS Hn.
  assert (valid_names (q ++ [n])) as Hv.
  { pose proof (wf_valid _ _ Hwf (mk_is_Some _ _ Hn)) as H.
    by apply Forall_app in H as [_ ?]. }
  unfold prune_file. rewrite <- walk_path_snoc.
  rewrite walk_path_mirror by done.
  apply spec_bind, spec_query.
  destruct (FS.exists_ (fs st) (walk_path source (q ++ [n]))) eqn:Hex; simpl.
  - apply spec_ret. apply exists_some in Hex; [|done].
    rewrite walk_path_components in Hex by done.
    rewrite (Shrink_static st) in Hex by (done || by apply prefix_app_r).
    split_and!; [done|apply Shrink_refl|done].
  - apply exists_none in Hex; [|done].
    rewrite walk_path_components in Hex by done.
    rewrite (Shrink_static st) in Hex by (done || by apply prefix_app_r).
    apply spec_bind. eapply spec_write_ok.
    { apply remove_file with (data := c); [done|].
      by rewrite walk_path_components. }
    apply spec_logger_info. rewrite walk_path_components by done.
    assert (orphan st (q ++ [n])) as Ho.
    { split_and!; [by destruct q|by eauto|done]. }
    split_and!.
    + simpl. by eapply wf_delete_file.
    + eexists [_]. split_and!; [done| |].
      * constructor; [|constructor]. by exists (q ++ [n]).
      * intros p. simpl. destruct (decide (cr ++ q ++ [n] = p)) as [<-|Hne].
        -- right. rewrite lookup_delete_eq. split_and!; [done..|].
           by exists (q ++ [n]).
        -- left. by rewrite lookup_delete_ne.
    + simpl. intros c'. by rewrite lookup_delete_eq.
Qed.

(** ** The files of one directory of the replica *)

Lemma prune_dir_spec q dirs files st (T : Prop) :
  NoDup files → FS.wf (fs st) → Shrink (below cr) st0 st →
  (∀ n, n ∈ files → ∃ c, fs st !! (cr ++ q ++ [n]) = Some (File c)) →
  spec (prune_dir source replica (walk_path replica q) dirs files) st
    (fun _ st' => FS.wf (fs st')
       ∧ Shrink (fun p => ∃ n, n ∈ files ∧ p = cr ++ q ++ [n]) st st'
       ∧ ∀ n c', n ∈ files → fs st' !! (cr ++ q ++ [n]) = Some (File c') →
                 is_Some (fs0 !! (cs ++ q ++ [n])))
    (fun _ _ => False) T.
Proof.
  unfold prune_dir. intros Hnd. revert st.
  induction Hnd as [|n files Hn Hnd IH]; intros st Hwf HS Hfiles; simpl.
  - apply spec_ret. split_and!; [done|apply Shrink_refl|].
    intros n c' Hn. by apply elem_of_nil in Hn.
  - apply spec_bind. destruct (Hfiles n) as [c Hc]; [by left|].
    eapply spec_mono; [by apply (prune_file_spec q n c)| |done..].
    intros [] s1 (Hwf1 & HS1 & Hpost1). simpl.
    assert (Shrink (below cr) st0 s1) as HS01.
    { eapply Shrink_trans; [done|]. eapply Shrink_weaken; [|done].
      intros p ->. apply below_root. by destruct q. }
    eapply spec_mono; [apply (IH s1)| |done..]; try done.
    + intros m Hm. rewrite (Shrink_outside _ st s1 _ HS1).
      * apply Hfiles. by right.
      * intros E. apply app_inv_head, app_inv_head in E. set_solver.
    + intros [] s2 (Hwf2 & HS2 & Hpost2). simpl. split_and!; [done| |].
      * eapply Shrink_trans; (eapply Shrink_weaken; [|done]).
        -- intros p ->. exists n. split; [by left|done].
        -- intros p (m & Hm & ->). exists m. split; [by right|done].
      * intros m c' [->|Hm]%elem_of_cons Hc'; [|by eauto].
        eapply Hpost1. by eapply Shrink_keep.
Qed.

(** ** The walk of the replica *)

Lemma prune_walk fuel q st :
  FS.wf (fs st) → Shrink (below cr) st0 st → fs st !! (cr ++ q) = Some Dir →
  spec (os_walk fuel false (walk_path replica q) (prune_dir source replica)) st
    (fun _ st' => FS.wf (fs st') ∧ Shrink (below (cr ++ q)) st st'
                  ∧ pruned q st')
    (fun _ _ => False)
    (¬ ∀ r, is_Some (fs0 !! (cr ++ q ++ r)) → length r < fuel).
Proof.
  revert q st. induction fuel as [|fuel IH]; intros q st Hwf HS Hq.
  { unfold spec. simpl. intros H. specialize (H []).
    rewrite app_nil_r in H. apply (Shrink_keep _ _ _ _ _ HS) in Hq.
    rewrite Hq in H. simpl in H. by apply Nat.lt_irrefl with 0, H. }
  assert (valid_names q) as Hv.
  { pose proof (wf_valid _ _ Hwf (mk_is_Some _ _ Hq)) as H.
    by apply Forall_app in H as [_ ?]. }
  cbn [os_walk]. apply spec_bind, spec_query.
  destruct (scandir_spec (fs st) (walk_path replica q) Hwf)
    as (dirs & files & -> & Hdirs & Hfiles & Hnd).
  { by rewrite walk_path_components. }
  rewrite walk_path_components in Hdirs, Hfiles by done.
  setoid_rewrite <- app_assoc in Hdirs. setoid_rewrite <- app_assoc in Hfiles.
  set (inner := fun p => ∃ d r, d ∈ dirs ∧ r ≠ [] ∧ p = cr ++ q ++ d :: r).
  apply spec_bind. eapply spec_mono.
  - apply (spec_for_each dirs _
             (fun s => FS.wf (fs s) ∧ Shrink (below cr) st0 s
                       ∧ Shrink inner st s)
             (Shrink (below cr))
             (fun d s => pruned (q ++ [d]) s) (fun _ => False)
             (¬ ∀ r, is_Some (fs0 !! (cr ++ q ++ r)) → length r < S fuel) st).
    + apply Shrink_refl.
    + apply Shrink_trans.
    + intros ???. apply pruned_stable.
    + intros d s Hd (Hwfs & HSs & HSi). rewrite <- walk_path_snoc.
      eapply spec_mono; [apply (IH (q ++ [d]) s); try done| | |].
      * apply (Shrink_dir _ st s _ HSi). by apply Hdirs.
      * intros [] s' (Hwf' & HS' & Hp'). simpl.
        assert (Shrink inner s s') as Hin.
        { eapply Shrink_weaken; [|exact HS']. intros p (r & Hr & ->).
          exists d, r. split; [done|]. split; [done|].
          by rewrite <- !app_assoc. }
        assert (Shrink (below cr) s s') as Hb.
        { eapply Shrink_weaken; [|exact HS']. intros p (r & Hr & ->).
          rewrite <- !app_assoc. apply below_root. by destruct q. }
        split_and!; try done; by eapply Shrink_trans.
      * done.
      * intros HT H. apply HT. intros r Hr.
        rewrite <- !app_assoc in Hr. apply H in Hr. simpl in Hr. lia.
    + split_and!; [done..|apply Shrink_refl].
  - intros [] s1 ((Hwf1 & HS1 & HSi) & _ & HD). simpl.
    eapply spec_mono; [apply (prune_dir_spec q dirs files s1); try done| |done..].
    + intros n Hn. rewrite (Shrink_outside _ st s1 _ HSi); [by apply Hfiles|].
      intros (d & r & _ & Hr & E). apply app_inv_head, app_inv_head in E.
      destruct r; simplify_eq.
    + intros [] s2 (Hwf2 & HS2 & Hpost). simpl. split_and!; [done| |].
      * eapply Shrink_trans; (eapply Shrink_weaken; [|done]).
        -- intros p (d & r & _ & _ & ->). exists (d :: r).
           split; [done|]. by rewrite <- app_assoc.
        -- intros p (n & _ & ->). exists [n]. split; [done|].
           by rewrite <- app_assoc.
      * intros r c Hr Hc. destruct r as [|n r]; [done|].
        assert (fs st !! (cr ++ q ++ n :: r) = Some (File c)) as Hc0.
        { eapply Shrink_keep; [exact HSi|]. by eapply Shrink_keep. }
        destruct r as [|n' r].
        -- eapply Hpost; [|done]. apply Hfiles. by eauto.
        -- assert (fs st !! (cr ++ q ++ [n]) = Some Dir) as Hd.
           { apply (wf_prefix _ _ (n' :: r) Hwf); [|done].
             rewrite <- !app_assoc. simpl. by eauto. }
           apply Hdirs in Hd. eapply Forall_forall in HD; [|done].
           pose proof (pruned_stable _ _ _ _ HD HS2 (n' :: r) c) as H.
           rewrite <- !app_assoc in H. by apply H.
  - by intros ?? [_ ?].
  - done.
Qed.

(** ** The whole second loop *)

Lemma prune_spec fuel :
  spec (prune fuel source replica) st0
    (fun _ st' => FS.wf (fs st') ∧ Shrink (below cr) st0 st'
                  ∧ pruned [] st')
    (fun _ _ => False)
    (¬ (0 < fuel ∧ ∀ r, is_Some (fs0 !! (cr ++ r)) → length r < fuel)).
Proof.
  unfold prune.
  destruct (fs0 !! cr) as [[c|]|] eqn:Hroot.
  2: { change replica with (walk_path replica []) at 1.
    eapply spec_mono; [apply (prune_walk fuel [] st0)| | |].
    + done.
    + apply Shrink_refl.
    + by rewrite app_nil_r.
    + intros [] st' (? & HS & ?). split_and!; [done| |done].
      eapply Shrink_weaken; [|done]. intros p (r & ? & ->).
      rewrite app_nil_r. by exists r.
    + done.
    + intros H [_ Hfuel]. apply H. intros r Hr. simpl in Hr. by apply Hfuel. }
  all: destruct fuel as [|fuel]; [unfold spec; simpl; lia|].
  all: cbn [os_walk]; apply spec_bind, spec_query.
  all: destruct (scandir_fail fs0 replica Hwf0) as [e ->]; [congruence|].
  all: apply spec_ret; split_and!; [done|apply Shrink_refl|].
  all: intros r c' Hr Hc; simpl in Hc.
  all: rewrite (wf_prefix fs0 cr r) in Hroot; by eauto.
Qed.

(** ** A replica without orphans *)

Lemma pruned_unchanged evs frame st :
  pruned [] st0 → ShrinkBy evs frame st0 st → evs = [] ∧ fs st = fs0.
Proof.
  intros Hp (HL & HJ & HC).
  assert (∀ q, ¬ orphan st0 q) as Hno.
  { intros q (Hq & [c Hc] & Hn). destruct (Hp q c Hq Hc) as [? E].
    simpl in E. congruence. }
  split.
  - destruct evs as [|e evs]; [done|].
    inversion_clear HJ as [|?? (q & _ & Ho) _]. by destruct (Hno q).
  - apply map_eq. intros p.
    destruct (HC p) as [E|(_ & _ & q & _ & Ho)]; [done|]. by destruct (Hno q).
Qed.

End PruneChanges.

(* ===================================================================== *)
(** * A whole pass *)
(* ===================================================================== *)

Section Pass.

Context (cwd source replica : string).
Local Abbreviation src := (resolve_path cwd source).
Local Abbreviation rep := (resolve_path cwd replica).
Local Abbreviation cs := (root_of cwd source).
Local Abbreviation cr := (root_of cwd replica).

Hypothesis Hdisj : disjoint_roots cs cr.

Lemma src_good : good_root src.
Proof. apply resolve_path_good. by destruct (disjoint_roots_nonempty _ _ Hdisj). Qed.

Lemma rep_good : good_root rep.
Proof. apply resolve_path_good. by destruct (disjoint_roots_nonempty _ _ Hdisj). Qed.

Lemma sync_folders_spec fuel st :
  FS.wf (fs st) →
  spec (sync_folders fuel cwd source replica) st
    (fun _ st2 => ∃ st1,
       FS.wf (fs st1) ∧ Ext src rep st st st1
       ∧ (fs st !! cs = Some Dir → subtree_done src rep st [] st1)
       ∧ FS.wf (fs st2) ∧ Shrink src rep st1 (below cr) st1 st2
       ∧ pruned src rep st1 [] st2)
    (fun _ st1 => Ext src rep st st st1 ∧ FS.wf (fs st1) ∧ blame src rep st)
    (¬ fs_height (fs st) < fuel).
Proof.
  intros Hwf. unfold sync_folders. apply spec_bind.
  eapply spec_mono;
    [apply (propagate_spec src rep st src_good rep_good Hdisj Hwf fuel)
    | |done..].
  intros [] st1 (Hwf1 & HE1 & Hdone). simpl.
  eapply spec_mono;
    [apply (prune_spec src rep st1 src_good rep_good Hdisj Hwf1 fuel)| | |].
  - intros [] st2 (Hwf2 & HS2 & Hp2). simpl. exists st1. by split_and!.
  - done.
  - intros H Hfuel. apply H. split; [lia|]. intros r Hr.
    pose proof (Ext_depth src rep st st1 r HE1 Hr). lia.
Qed.

(** The source is the same after each of the two loops. *)
Lemma pass_static st st1 st2 p :
  Ext src rep st st st1 → Shrink src rep st1 (below cr) st1 st2 →
  cs `prefix_of` p → fs st2 !! p = fs st !! p.
Proof.
  intros HE HS Hp.
  rewrite (Shrink_static src rep st1 Hdisj st2 p HS Hp).
  by apply (Ext_static src rep st Hdisj st st1 p HE).
Qed.

(** What the first loop has mirrored stays through the second. *)
Lemma pass_keeps st st1 st2 q nd :
  Ext src rep st st st1 → Shrink src rep st1 (below cr) st1 st2 →
  is_Some (fs st !! (cs ++ q)) →
  fs st1 !! (cr ++ q) = Some nd → fs st2 !! (cr ++ q) = Some nd.
Proof.
  intros HE (evs & _ & _ & H) Hq Hnd.
  destruct (H (cr ++ q)) as [E|(_ & _ & q2 & E & _ & _ & Hn)]; [congruence|].
  apply app_inv_head in E as <-.
  rewrite (Ext_static src rep st Hdisj st st1) in Hn
    by (done || by apply prefix_app_r).
  destruct Hq. congruence.
Qed.

End Pass.

(* ===================================================================== *)
(** * The fingerprint *)
(* ===================================================================== *)

(** C8. Fingerprint: on a file that can be read, [calculate_md5] changes
    nothing and returns the MD5 digest of the whole content, so two files
    (or two reads of one file) with the same bytes have the same digest.
    It reads the file in chunks: there are chunks, none empty and none of
    more than 4096 bytes, that make up the content, and the body of
    [calculate_md5] run with any hash object feeds exactly these chunks,
    in their order, to [update]; [calculate_md5] is that body with
    [hashlib.md5()]. *)
Theorem calculate_md5_whole_content
    (st st' : state) (p p' : string) (data : bytes) :
  FS.open_rb (fs st) p = inr data → FS.open_rb (fs st') p' = inr data →
  calculate_md5 p st = Ok (MD5.md5 data) st
  ∧ calculate_md5 p' st' = Ok (MD5.md5 data) st'
  ∧ ∃ chunks : list bytes,
      concat chunks = data
      ∧ Forall (fun chunk => 0 < length chunk ≤ 4096) chunks
      ∧ (∀ (H : Type) (new : H) (update : H → bytes → H)
           (hexdigest : H → string),
           hash_file new update hexdigest p st
           = Ok (hexdigest (foldl update new chunks)) st)
      ∧ calculate_md5 p st
        = Ok (MD5.hexdigest (foldl MD5.update MD5.new chunks)) st.
Proof.
  intros Hp Hp'. split_and!; [by apply calculate_md5_ok..|].
  destruct (hash_file_ok p data st Hp) as (chunks & Hcat & Hall & Hrun).
  exists chunks. split_and!; [done..|]. apply Hrun.
Qed.

(* ===================================================================== *)
(** * The mirrored path *)
(* ===================================================================== *)


(* ===================================================================== *)
(** * The two decisions *)
(* ===================================================================== *)


Lemma state_eq (st st' : state) : fs st = fs st' → log st = log st' → st = st'.
Proof. destruct st, st'. simpl. by intros -> ->. Qed.

(* ===================================================================== *)
(** * The properties of a pass *)
(* ===================================================================== *)

Section PassClaims.

Context (cwd source replica : string).
Local Abbreviation src := (resolve_path cwd source).
Local Abbreviation rep := (resolve_path cwd replica).
Local Abbreviation cs := (root_of cwd source).
Local Abbreviation cr := (root_of cwd replica).

(** A pass that returns leaves the replica in step with the source and
    without orphans. *)
Lemma pass_in_step fuel st st' :
  FS.wf (fs st) → disjoint_roots cs cr →
  sync_folders fuel cwd source replica st = Ok tt st' →
  FS.wf (fs st') ∧ in_step src rep st' ∧ pruned src rep st' [] st'.
Proof.
  intros Hwf Hdisj Hrun.
  pose proof (sync_folders_spec cwd source replica Hdisj fuel st Hwf) as H.
  unfold spec in H. rewrite Hrun in H.
  destruct H as (st1 & Hwf1 & HE & Hdone & Hwf' & HS & Hp).
  assert (∀ p, cs `prefix_of` p → fs st' !! p = fs st !! p) as Hstatic.
  { intros p. by apply (pass_static cwd source replica Hdisj st st1 st'). }
  split_and!; [done| |].
  - intros Hroot q' _. unfold entry_done.
    rewrite Hstatic in Hroot by done.
    rewrite Hstatic by by apply prefix_app_r.
    specialize (Hdone Hroot q' (prefix_nil _)). unfold entry_done in Hdone.
    destruct (fs st !! (cs ++ q')) as [[c|]|] eqn:Hq; [| |done].
    + destruct Hdone as (c' & Hc' & Hmd5). exists c'. split; [|done].
      eapply (pass_keeps cwd source replica Hdisj); eauto.
    + destruct Hdone as [nd Hnd]. exists nd.
      eapply (pass_keeps cwd source replica Hdisj); eauto.
  - intros r c Hr Hc. simpl in *. rewrite Hstatic by by apply prefix_app_r.
    destruct (Hp r c Hr Hc) as [nd Hnd]. simpl in Hnd.
    rewrite (Ext_static src rep st Hdisj st st1) in Hnd
      by (done || by apply prefix_app_r). by eauto.
Qed.

(** C4 (amended). Idempotence: on the file systems of this development
    (regular files and directories, one path for an entry, no operation
    denied or failing part-way), when the two roots are disjoint and a
    call has returned, a second call on the state the first one has left
    returns that very state: it changes nothing in the file system and
    logs nothing. *)
Theorem second_pass_is_noop fuel fuel' st st' :
  FS.wf (fs st) → disjoint_roots cs cr →
  sync_folders fuel cwd source replica st = Ok tt st' →
  fs_height (fs st') < fuel' →
  sync_folders fuel' cwd source replica st' = Ok tt st'.
Proof.
  intros Hwf Hdisj Hrun Hfuel.
  destruct (pass_in_step fuel st st' Hwf Hdisj Hrun) as (Hwf' & Hin & Hpr).
  pose proof (sync_folders_spec cwd source replica Hdisj fuel' st' Hwf') as H.
  unfold spec in H.
  destruct (sync_folders fuel' cwd source replica st') as [[] st3|e st3|].
  - destruct H as (st2 & Hwf2 & (evs & HE) & _ & _ & (evs' & HS) & _).
    destruct (in_step_unchanged src rep st' Hwf' evs st2 Hin HE) as [-> E2].
    assert (st2 = st') as ->.
    { apply state_eq; [done|]. destruct HE as (HL & _).
      unfold logged_since in HL. by rewrite app_nil_r in HL. }
    destruct (pruned_unchanged src rep st' evs' _ st3 Hpr HS) as [-> E3].
    f_equal. apply state_eq; [done|]. destruct HS as (HL & _).
    unfold logged_since in HL. by rewrite app_nil_r in HL.
  - destruct H as (_ & _ & Hb). by destruct (blame_in_step src rep st' Hwf' Hb).
  - done.
Qed.

(** C9 (amended). Source untouched: on the file systems of this
    development (regular files and directories, one path for an entry:
    no link leads from the replica into the source), when the two roots
    are disjoint, a call returns or raises, and either way every path
    under the source root holds what it held before the call. *)
Theorem source_is_left_unchanged fuel st :
  FS.wf (fs st) → disjoint_roots cs cr → fs_height (fs st) < fuel →
  ∃ st', (sync_folders fuel cwd source replica st = Ok tt st'
          ∨ ∃ e, sync_folders fuel cwd source replica st = Raise e st')
         ∧ ∀ p, cs `prefix_of` p → fs st' !! p = fs st !! p.
Proof.
  intros Hwf Hdisj Hfuel.
  pose proof (sync_folders_spec cwd source replica Hdisj fuel st Hwf) as H.
  unfold spec in H.
  destruct (sync_folders fuel cwd source replica st) as [[] st2|e st1|];
    [| |done].
  - destruct H as (st1 & _ & HE & _ & _ & HS & _). exists st2.
    split; [by left|]. intros p.
    by apply (pass_static cwd source replica Hdisj st st1 st2).
  - destruct H as (HE & _). exists st1. split; [by eauto|]. intros p.
    by apply (Ext_static src rep st Hdisj st st1).
Qed.


(** C1 (amended). Convergence: on the file systems of this development
    (regular files and directories, one path for an entry, no operation
    denied or failing part-way), when the two roots are disjoint, no
    entry of the replica is in conflict with the source and no file of
    the source has the MD5 digest of a different file at its mirrored
    path, a call returns, and then the replica has every file under the
    source root at its mirrored path with the same content, and a
    directory where the source has one. *)
Theorem replica_converges fuel st :
  FS.wf (fs st) → disjoint_roots cs cr → no_conflict (fs st) cs cr →
  collision_free (fs st) cs cr → fs_height (fs st) < fuel →
  ∃ st', sync_folders fuel cwd source replica st = Ok tt st'
    ∧ (∀ q c, q ≠ [] → fs st !! (cs ++ q) = Some (File c) →
              fs st' !! (cr ++ q) = Some (File c))
    ∧ (∀ q, fs st !! (cs ++ q) = Some Dir → fs st' !! (cr ++ q) = Some Dir).
Proof.
  intros Hwf Hdisj Hnc Hcf Hfuel.
  pose proof (sync_folders_spec cwd source replica Hdisj fuel st Hwf) as H.
  unfold spec in H.
  destruct (sync_folders fuel cwd source replica st) as [[] st2|e st1|];
    [| |done].
  2: { destruct H as (_ & _ & Hb).
       by destruct (blame_conflict src rep st Hwf Hb). }
  destruct H as (st1 & Hwf1 & HE & Hdone & _ & HS & _).
  exists st2. split_and!; [done| |].
  - intros q c Hq Hc.
    assert (fs st !! cs = Some Dir) as Hroot.
    { apply (wf_prefix _ _ q Hwf); by eauto. }
    specialize (Hdone Hroot q (prefix_nil _)). unfold entry_done in Hdone.
    rewrite Hc in Hdone.
    eapply (pass_keeps cwd source replica Hdisj); eauto.
    by apply (done_file_content src rep st st1 q c).
  - intros q Hq.
    assert (fs st !! cs = Some Dir) as Hroot.
    { destruct q as [|n q]; [by rewrite app_nil_r in Hq|].
      apply (wf_prefix _ _ (n :: q) Hwf); by eauto. }
    specialize (Hdone Hroot q (prefix_nil _)). unfold entry_done in Hdone.
    rewrite Hq in Hdone.
    eapply (pass_keeps cwd source replica Hdisj); eauto.
    by apply (done_dir_kind src rep st st1 q).
Qed.

(** C6 (amended). Change detection: on the file systems of this
    development (regular files and directories, one path for an entry, no
    operation denied or failing part-way), when the two roots are
    disjoint and no entry of the replica is in conflict with the source,
    a call copies again every file under the source root whose MD5 digest
    is not that of the file at its mirrored path: it logs the copy and
    leaves the new content in the replica. *)
Theorem changed_digest_is_recopied fuel st q c c' :
  FS.wf (fs st) → disjoint_roots cs cr → no_conflict (fs st) cs cr →
  fs_height (fs st) < fuel →
  q ≠ [] → fs st !! (cs ++ q) = Some (File c) →
  fs st !! (cr ++ q) = Some (File c') → MD5.md5 c' ≠ MD5.md5 c →
  ∃ st' evs, sync_folders fuel cwd source replica st = Ok tt st'
    ∧ log st' = log st ++ evs
    ∧ Copied_file (walk_path src q) (walk_path rep q) ∈ evs
    ∧ fs st' !! (cr ++ q) = Some (File c).
Proof.
  intros Hwf Hdisj Hnc Hfuel Hq Hc Hc' Hmd5.
  pose proof (sync_folders_spec cwd source replica Hdisj fuel st Hwf) as H.
  unfold spec in H.
  destruct (sync_folders fuel cwd source replica st) as [[] st2|e st1|];
    [| |done].
  2: { destruct H as (_ & _ & Hb).
       by destruct (blame_conflict src rep st Hwf Hb). }
  destruct H as (st1 & Hwf1 & (evs & HE) & Hdone & _ & HS & _).
  assert (fs st !! cs = Some Dir) as Hroot.
  { apply (wf_prefix _ _ q Hwf); by eauto. }
  specialize (Hdone Hroot q (prefix_nil _)). unfold entry_done in Hdone.
  rewrite Hc in Hdone.
  destruct (done_file_copied src rep st evs st1 q c HE Hc) as [Hnew Hev];
    [right; by eauto|done|].
  pose proof HS as (evs' & HL' & _). pose proof HE as (HL & _).
  exists st2, (evs ++ evs'). split_and!; [done| | |].
  - unfold logged_since in *. by rewrite HL', HL, app_assoc.
  - apply elem_of_app. by left.
  - eapply (pass_keeps cwd source replica Hdisj); [by eexists|done|by eauto|done].
Qed.

(** X1. Pruning of files: on the file systems of this development
    (regular files and directories, one path for an entry, no operation
    denied or failing part-way), when the two roots are disjoint and no
    entry of the replica is in conflict with the source, a call returns
    and every regular file the replica had below its root without a
    counterpart in the source is gone. *)
Theorem orphan_files_are_removed fuel st :
  FS.wf (fs st) → disjoint_roots cs cr → no_conflict (fs st) cs cr →
  fs_height (fs st) < fuel →
  ∃ st', sync_folders fuel cwd source replica st = Ok tt st'
    ∧ ∀ r c, r ≠ [] → fs st !! (cr ++ r) = Some (File c) →
             fs st !! (cs ++ r) = None → fs st' !! (cr ++ r) = None.
Proof.
  intros Hwf Hdisj Hnc Hfuel.
  pose proof (sync_folders_spec cwd source replica Hdisj fuel st Hwf) as H.
  unfold spec in H.
  destruct (sync_folders fuel cwd source replica st) as [[] st2|e st1|];
    [| |done].
  2: { destruct H as (_ & _ & Hb).
       by destruct (blame_conflict src rep st Hwf Hb). }
  destruct H as (st1 & Hwf1 & HE & _ & _ & HS & Hp).
  exists st2. split; [done|]. intros r c Hr Hc Hn.
  assert (fs st1 !! (cr ++ r) = Some (File c)) as Hc1.
  { destruct HE as (evs & _ & _ & C).
    destruct (C (cr ++ r)) as [E|[(N & _)|(q & c2 & E & Hq & _)]];
      [congruence..|].
    apply app_inv_head in E as <-. congruence. }
  destruct (fs st2 !! (cr ++ r)) as [nd|] eqn:E2; [|done].
  pose proof (Shrink_keep _ _ _ _ _ _ _ _ HS E2) as E1.
  rewrite Hc1 in E1. simplify_eq.
  destruct (Hp r c Hr E2) as [nd Hnd]. simpl in Hnd.
  rewrite (Ext_static src rep st Hdisj st st1) in Hnd
    by (done || by apply prefix_app_r). congruence.
Qed.

(** The second loop on its own keeps what has a counterpart: for C10. *)
Lemma prune_keeps fuel st :
  FS.wf (fs st) → disjoint_roots cs cr → fs_height (fs st) < fuel →
  ∃ st', prune fuel src rep st = Ok tt st'
    ∧ ∀ q nd, is_Some (fs st !! (cs ++ q)) → fs st !! (cr ++ q) = Some nd →
              fs st' !! (cr ++ q) = Some nd.
Proof.
  intros Hwf Hdisj Hfuel.
  pose proof (prune_spec src rep st (src_good cwd source replica Hdisj)
                (rep_good cwd source replica Hdisj) Hdisj Hwf fuel) as H.
  unfold spec in H. destruct (prune fuel src rep st) as [[] st'|e st'|].
  - exists st'. split; [done|]. intros q nd [x Hq] Hnd.
    destruct H as (_ & (evs & _ & _ & H) & _).
    destruct (H (cr ++ q)) as [E|(_ & _ & q2 & E & _ & _ & Hn)]; [congruence|].
    apply app_inv_head in E as <-. congruence.
  - done.
  - destruct H. split; [lia|]. intros r Hr. apply fs_height_le in Hr.
    rewrite length_app in Hr. lia.
Qed.

End PassClaims.

(* ===================================================================== *)
(** * Checking the conditions on a given file system *)
(* ===================================================================== *)

Lemma strip_app (root q : list string) : strip root (root ++ q) = Some q.
Proof.
  unfold strip. rewrite take_app_length, drop_app_length.
  by rewrite bool_decide_eq_true_2.
Qed.

Lemma no_conflict_check_sound (fs : filesystem) (cs cr : list string) :
  no_conflict_check fs cs cr → no_conflict fs cs cr.
Proof.
  intros [H1 H2]. split.
  - intros k c [r ->] Hk. rewrite Forall_forall in H1.
    specialize (H1 (length k)). rewrite take_app_length in H1.
    unfold file_at in H1. rewrite Hk in H1. 
    assert (true = false) by (apply H1, elem_of_seq; rewrite length_app; lia).
    done.
  - intros q ndS ndR Hs Hr. specialize (H2 _ _ Hs). cbv beta in H2.
    rewrite strip_app in H2. simpl in H2. rewrite Hr in H2.
    by apply bool_decide_eq_true in H2.
Qed.

Lemma collision_free_check_sound (fs : filesystem) (cs cr : list string) :
  collision_free_check fs cs cr → collision_free fs cs cr.
Proof.
  intros H q c c' Hs Hr Hmd5. specialize (H _ _ Hs). cbv beta in H.
  rewrite strip_app in H. simpl in H. rewrite Hr in H.
  rewrite (bool_decide_eq_true_2 _ Hmd5) in H. simpl in H.
  by apply bool_decide_eq_true in H.
Qed.

Ltac check := apply (bool_decide_unpack _); vm_compute; exact I.
Ltac check_wf := split; [reflexivity | check].

(* ===================================================================== *)
(** * Runs on given file systems *)
(* ===================================================================== *)

(** The scenarios of the specification. *)
Example scenario_new_file :
  let o := sync_folders 5 "/" "/s" "/r" (State fs_hello []) in
  returned o = true
  ∧ left_at o ["r"; "a"] = Some Dir
  ∧ left_at o ["r"; "a"; "b.txt"] = Some (File (b_ "hello"))
  ∧ logged o = [Created_directory "/r/a";
                Copied_file "/s/a/b.txt" "/r/a/b.txt"].
Proof. vm_compute. by split_and!. Qed.

Example scenario_changed_and_deleted :
  let o := sync_folders 5 "/" "/s" "/r" (State fs_world []) in
  returned o = true
  ∧ left_at o ["r"; "a"; "b.txt"] = Some (File (b_ "world"))
  ∧ left_at o ["r"; "old.txt"] = None
  ∧ logged o = [Copied_file "/s/a/b.txt" "/r/a/b.txt";
                Removed_file "/r/old.txt"].
Proof. vm_compute. by split_and!. Qed.

Example scenario_relative_roots :
  let o := sync_folders 5 "/home/u" "../../s/" "/r/./x" (State fs_hello []) in
  returned o = true
  ∧ left_at o ["r"; "x"; "a"; "b.txt"] = Some (File (b_ "hello"))
  ∧ logged o = [Created_directory "/r/x"; Created_directory "/r/x/a";
                Copied_file "/s/a/b.txt" "/r/x/a/b.txt"].
Proof. vm_compute. by split_and!. Qed.

(** With the replica root inside a sub-directory of the source, the walk
    of the source keeps finding the directory it has just made. *)
Example replica_inside_source_diverges :
  sync_folders 20 "/" "/s" "/s/a/r" (State fs_hello []) = OutOfFuel.
Proof. vm_compute. reflexivity. Qed.

(** C10. Delete guard: [prune_file] leaves a file of the replica alone,
    changing and logging nothing, when its mirrored path exists in the
    source at the time of the check; and with disjoint roots the whole
    second loop returns and keeps every file of the replica that has a
    counterpart in the source. *)
Theorem prune_keeps_mirrored_file
    (cwd source replica dirpath filename : string) (fuel : nat) (st : state) :
  FS.wf (fs st) →
  disjoint_roots (root_of cwd source) (root_of cwd replica) →
  fs_height (fs st) < fuel →
  (∀ st0,
     FS.exists_ (fs st0)
       (Str.replace1 (resolve_path cwd replica) (resolve_path cwd source)
          (Posix.join dirpath filename)) = true →
     prune_file (resolve_path cwd source) (resolve_path cwd replica)
       dirpath filename st0 = Ok tt st0)
  ∧ ∃ st',
      prune fuel (resolve_path cwd source) (resolve_path cwd replica) st
      = Ok tt st'
      ∧ ∀ q c, is_Some (fs st !! (root_of cwd source ++ q)) →
               fs st !! (root_of cwd replica ++ q) = Some (File c) →
               fs st' !! (root_of cwd replica ++ q) = Some (File c).
Proof.
  intros Hwf Hdisj Hfuel. split.
  - intros st0 Hex. unfold prune_file, bind, query. by rewrite Hex.
  - destruct (prune_keeps cwd source replica fuel st Hwf Hdisj Hfuel)
      as (st' & Hrun & Hkeep).
    exists st'. split; [done|]. intros q c. apply Hkeep.
Qed.

(* ===================================================================== *)
(** * Where the specification and the code part *)
(* ===================================================================== *)

(** C2. A directory of the replica that the source does not have is still
    there after a call that returns; only the file in it is removed. *)
Lemma extra_directory_is_not_pruned :
  let o := sync_folders 5 "/" "/s" "/r" (State fs_extra_dir []) in
  fs_extra_dir !! ["s"; "e"] = None
  ∧ returned o = true
  ∧ left_at o ["r"; "e"] = Some Dir
  ∧ left_at o ["r"; "e"; "g"] = None
  ∧ logged o = [Removed_file "/r/e/g"].
Proof. vm_compute. by split_and!. Qed.

(** C1, as stated: three calls that return without the replica mirroring
    the source.  The replica has the regular file [/r/d] where the source
    has the directory [/s/d], and keeps it.  The replica has at [/r/f]
    other bytes with the MD5 digest of [/s/f], and keeps them.  The source
    root [/r/s] lies inside the replica root [/r], and the copy of
    [/r/s/f] at [/r/f] is removed again. *)
Lemma convergence_fails :
  let o1 := sync_folders 5 "/" "/s" "/r" (State fs_file_for_dir []) in
  let o2 := sync_folders 5 "/" "/s" "/r" (State fs_collision []) in
  let o3 := sync_folders 5 "/" "/r/s" "/r" (State fs_source_inside []) in
  (fs_file_for_dir !! ["s"; "d"] = Some Dir
   ∧ returned o1 = true
   ∧ left_at o1 ["r"; "d"] = Some (File [])
   ∧ logged o1 = [])
  ∧ (fs_collision !! ["s"; "f"] = Some (File collision_a)
     ∧ returned o2 = true
     ∧ left_at o2 ["r"; "f"] = Some (File collision_b)
     ∧ collision_b ≠ collision_a)
  ∧ (fs_source_inside !! ["r"; "s"; "f"] = Some (File (b_ "hello"))
     ∧ returned o3 = true
     ∧ left_at o3 ["r"; "f"] = None).
Proof. vm_compute. split_and!; done. Qed.


(** C4, as stated: with the replica root [/a/r] inside the source root
    [/a], nothing changes between two calls and the second call makes a
    directory and copies a file. *)
Lemma second_pass_copies_again :
  let o1 := sync_folders 5 "/" "/a" "/a/r" (State fs_replica_inside []) in
  let o2 := sync_folders 5 "/" "/a" "/a/r" (State (fs (state_after o1)) []) in
  returned o1 = true ∧ returned o2 = true
  ∧ logged o2 = [Created_directory "/a/r/r";
                 Copied_file "/a/r/f" "/a/r/r/f"].
Proof. vm_compute. by split_and!. Qed.

(** C6, as stated: two calls that do not copy a file whose bytes differ
    from those of the replica.  The source file [/s/f] has been given other
    bytes of the same length and the same MD5 digest; the call returns,
    logs nothing and the replica keeps the old bytes.  The directory [/r/x]
    stands where the source has the file [/s/x]; the call raises before it
    reaches [/s/sub/f], and [/r/sub/f] keeps the old bytes. *)
Lemma changed_file_is_not_recopied :
  let o1 := sync_folders 5 "/" "/s" "/r" (State fs_collision []) in
  let o2 := sync_folders 5 "/" "/s" "/r" (State fs_conflict_first []) in
  (fs_collision !! ["s"; "f"] = Some (File collision_a)
   ∧ collision_a ≠ collision_b
   ∧ length collision_a = length collision_b
   ∧ returned o1 = true
   ∧ logged o1 = []
   ∧ left_at o1 ["r"; "f"] = Some (File collision_b))
  ∧ (fs_conflict_first !! ["s"; "sub"; "f"] = Some (File (b_ "new"))
     ∧ raised o2 = Some IsADirectoryError
     ∧ logged o2 = []
     ∧ left_at o2 ["r"; "sub"; "f"] = Some (File (b_ "old"))).
Proof. vm_compute. split_and!; done. Qed.

(** C9, as stated: with the source root [/r/s] inside the replica root
    [/r], the call removes the file [/r/s/f] of the source. *)
Lemma source_file_is_removed :
  let o := sync_folders 5 "/" "/r/s" "/r" (State fs_source_inside []) in
  fs_source_inside !! ["r"; "s"; "f"] = Some (File (b_ "hello"))
  ∧ returned o = true
  ∧ left_at o ["r"; "s"; "f"] = None
  ∧ logged o = [Copied_file "/r/s/f" "/r/f"; Removed_file "/r/s/f";
                Removed_file "/r/f"].
Proof. vm_compute. by split_and!. Qed.

(* ===================================================================== *)
(** * The theorems at work *)
(* ===================================================================== *)

Ltac check_roots := unfold disjoint_roots; check.
Ltac check_no_conflict :=
  apply no_conflict_check_sound; unfold no_conflict_check; check.
Ltac check_collision_free :=
  apply collision_free_check_sound; unfold collision_free_check; check.
Ltac check_fuel := vm_compute; lia.

Lemma calculate_md5_whole_content_witness :
  calculate_md5 "/s/a/b.txt" (State fs_hello [])
  = Ok (MD5.md5 (b_ "hello")) (State fs_hello [])
  ∧ calculate_md5 "/r/a/b.txt" (State fs_world [])
    = Ok (MD5.md5 (b_ "hello")) (State fs_world [])
  ∧ ∃ chunks : list bytes,
      concat chunks = b_ "hello"
      ∧ Forall (fun chunk => 0 < length chunk ≤ 4096) chunks
      ∧ (∀ (H : Type) (new : H) (update : H → bytes → H)
           (hexdigest : H → string),
           hash_file new update hexdigest "/s/a/b.txt" (State fs_hello [])
           = Ok (hexdigest (foldl update new chunks)) (State fs_hello []))
      ∧ calculate_md5 "/s/a/b.txt" (State fs_hello [])
        = Ok (MD5.hexdigest (foldl MD5.update MD5.new chunks))
            (State fs_hello []).
Proof.
  apply (calculate_md5_whole_content (State fs_hello []) (State fs_world [])
           "/s/a/b.txt" "/r/a/b.txt" (b_ "hello"));
    vm_compute; reflexivity.
Defined.



Lemma prune_guard_witness :
  (∀ st0,
     FS.exists_ (fs st0)
       (Str.replace1 (resolve_path "/" "/r") (resolve_path "/" "/s")
          (Posix.join "/r/a" "b.txt")) = true →
     prune_file (resolve_path "/" "/s") (resolve_path "/" "/r")
       "/r/a" "b.txt" st0 = Ok tt st0)
  ∧ ∃ st',
      prune 5 (resolve_path "/" "/s") (resolve_path "/" "/r")
        (State fs_world []) = Ok tt st'
      ∧ ∀ q c, is_Some (fs_world !! (root_of "/" "/s" ++ q)) →
               fs_world !! (root_of "/" "/r" ++ q) = Some (File c) →
               fs st' !! (root_of "/" "/r" ++ q) = Some (File c).
Proof.
  apply (prune_keeps_mirrored_file "/" "/s" "/r" "/r/a" "b.txt" 5
           (State fs_world [])).
  - check_wf.
  - check_roots.
  - check_fuel.
Defined.

Lemma replica_converges_witness :
  ∃ st', sync_folders 5 "/" "/s" "/r" (State fs_world []) = Ok tt st'
    ∧ (∀ q c, q ≠ [] → fs_world !! (root_of "/" "/s" ++ q) = Some (File c) →
              fs st' !! (root_of "/" "/r" ++ q) = Some (File c))
    ∧ (∀ q, fs_world !! (root_of "/" "/s" ++ q) = Some Dir →
            fs st' !! (root_of "/" "/r" ++ q) = Some Dir).
Proof.
  apply (replica_converges "/" "/s" "/r" 5 (State fs_world [])).
  - check_wf.
  - check_roots.
  - check_no_conflict.
  - check_collision_free.
  - check_fuel.
Defined.


Lemma second_pass_witness :
  sync_folders 7 "/" "/s" "/r"
    (state_after (sync_folders 5 "/" "/s" "/r" (State fs_world [])))
  = Ok tt (state_after (sync_folders 5 "/" "/s" "/r" (State fs_world []))).
Proof.
  apply (second_pass_is_noop "/" "/s" "/r" 5 7 (State fs_world [])).
  - check_wf.
  - check_roots.
  - vm_compute. reflexivity.
  - check_fuel.
Defined.

Lemma recopy_witness :
  ∃ st' evs, sync_folders 5 "/" "/s" "/r" (State fs_world []) = Ok tt st'
    ∧ log st' = [] ++ evs
    ∧ Copied_file (walk_path (resolve_path "/" "/s") ["a"; "b.txt"])
        (walk_path (resolve_path "/" "/r") ["a"; "b.txt"]) ∈ evs
    ∧ fs st' !! (root_of "/" "/r" ++ ["a"; "b.txt"])
      = Some (File (b_ "world")).
Proof.
  apply (changed_digest_is_recopied "/" "/s" "/r" 5 (State fs_world [])
           ["a"; "b.txt"] (b_ "world") (b_ "hello")).
  - check_wf.
  - check_roots.
  - check_no_conflict.
  - check_fuel.
  - discriminate.
  - reflexivity.
  - reflexivity.
  - vm_compute. discriminate.
Defined.

Lemma source_unchanged_witness :
  ∃ st', (sync_folders 5 "/" "/s" "/r" (State fs_dir_for_file []) = Ok tt st'
          ∨ ∃ e, sync_folders 5 "/" "/s" "/r" (State fs_dir_for_file [])
                 = Raise e st')
         ∧ ∀ p, root_of "/" "/s" `prefix_of` p →
                fs st' !! p = fs_dir_for_file !! p.
Proof.
  apply (source_is_left_unchanged "/" "/s" "/r" 5 (State fs_dir_for_file [])).
  - check_wf.
  - check_roots.
  - check_fuel.
Defined.

Lemma orphan_files_witness :
  ∃ st', sync_folders 5 "/" "/s" "/r" (State fs_world []) = Ok tt st'
    ∧ ∀ r c, r ≠ [] → fs_world !! (root_of "/" "/r" ++ r) = Some (File c) →
             fs_world !! (root_of "/" "/s" ++ r) = None →
             fs st' !! (root_of "/" "/r" ++ r) = None.
Proof.
  apply (orphan_files_are_removed "/" "/s" "/r" 5 (State fs_world [])).
  - check_wf.
  - check_roots.
  - check_no_conflict.
  - check_fuel.
Defined.

(* ===================================================================== *)
(** * More on a pass: what it leaves alone, what it reports *)
(* ===================================================================== *)

Section PassExtras.

Context (cwd source replica : string).
Local Abbreviation src := (resolve_path cwd source).
Local Abbreviation rep := (resolve_path cwd replica).
Local Abbreviation cs := (root_of cwd source).
Local Abbreviation cr := (root_of cwd replica).

(** The two loops of a pass that returns, and the one loop of a pass that
    raises. *)
Lemma pass_returned fuel st st' :
  FS.wf (fs st) → disjoint_roots cs cr →
  sync_folders fuel cwd source replica st = Ok tt st' →
  ∃ st1, FS.wf (fs st1) ∧ Ext src rep st st st1
    ∧ (fs st !! cs = Some Dir → subtree_done src rep st [] st1)
    ∧ FS.wf (fs st') ∧ Shrink src rep st1 (below cr) st1 st'
    ∧ pruned src rep st1 [] st'.
Proof.
  intros Hwf Hdisj Hrun.
  pose proof (sync_folders_spec cwd source replica Hdisj fuel st Hwf) as H.
  unfold spec in H. by rewrite Hrun in H.
Qed.

Lemma pass_raised fuel st e st' :
  FS.wf (fs st) → disjoint_roots cs cr →
  sync_folders fuel cwd source replica st = Raise e st' →
  Ext src rep st st st' ∧ FS.wf (fs st') ∧ blame src rep st.
Proof.
  intros Hwf Hdisj Hrun.
  pose proof (sync_folders_spec cwd source replica Hdisj fuel st Hwf) as H.
  unfold spec in H. by rewrite Hrun in H.
Qed.

Lemma pass_runs fuel st :
  FS.wf (fs st) → disjoint_roots cs cr → fs_height (fs st) < fuel →
  sync_folders fuel cwd source replica st ≠ OutOfFuel.
Proof.
  intros Hwf Hdisj Hfuel Hrun.
  pose proof (sync_folders_spec cwd source replica Hdisj fuel st Hwf) as H.
  unfold spec in H. by rewrite Hrun in H.
Qed.

(** The first loop outside the replica: it makes the missing directories
    on the way to the replica root, and that is all. *)
Lemma Ext_outside st st1 p :
  Ext src rep st st st1 → ¬ cr `prefix_of` p →
  fs st1 !! p = fs st !! p
  ∨ (fs st !! p = None ∧ fs st1 !! p = Some Dir ∧ p `prefix_of` cr).
Proof.
  intros (evs & _ & _ & HC) Hp.
  destruct (HC p) as [E|[(N & D & _ & [Hpre|(q & -> & _)])|(q & c & -> & _)]].
  - by left.
  - by right.
  - destruct Hp. by apply prefix_app_r.
  - destruct Hp. by apply prefix_app_r.
Qed.

Lemma Shrink_below st1 st' p :
  Shrink src rep st1 (below cr) st1 st' → ¬ cr `prefix_of` p →
  fs st' !! p = fs st1 !! p.
Proof.
  intros (evs & _ & _ & H) Hp.
  destruct (H p) as [E|(_ & _ & q & -> & _)]; [done|].
  destruct Hp. by apply prefix_app_r.
Qed.

(** With no directory at the source root the first loop finds nothing to
    do. *)
Lemma Ext_no_source st st1 :
  FS.wf (fs st) → fs st !! cs ≠ Some Dir → Ext src rep st st st1 →
  fs st1 = fs st ∧ log st1 = log st.
Proof.
  intros Hwf Hroot (evs & HL & HJ & HC). split.
  - apply map_eq. intros p.
    by destruct (HC p) as [E|[(_ & _ & D & _)|(q & c & _ & _ & D & _)]].
  - destruct evs as [|e evs]; [by rewrite HL, app_nil_r|].
    apply Forall_cons in HJ as [[(q & _ & D & _)|(q & c & _ & _ & D & _)] _];
      [|done].
    destruct Hroot. destruct q as [|n q]; [by rewrite app_nil_r in D|].
    apply (wf_prefix _ _ (n :: q) Hwf); by eauto.
Qed.

(** X2. Frame: on the file systems of this development (regular files
    and directories, one path for an entry: no link leads out of the
    replica; no operation failing part-way), with disjoint roots a call,
    whether it returns or raises, changes nothing outside the replica
    tree, except that it makes the directories that are missing on the
    way to the replica root. *)
Theorem only_the_replica_changes fuel st st' :
  FS.wf (fs st) → disjoint_roots cs cr →
  (sync_folders fuel cwd source replica st = Ok tt st'
   ∨ ∃ e, sync_folders fuel cwd source replica st = Raise e st') →
  ∀ p, ¬ cr `prefix_of` p →
    fs st' !! p = fs st !! p
    ∨ (fs st !! p = None ∧ fs st' !! p = Some Dir ∧ p `prefix_of` cr).
Proof.
  intros Hwf Hdisj [Hrun|[e Hrun]] p Hp.
  - destruct (pass_returned fuel st st' Hwf Hdisj Hrun)
      as (st1 & _ & HE & _ & _ & HS & _).
    rewrite (Shrink_below st1 st' p HS Hp). by apply Ext_outside.
  - destruct (pass_raised fuel st e st' Hwf Hdisj Hrun) as (HE & _).
    by apply Ext_outside.
Qed.

(** X3. Missing source: on the file systems of this development (regular
    files and directories, one path for an entry, no operation denied or
    failing part-way), when the source root is not a directory (it does
    not exist, or is a regular file), a call on disjoint roots returns,
    creates and copies nothing, and removes every regular file below the
    replica root. *)
Theorem missing_source_empties_replica fuel st :
  FS.wf (fs st) → disjoint_roots cs cr → fs_height (fs st) < fuel →
  fs st !! cs ≠ Some Dir →
  ∃ st', sync_folders fuel cwd source replica st = Ok tt st'
    ∧ (∀ r c, r ≠ [] → fs st !! (cr ++ r) = Some (File c) →
              fs st' !! (cr ++ r) = None)
    ∧ (∀ p nd, fs st' !! p = Some nd → fs st !! p = Some nd)
    ∧ (∀ p, fs st !! p = Some Dir → fs st' !! p = Some Dir).
Proof.
  intros Hwf Hdisj Hfuel Hroot.
  pose proof (pass_runs fuel st Hwf Hdisj Hfuel) as Hruns.
  destruct (sync_folders fuel cwd source replica st) as [[] st'|e st1|] eqn:Hrun;
    [| |done].
  2: { destruct (pass_raised fuel st e st1 Hwf Hdisj Hrun) as (_ & _ & Hb).
       by destruct Hb as [(q & k & c & _ & D & _)|(q & c & _ & D & _)]. }
  destruct (pass_returned fuel st st' Hwf Hdisj Hrun)
    as (st1 & Hwf1 & HE & _ & _ & HS & Hp).
  destruct (Ext_no_source st st1 Hwf Hroot HE) as [Efs _].
  exists st'. split_and!; [done| | |].
  - intros r c Hr Hc.
    destruct (fs st' !! (cr ++ r)) as [nd|] eqn:E; [|done].
    pose proof (Shrink_keep _ _ _ _ _ _ _ _ HS E) as E1.
    rewrite Efs, Hc in E1. simplify_eq.
    destruct (Hp r c Hr E) as [nd Hnd]. simpl in Hnd. rewrite Efs in Hnd.
    destruct Hroot. apply (wf_prefix _ _ r Hwf); by eauto.
  - intros p nd E. rewrite <- Efs. by eapply Shrink_keep.
  - intros p D. rewrite <- Efs in D. by eapply Shrink_dir.
Qed.

(** X4. Exact mirror of the files: on the file systems of this
    development (regular files and directories, one path for an entry, no
    operation denied or failing part-way) and under the conditions of
    convergence, a call returns, and then the regular files below the
    replica root are those below the source root, path by path and byte
    by byte: nothing is missing, nothing is left over, nothing differs. *)
Theorem replica_files_are_the_source_files fuel st :
  FS.wf (fs st) → disjoint_roots cs cr → no_conflict (fs st) cs cr →
  collision_free (fs st) cs cr → fs_height (fs st) < fuel →
  ∃ st', sync_folders fuel cwd source replica st = Ok tt st'
    ∧ ∀ q c, q ≠ [] →
        fs st' !! (cr ++ q) = Some (File c)
        ↔ fs st !! (cs ++ q) = Some (File c).
Proof.
  intros Hwf Hdisj Hnc Hcf Hfuel.
  pose proof (pass_runs fuel st Hwf Hdisj Hfuel) as Hruns.
  destruct (sync_folders fuel cwd source replica st) as [[] st'|e st1|] eqn:Hrun;
    [| |done].
  2: { destruct (pass_raised fuel st e st1 Hwf Hdisj Hrun) as (_ & _ & Hb).
       by destruct (blame_conflict src rep st Hwf Hb). }
  destruct (pass_returned fuel st st' Hwf Hdisj Hrun)
    as (st1 & Hwf1 & HE & Hdone & _ & HS & Hp).
  exists st'. split; [done|]. intros q c Hq.
  assert (∀ nd, fs st !! (cs ++ q) = Some nd →
                fs st' !! (cr ++ q) = Some nd) as Hmirror.
  { intros nd Hnd.
    assert (fs st !! cs = Some Dir) as Hroot.
    { apply (wf_prefix _ _ q Hwf); by eauto. }
    specialize (Hdone Hroot q (prefix_nil _)). unfold entry_done in Hdone.
    rewrite Hnd in Hdone.
    eapply (pass_keeps cwd source replica Hdisj); eauto.
    destruct nd as [c0|].
    - by apply (done_file_content src rep st st1 q c0).
    - by apply (done_dir_kind src rep st st1 q). }
  split; [|by apply Hmirror].
  intros Hc. destruct (Hp q c Hq Hc) as [nd Hnd]. simpl in Hnd.
  rewrite (Ext_static src rep st Hdisj st st1) in Hnd
    by (done || by apply prefix_app_r).
  specialize (Hmirror nd Hnd). congruence.
Qed.

(** The paths of the entries below the two roots. *)
Lemma rep_components q :
  disjoint_roots cs cr → valid_names q →
  Posix.components (walk_path rep q) = cr ++ q.
Proof.
  intros Hdisj Hq. apply walk_path_components; [|done].
  by apply (rep_good cwd source replica).
Qed.

Lemma src_components q :
  disjoint_roots cs cr → valid_names q →
  Posix.components (walk_path src q) = cs ++ q.
Proof.
  intros Hdisj Hq. apply walk_path_components; [|done].
  by apply (src_good cwd source replica).
Qed.

Lemma below_valid (fs : filesystem) (k q : list string) :
  FS.wf fs → is_Some (fs !! (k ++ q)) → valid_names q.
Proof.
  intros Hwf Hq. apply wf_valid in Hq; [|done].
  by apply Forall_app in Hq as [_ ?].
Qed.

(** X5. An aborted call: on the file systems of this development
    (regular files and directories, one path for an entry, no operation
    denied or failing part-way), when a call on disjoint roots raises,
    every entry that existed still exists, no removal has been logged
    (the second loop has not started), and the replica is in conflict
    with the source. *)
Theorem aborted_call_has_removed_nothing fuel st e st' :
  FS.wf (fs st) → disjoint_roots cs cr →
  sync_folders fuel cwd source replica st = Raise e st' →
  (∀ p, is_Some (fs st !! p) → is_Some (fs st' !! p))
  ∧ (∃ evs, log st' = log st ++ evs ∧ ∀ r, Removed_file r ∉ evs)
  ∧ ¬ no_conflict (fs st) cs cr.
Proof.
  intros Hwf Hdisj Hrun.
  destruct (pass_raised fuel st e st' Hwf Hdisj Hrun) as (HE & _ & Hb).
  split_and!.
  - intros p. by apply (Ext_some src rep st).
  - destruct HE as (evs & HL & HJ & _). exists evs. split; [done|].
    intros r Hr. rewrite Forall_forall in HJ.
    by destruct (HJ _ Hr) as [(q & ? & _)|(q & c & ? & _)].
  - by apply (blame_conflict src rep st Hwf).
Qed.

(** X6. The log tells the truth: on the file systems of this development
    (regular files and directories only, one path for an entry, no
    operation denied or failing part-way), every line a call on disjoint
    roots has logged when it returns holds of the file system before and
    after the call.  A directory reported as created was missing and is a
    directory; a file reported as copied has its content at the replica
    path; a file reported as removed was a regular file and is gone. *)
Theorem logged_lines_are_true fuel st st' :
  FS.wf (fs st) → disjoint_roots cs cr →
  sync_folders fuel cwd source replica st = Ok tt st' →
  ∃ evs, log st' = log st ++ evs ∧ Forall (reported (fs st) (fs st')) evs.
Proof.
  intros Hwf Hdisj Hrun.
  destruct (pass_returned fuel st st' Hwf Hdisj Hrun)
    as (st1 & Hwf1 & HE & Hdone & Hwf' & HS & Hp).
  pose proof HE as (evs1 & HE1). pose proof HE1 as (HL1 & HJ1 & HC1).
  pose proof HS as (evs2 & HL2 & HR2 & HC2).
  exists (evs1 ++ evs2). split.
  { unfold logged_since in *. by rewrite HL2, HL1, app_assoc. }
  apply Forall_app. split; apply Forall_forall; intros e He.
  - rewrite Forall_forall in HJ1.
    destruct (HJ1 _ He) as [(q & -> & Hq & Hn)|(q & c & -> & Hq & Hroot & Hst)].
    + assert (valid_names q) as Hv by (apply (below_valid (fs st) cs); eauto).
      assert (fs st !! cs = Some Dir) as Hroot.
      { destruct q as [|n q]; [by rewrite app_nil_r in Hq|].
        apply (wf_prefix _ _ (n :: q) Hwf); by eauto. }
      specialize (Hdone Hroot q (prefix_nil _)). unfold entry_done in Hdone.
      rewrite Hq in Hdone. destruct Hdone as [nd Hnd].
      assert (fs st1 !! (cr ++ q) = Some Dir) as Hd.
      { destruct (HC1 (cr ++ q))
          as [E|[(_ & D & _)|(q2 & c & E & Hq2 & _)]]; [congruence|done|].
        apply app_inv_head in E as <-. congruence. }
      simpl. split.
      * apply exists_none; [done|]. by rewrite rep_components.
      * apply isdir_spec; [done|]. rewrite rep_components by done.
        eapply (pass_keeps cwd source replica Hdisj); eauto.
    + assert (valid_names q) as Hv by (apply (below_valid (fs st) cs); eauto).
      specialize (Hdone Hroot q (prefix_nil _)). unfold entry_done in Hdone.
      rewrite Hq in Hdone.
      destruct (done_file_copied src rep st evs1 st1 q c HE1 Hq Hst Hdone)
        as [Hnew _].
      simpl. exists c. split.
      * apply open_rb_file; [done|]. by rewrite src_components.
      * apply open_rb_file; [done|]. rewrite rep_components by done.
        eapply (pass_keeps cwd source replica Hdisj); eauto.
  - rewrite Forall_forall in HR2.
    destruct (HR2 _ He) as (q & -> & Hq & (c & Hc) & Hn).
    assert (valid_names q) as Hv by (apply (below_valid (fs st1) cr); eauto).
    simpl. split.
    + exists c. apply open_rb_file; [done|]. rewrite rep_components by done.
      destruct (HC1 (cr ++ q))
        as [E|[(_ & D & _)|(q2 & c2 & E & Hq2 & _)]]; [congruence..|].
      apply app_inv_head in E as <-.
      rewrite <- (Ext_static src rep st Hdisj st st1) in Hq2
        by (done || by apply prefix_app_r). congruence.
    + apply exists_none; [done|]. rewrite rep_components by done.
      destruct (fs st' !! (cr ++ q)) as [nd|] eqn:E; [|done].
      pose proof (Shrink_keep _ _ _ _ _ _ _ _ HS E) as E1.
      rewrite Hc in E1. simplify_eq.
      destruct (Hp q c Hq E) as [nd Hnd]. simpl in Hnd. congruence.
Qed.

(** X7. No needless copy: on the file systems of this development
    (regular files and directories, one path for an entry: no two names
    of the replica are one file; no operation failing part-way), a file
    of the source whose mirrored path holds a file with the same MD5
    digest is left alone by a call on disjoint roots, whether it returns
    or raises: the replica keeps its bytes and no copy to that path is
    logged. *)
Theorem up_to_date_file_is_left_alone fuel st st' q c c' :
  FS.wf (fs st) → disjoint_roots cs cr →
  (sync_folders fuel cwd source replica st = Ok tt st'
   ∨ ∃ e, sync_folders fuel cwd source replica st = Raise e st') →
  fs st !! (cs ++ q) = Some (File c) → fs st !! (cr ++ q) = Some (File c') →
  MD5.md5 c' = MD5.md5 c →
  fs st' !! (cr ++ q) = Some (File c')
  ∧ ∃ evs, log st' = log st ++ evs
           ∧ ∀ s, Copied_file s (walk_path rep q) ∉ evs.
Proof.
  intros Hwf Hdisj Hrun Hc Hc' Hmd5.
  assert (valid_names q) as Hv by (apply (below_valid (fs st) cs); eauto).
  assert (∀ st1 evs, ExtBy src rep st evs st st1 →
            fs st1 !! (cr ++ q) = Some (File c')
            ∧ ∀ s, Copied_file s (walk_path rep q) ∉ evs) as Hfirst.
  { intros st1 evs (HL & HJ & HC). split.
    - destruct (HC (cr ++ q))
        as [E|[(N & _)|(q2 & c2 & E & Hq2 & _ & _ & Hst & _)]]; [congruence..|].
      apply app_inv_head in E as <-.
      destruct Hst as [N|(c0 & E0 & Hne)]; congruence.
    - intros s Hs. rewrite Forall_forall in HJ.
      destruct (HJ _ Hs) as [(q2 & ? & _)|(q2 & c2 & E & Hq2 & _ & Hst)];
        [done|].
      assert (valid_names q2) as Hv2
        by (apply (below_valid (fs st) cs); eauto).
      injection E as _ Er. apply (f_equal Posix.components) in Er.
      rewrite !rep_components in Er by done.
      apply app_inv_head in Er as <-.
      destruct Hst as [N|(c0 & E0 & Hne)]; congruence. }
  destruct Hrun as [Hrun|[e Hrun]].
  - destruct (pass_returned fuel st st' Hwf Hdisj Hrun)
      as (st1 & _ & HE & _ & _ & HS & _).
    destruct HE as (evs1 & HE1). destruct (Hfirst st1 evs1 HE1) as [H1 Hno].
    pose proof HS as (evs2 & HL2 & HR2 & HC2). split.
    + eapply (pass_keeps cwd source replica Hdisj); eauto. by eexists.
    + exists (evs1 ++ evs2). split.
      * destruct HE1 as (HL1 & _). unfold logged_since in *.
        by rewrite HL2, HL1, app_assoc.
      * intros s Hs. apply elem_of_app in Hs as [Hs|Hs]; [by eapply Hno|].
        rewrite Forall_forall in HR2. by destruct (HR2 _ Hs) as (q2 & ? & _).
  - destruct (pass_raised fuel st e st' Hwf Hdisj Hrun) as ((evs1 & HE1) & _).
    destruct (Hfirst st' evs1 HE1) as [H1 Hno]. split; [done|].
    exists evs1. split; [|done]. by destruct HE1 as (HL1 & _).
Qed.

(** X8. No content is made up: on the file systems of this development
    (regular files and directories, one path for an entry, a copy that
    copies all or nothing), with disjoint roots, a regular file found
    anywhere after a call, whether it has returned or raised, was there
    before with the same bytes, or lies in the replica and has the bytes
    of the source file at its mirrored path. *)
Theorem file_content_comes_from_the_source fuel st st' p c :
  FS.wf (fs st) → disjoint_roots cs cr →
  (sync_folders fuel cwd source replica st = Ok tt st'
   ∨ ∃ e, sync_folders fuel cwd source replica st = Raise e st') →
  fs st' !! p = Some (File c) →
  fs st !! p = Some (File c)
  ∨ ∃ q, p = cr ++ q ∧ fs st !! (cs ++ q) = Some (File c).
Proof.
  intros Hwf Hdisj [Hrun|[e Hrun]] Hc.
  - destruct (pass_returned fuel st st' Hwf Hdisj Hrun)
      as (st1 & _ & HE & _ & _ & HS & _).
    pose proof (Shrink_keep _ _ _ _ _ _ _ _ HS Hc) as Hc1.
    destruct HE as (evs & _ & _ & HC).
    destruct (HC p) as [E|[(_ & D & _)|(q & c2 & -> & Hq & _ & Hn & _)]];
      [left; congruence|congruence|].
    right. exists q. split; [done|]. congruence.
  - destruct (pass_raised fuel st e st' Hwf Hdisj Hrun) as (HE & _).
    destruct HE as (evs & _ & _ & HC).
    destruct (HC p) as [E|[(_ & D & _)|(q & c2 & -> & Hq & _ & Hn & _)]];
      [left; congruence|congruence|].
    right. exists q. split; [done|]. congruence.
Qed.

End PassExtras.

(* ===================================================================== *)
(** * What holds of every call, whatever the roots *)
(* ===================================================================== *)

Lemma recorded_refl st : recorded st st.
Proof. split; [done|]. exists []. by rewrite app_nil_r. Qed.

Lemma recorded_trans st1 st2 st3 :
  recorded st1 st2 → recorded st2 st3 → recorded st1 st3.
Proof.
  intros (D1 & evs1 & L1 & E1) (D2 & evs2 & L2 & E2). split; [by eauto|].
  exists (evs1 ++ evs2). split; [by rewrite L2, L1, app_assoc|].
  intros [-> ->]%app_eq_nil. by rewrite E2, E1.
Qed.

Lemma keeps_record_ret {A} (a : A) : keeps_record (ret a).
Proof. intros st. apply recorded_refl. Qed.

Lemma keeps_record_query {A} (f : filesystem → A) : keeps_record (query f).
Proof. intros st. apply recorded_refl. Qed.

Lemma keeps_record_bind {A B} (m : M A) (f : A → M B) :
  keeps_record m → (∀ a, keeps_record (f a)) → keeps_record (bind m f).
Proof.
  intros Hm Hf st. specialize (Hm st). unfold spec, bind in *.
  destruct (m st) as [a st1|e st1|]; [|done..].
  specialize (Hf a st1). unfold spec in Hf.
  destruct (f a st1) as [b st2|e st2|]; [| |done];
    by apply (recorded_trans st st1 st2).
Qed.

Lemma keeps_record_for_each {A} (xs : list A) (body : A → M unit) :
  (∀ x, keeps_record (body x)) → keeps_record (for_each xs body).
Proof.
  intros Hbody. induction xs as [|x xs IH]; simpl.
  - apply keeps_record_ret.
  - apply keeps_record_bind; [by apply Hbody|]. by intros _.
Qed.

Lemma keeps_record_os_walk fuel topdown top
    (body : string → list string → list string → M unit) :
  (∀ dirpath dirnames filenames,
     keeps_record (body dirpath dirnames filenames)) →
  keeps_record (os_walk fuel topdown top body).
Proof.
  intros Hbody. revert top. induction fuel as [|fuel IH]; intros top; simpl.
  - by intros st.
  - apply keeps_record_bind; [apply keeps_record_query|].
    intros [e|[dirs nondirs]]; [apply keeps_record_ret|].
    assert (keeps_record
              (for_each dirs
                 (fun dirname =>
                    os_walk fuel topdown (Posix.join top dirname) body)))
      as Hbelow.
    { apply keeps_record_for_each. intros dirname. apply IH. }
    destruct topdown; apply keeps_record_bind; by try intros _.
Qed.

(** A change of the file system with the line that reports it. *)
Lemma keeps_record_logged (f : filesystem → OSError + filesystem)
    (e : event) :
  (∀ fs fs' p, f fs = inr fs' → fs !! p = Some Dir → fs' !! p = Some Dir) →
  keeps_record (write_call f ;;; logger_info e).
Proof.
  intros Hf st. unfold spec, bind, write_call, logger_info.
  destruct (f (fs st)) as [err|fs'] eqn:E; [apply recorded_refl|].
  split; simpl.
  - intros p. by apply Hf.
  - exists [e]. by split.
Qed.

(** [calculate_md5] changes nothing. *)
Lemma calculate_md5_pure (file_path : string) (st : state) :
  match calculate_md5 file_path st with
  | Ok _ st' | Raise _ st' => st' = st
  | OutOfFuel => False
  end.
Proof.
  destruct (FS.open_rb (fs st) file_path) as [e|data] eqn:E.
  - by rewrite (calculate_md5_raise _ e).
  - by rewrite (calculate_md5_ok _ data).
Qed.

Lemma keeps_record_calculate_md5 (file_path : string) :
  keeps_record (calculate_md5 file_path).
Proof.
  intros st. pose proof (calculate_md5_pure file_path st) as H. unfold spec.
  destruct (calculate_md5 file_path st) as [h st'|e st'|]; [| |done];
    subst; apply recorded_refl.
Qed.

(** The calls that change the file system, without any condition on it. *)
Lemma resolve_inr (fs : filesystem) (cur rest : list string) (nd : node) :
  FS.resolve fs cur rest = inr nd → fs !! (cur ++ rest) = Some nd.
Proof.
  revert cur. induction rest as [|c rest IH]; intros cur; simpl.
  - rewrite app_nil_r. destruct (fs !! cur); naive_solver.
  - destruct (fs !! cur) as [[data|]|]; [done| |done].
    intros H. apply IH in H. by rewrite <- app_assoc in H.
Qed.

Lemma write_wb_keeps_dirs (fs fs' : filesystem) (p : string) (data : bytes)
    (k : list string) :
  FS.write_wb fs p data = inr fs' → fs !! k = Some Dir → fs' !! k = Some Dir.
Proof.
  unfold FS.write_wb. intros H Hk.
  destruct (Posix.components p) as [|c cs] eqn:Ec; [done|].
  destruct (FS.resolve fs [] (removelast (c :: cs))) as [|[|]]; [done..|].
  destruct (fs !! (c :: cs)) as [[d|]|] eqn:E; [|done|]; simplify_eq;
    rewrite lookup_insert_ne; congruence.
Qed.

Lemma copy2_keeps_dirs (fs fs' : filesystem) (src dst : string)
    (k : list string) :
  FS.copy2 fs src dst = inr fs' → fs !! k = Some Dir → fs' !! k = Some Dir.
Proof.
  unfold FS.copy2. intros H.
  destruct (FS.samefile _ _ _); [done|].
  destruct (FS.open_rb fs src); [done|]. by eapply write_wb_keeps_dirs.
Qed.

Lemma makedirs_from_keeps (fs fs' : filesystem) (done todo k : list string)
    (nd : node) :
  FS.makedirs_from fs done todo = inr fs' →
  fs !! k = Some nd → fs' !! k = Some nd.
Proof.
  revert fs done. induction todo as [|c todo IH]; intros fs done; simpl.
  - by intros [= ->].
  - destruct (fs !! (done ++ [c])) as [[d|]|] eqn:E.
    + by destruct todo.
    + destruct todo; [done|]. apply IH.
    + intros H Hk. eapply IH; [done|].
      rewrite lookup_insert_ne; [done|congruence].
Qed.

Lemma makedirs_keeps (fs fs' : filesystem) (p : string) (k : list string)
    (nd : node) :
  FS.makedirs fs p = inr fs' → fs !! k = Some nd → fs' !! k = Some nd.
Proof.
  unfold FS.makedirs. destruct (Posix.components p); [done|].
  destruct (fs !! []) as [[d|]|]; [done| |done]. apply makedirs_from_keeps.
Qed.

Lemma remove_keeps_dirs (fs fs' : filesystem) (p : string)
    (k : list string) :
  FS.remove fs p = inr fs' → fs !! k = Some Dir → fs' !! k = Some Dir.
Proof.
  unfold FS.remove, FS.stat. intros H Hk.
  destruct (FS.resolve fs [] (Posix.components p)) as [|[d|]] eqn:E;
    [done| |done].
  apply resolve_inr in E. simplify_eq. simpl in E.
  rewrite lookup_delete_ne; congruence.
Qed.

(** The bodies of the two loops. *)
Lemma keeps_record_sync_file (dirpath replica_path filename : string) :
  keeps_record (sync_file dirpath replica_path filename).
Proof.
  unfold sync_file. apply keeps_record_bind; [apply keeps_record_query|].
  intros found. apply keeps_record_bind.
  - destruct found; simpl; [|apply keeps_record_ret].
    apply keeps_record_bind; [apply keeps_record_calculate_md5|]. intros h1.
    apply keeps_record_bind; [apply keeps_record_calculate_md5|]. intros h2.
    apply keeps_record_ret.
  - intros [|]; [|apply keeps_record_ret].
    apply keeps_record_logged. intros ???. apply copy2_keeps_dirs.
Qed.

Lemma keeps_record_sync_dir (source replica dirpath : string)
    (dirnames filenames : list string) :
  keeps_record (sync_dir source replica dirpath dirnames filenames).
Proof.
  unfold sync_dir. apply keeps_record_bind; [apply keeps_record_query|].
  intros found. apply keeps_record_bind.
  - destruct found; simpl; [apply keeps_record_ret|].
    apply keeps_record_logged. intros ???. apply makedirs_keeps.
  - intros _. apply keeps_record_for_each. intros filename.
    apply keeps_record_sync_file.
Qed.

Lemma keeps_record_prune_dir (source replica dirpath : string)
    (dirnames filenames : list string) :
  keeps_record (prune_dir source replica dirpath dirnames filenames).
Proof.
  unfold prune_dir. apply keeps_record_for_each. intros filename.
  unfold prune_file. apply keeps_record_bind; [apply keeps_record_query|].
  intros [|]; simpl; [apply keeps_record_ret|].
  apply keeps_record_logged. intros ???. apply remove_keeps_dirs.
Qed.

Lemma keeps_record_sync_folders fuel cwd source replica :
  keeps_record (sync_folders fuel cwd source replica).
Proof.
  unfold sync_folders, propagate, prune. apply keeps_record_bind.
  - apply keeps_record_os_walk. intros. apply keeps_record_sync_dir.
  - intros _. apply keeps_record_os_walk. intros.
    apply keeps_record_prune_dir.
Qed.

(** X9. Directories stay: whatever the two roots and the file system, a
    call that returns or raises has removed no directory. *)
Theorem directories_are_never_removed fuel cwd source replica st st' p :
  (sync_folders fuel cwd source replica st = Ok tt st'
   ∨ ∃ e, sync_folders fuel cwd source replica st = Raise e st') →
  fs st !! p = Some Dir → fs st' !! p = Some Dir.
Proof.
  intros Hrun. pose proof (keeps_record_sync_folders fuel cwd source replica st)
    as H. unfold spec in H.
  destruct Hrun as [Hrun|[e Hrun]]; rewrite Hrun in H;
    destruct H as [H _]; apply H.
Qed.

(** X10. Every change is logged: on the file systems of this development
    (an operation that raises has changed nothing: no copy or [makedirs]
    fails part-way), whatever the two roots, the log after a call that
    returns or raises is the log before it with lines added, and when no
    line has been added the file system is as it was. *)
Theorem every_change_is_logged fuel cwd source replica st st' :
  (sync_folders fuel cwd source replica st = Ok tt st'
   ∨ ∃ e, sync_folders fuel cwd source replica st = Raise e st') →
  ∃ evs, log st' = log st ++ evs ∧ (evs = [] → fs st' = fs st).
Proof.
  intros Hrun. pose proof (keeps_record_sync_folders fuel cwd source replica st)
    as H. unfold spec in H.
  destruct Hrun as [Hrun|[e Hrun]]; rewrite Hrun in H;
    destruct H as [_ H]; apply H.
Qed.

(* ===================================================================== *)
(** * [resolve_path] *)
(* ===================================================================== *)

Section ResolvePath.

Local Arguments String.append : simpl nomatch.

Lemma startswith_sep_cons (a : ascii) (s : string) :
  Str.startswith (String a s) "/" = Ascii.eqb "/" a.
Proof. cbn [Str.startswith]. by destruct (Ascii.eqb "/" a). Qed.

Lemma split_sep_cons (c : ascii) (s : string) :
  Str.split c (String c s) = "" :: Str.split c s.
Proof. simpl. by rewrite Ascii.eqb_refl. Qed.

Lemma split_rel (w : string) (ws : list string) :
  Forall (fun n => Str.contains Posix.sep n = false) (w :: ws) →
  Str.split Posix.sep (w +:+ rel ws) = w :: ws.
Proof.
  revert w. induction ws as [|n ws IH]; intros w Hws.
  - simpl. rewrite str_app_nil_r. apply split_no_sep.
    by inversion_clear Hws.
  - inversion_clear Hws as [|?? Hw Hws']. simpl.
    rewrite split_app, IH, split_no_sep by done. done.
Qed.

(** The components [normpath] keeps of an absolute path. *)
Lemma norm_step_abs (k : nat) (acc : list string) (comp : string) :
  k ≠ 0 → Str.contains Posix.sep comp = false →
  Forall (fun n => Posix.valid_name n = true ∧ n ≠ "..") acc →
  Forall (fun n => Posix.valid_name n = true ∧ n ≠ "..")
    (Posix.norm_step k acc comp).
Proof.
  intros Hk Hc Hacc. unfold Posix.norm_step.
  destruct (bool_decide (comp = "") || bool_decide (comp = ".")) eqn:E;
    [done|].
  apply orb_false_elim in E as [E1 E2].
  rewrite (bool_decide_eq_false_2 (k = 0)) by done. simpl.
  assert (bool_decide (last acc = Some "..") = false) as ->.
  { apply bool_decide_eq_false_2. intros Hl. apply last_Some in Hl as [l ->].
    apply Forall_app in Hacc as [_ Hl]. by inversion_clear Hl as [|?? [_ ?]]. }
  rewrite !orb_false_r. destruct (decide (comp = "..")) as [Hdd|Hdd].
  - rewrite (bool_decide_eq_true_2 _ Hdd). simpl. clear E1 E2.
    induction Hacc as [|x [|y l] Hx Hl IH]; simpl; try constructor;
      try done.
  - rewrite (bool_decide_eq_false_2 _ Hdd). simpl.
    apply Forall_app. split; [done|]. constructor; [|constructor].
    split; [|done]. unfold Posix.valid_name, Posix.is_comp.
    by rewrite Hc, E1, E2.
Qed.

Lemma norm_comps_abs (k : nat) (ws acc : list string) :
  k ≠ 0 → Forall (fun w => Str.contains Posix.sep w = false) ws →
  Forall (fun n => Posix.valid_name n = true ∧ n ≠ "..") acc →
  Forall (fun n => Posix.valid_name n = true ∧ n ≠ "..")
    (foldl (Posix.norm_step k) acc ws).
Proof.
  intros Hk Hws. revert acc.
  induction Hws as [|w ws Hw _ IH]; intros acc Hacc; simpl; [done|].
  by apply IH, norm_step_abs.
Qed.

(** [normpath] keeps such components as they are. *)
Lemma norm_comps_kept (k : nat) (ws acc : list string) :
  Forall (fun n => Posix.valid_name n = true ∧ n ≠ "..") ws →
  foldl (Posix.norm_step k) acc ws = acc ++ ws.
Proof.
  intros Hws. revert acc.
  induction Hws as [|w ws [Hw Hdd] _ IH]; intros acc; simpl.
  - by rewrite app_nil_r.
  - assert (Posix.norm_step k acc w = acc ++ [w]) as ->.
    { unfold Posix.norm_step.
      apply valid_name_inv in Hw as (Hne & Hcomp & _).
      unfold Posix.is_comp in Hcomp.
      apply andb_true_iff in Hcomp as [H1 H2].
      apply negb_true_iff in H1, H2. rewrite H1, H2. simpl.
      by rewrite (bool_decide_eq_false_2 (w = "..")). }
    by rewrite IH, <- app_assoc.
Qed.

(** The shape of the result of [normpath] on an absolute path. *)
Lemma normpath_abs (p : string) :
  Posix.isabs p = true →
  ∃ (root : string) (comps : list string),
    (root = "/" ∨ root = "//")
    ∧ Forall (fun n => Posix.valid_name n = true ∧ n ≠ "..") comps
    ∧ Posix.normpath p = root +:+ Str.join Posix.sep comps.
Proof.
  unfold Posix.isabs, Posix.normpath. intros Hp.
  case_bool_decide as Hnil; [by subst|]. rewrite Hp.
  set (k := if Str.startswith p "//" && negb (Str.startswith p "///")
            then 2 else 1).
  assert (k ≠ 0) as Hk by (subst k; by destruct (_ && _)).
  pose proof (norm_comps_abs k (Str.split Posix.sep p) [] Hk
                (split_pieces _ _) (Forall_nil_2 _)) as Hv.
  set (comps := foldl (Posix.norm_step k) [] (Str.split Posix.sep p)) in *.
  exists (match k with 1 => "/" | _ => "//" end), comps.
  split_and!; [subst k; destruct (_ && _); by eauto|done|].
  assert (∀ s : string, (if bool_decide (String "/" s = "") then "."
                         else String "/" s) = String "/" s) as Hne by done.
  subst k. by destruct (_ && _).
Qed.

Lemma normpath_stable (root : string) (comps : list string) :
  root = "/" ∨ root = "//" →
  Forall (fun n => Posix.valid_name n = true ∧ n ≠ "..") comps →
  Posix.normpath (root +:+ Str.join Posix.sep comps)
  = root +:+ Str.join Posix.sep comps.
Proof.
  intros Hroot Hv.
  assert (Forall (fun n => Str.contains Posix.sep n = false) comps) as Hsep.
  { eapply Forall_impl; [done|]. intros n [Hn _].
    by apply valid_name_inv in Hn as (_ & _ & ?). }
  assert (∀ acc k, foldl (Posix.norm_step k) acc
                     (Str.split Posix.sep (Str.join Posix.sep comps))
                   = acc ++ comps) as Hfold.
  { intros acc k. destruct comps as [|w ws]; [by rewrite app_nil_r|].
    rewrite join_sep_rel, split_rel by done. by apply norm_comps_kept. }
  assert (Str.startswith (Str.join Posix.sep comps) "/" = false) as Hfirst.
  { destruct comps as [|w ws]; [done|]. rewrite join_sep_rel.
    inversion_clear Hv as [|?? [Hw _] _].
    apply valid_name_inv in Hw as (Hne & _ & Hc).
    destruct w as [|a w]; [done|]. cbn [Str.contains] in Hc.
    apply orb_false_elim in Hc as [Ha _].
    change (String a w +:+ rel ws) with (String a (w +:+ rel ws)).
    rewrite startswith_sep_cons. by rewrite Ascii.eqb_sym. }
  unfold Posix.normpath.
  destruct Hroot as [-> | ->].
  - change ("/" +:+ Str.join Posix.sep comps)
      with (String "/" (Str.join Posix.sep comps)).
    rewrite bool_decide_eq_false_2 by done.
    change (Str.startswith (String "/" ?s) "/") with true.
    assert (Str.startswith (String "/" (Str.join Posix.sep comps)) "//"
            = false) as ->.
    { simpl. simpl in Hfirst. exact Hfirst. }
    simpl andb. cbv iota.
    change (Str.split Posix.sep (String "/" (Str.join Posix.sep comps)))
      with (Str.split Posix.sep (String Posix.sep (Str.join Posix.sep comps))).
    rewrite split_sep_cons. simpl foldl. rewrite Hfold. simpl app.
    by rewrite bool_decide_eq_false_2.
  - change ("//" +:+ Str.join Posix.sep comps)
      with (String "/" (String "/" (Str.join Posix.sep comps))).
    rewrite bool_decide_eq_false_2 by done.
    assert (Str.startswith
              (String "/" (String "/" (Str.join Posix.sep comps))) "///"
            = false) as ->.
    { simpl. simpl in Hfirst. exact Hfirst. }
    change (Str.startswith (String "/" (String "/" ?s)) "//") with true.
    change (Str.startswith (String "/" ?s) "/") with true.
    simpl andb. cbv iota.
    change (Str.split Posix.sep
              (String "/" (String "/" (Str.join Posix.sep comps))))
      with (Str.split Posix.sep
              (String Posix.sep
                 (String Posix.sep (Str.join Posix.sep comps)))).
    rewrite !split_sep_cons. simpl foldl. rewrite Hfold. simpl app.
    by rewrite bool_decide_eq_false_2.
Qed.

Lemma join_abs (cwd p : string) :
  Posix.isabs cwd = true → Posix.isabs (Posix.join cwd p) = true.
Proof.
  unfold Posix.isabs, Posix.join. intros Hcwd.
  destruct (Str.startswith p "/") eqn:Hp; [done|].
  destruct cwd as [|a cwd]; [done|].
  by destruct (bool_decide _ || _).
Qed.

Lemma components_normal (root : string) (comps : list string) :
  root = "/" ∨ root = "//" →
  Forall (fun n => Posix.valid_name n = true ∧ n ≠ "..") comps →
  Posix.components (root +:+ Str.join Posix.sep comps) = comps.
Proof.
  intros Hroot Hv.
  assert (valid_names comps) as Hv'.
  { eapply Forall_impl; [done|]. by intros n [? _]. }
  destruct comps as [|w ws]; [by destruct Hroot as [-> | ->]|].
  inversion_clear Hv' as [|?? Hw Hws].
  rewrite join_sep_rel, <- str_app_assoc, components_rel by done.
  f_equal.
  destruct Hroot as [-> | ->].
  - change ("/" +:+ w) with ("" +:+ String Posix.sep w).
    by rewrite components_app, (components_name w).
  - change ("//" +:+ w) with ("/" +:+ String Posix.sep w).
    by rewrite components_app, (components_name w).
Qed.

(** X11. [resolve_path] run in a working directory that is an absolute
    path returns an absolute path none of whose components is [..] (nor
    [.], nor empty), and resolving that path again, from any working
    directory, returns it as it is. *)
Theorem resolve_path_is_absolute_and_stable (cwd cwd' p : string) :
  Posix.isabs cwd = true →
  Posix.isabs (resolve_path cwd p) = true
  ∧ Forall (fun n => Posix.valid_name n = true ∧ n ≠ "..")
      (Posix.components (resolve_path cwd p))
  ∧ resolve_path cwd' (resolve_path cwd p) = resolve_path cwd p.
Proof.
  intros Hcwd. unfold resolve_path.
  pose (a := if Posix.isabs p then p else Posix.join cwd p).
  change (Posix.abspath cwd p) with (Posix.normpath a).
  assert (Posix.isabs a = true) as Ha.
  { subst a. destruct (Posix.isabs p) eqn:Hp; [done|]. by apply join_abs. }
  destruct (normpath_abs a Ha) as (root & comps & Hroot & Hv & ->).
  assert (Posix.isabs (root +:+ Str.join Posix.sep comps) = true) as Habs
    by (by destruct Hroot as [-> | ->]).
  split_and!; [done| |].
  - by rewrite components_normal.
  - unfold Posix.abspath. rewrite Habs. by apply normpath_stable.
Qed.

End ResolvePath.

(* ===================================================================== *)
(** * The directory of a resolved path *)
(* ===================================================================== *)

Section Dirname.

Local Arguments String.append : simpl nomatch.

Lemma upto_last_none (c : ascii) (w : string) :
  Str.contains c w = false → str_upto_last c w = "".
Proof.
  induction w as [|a w IH]; simpl; [done|].
  intros [Ha Hw]%orb_false_elim. by rewrite IH, Ha.
Qed.

Lemma upto_last_snoc (c : ascii) (s w : string) :
  Str.contains c w = false →
  str_upto_last c (s +:+ String c w) = s +:+ String c "".
Proof.
  intros Hw. induction s as [|a s IH].
  - simpl. by rewrite upto_last_none, Ascii.eqb_refl.
  - change (String a s +:+ String c w) with (String a (s +:+ String c w)).
    cbn [str_upto_last]. rewrite IH. by destruct s.
Qed.

Lemma rstrip_snoc (c : ascii) (s : string) :
  str_rstrip c (s +:+ String c "") = str_rstrip c s.
Proof.
  induction s as [|a s IH].
  - simpl. by rewrite Ascii.eqb_refl.
  - change (String a s +:+ String c "") with (String a (s +:+ String c "")).
    cbn [str_rstrip]. by rewrite IH.
Qed.

Lemma rstrip_id (c : ascii) (s : string) :
  Str.endswith s c = false → str_rstrip c s = s.
Proof.
  induction s as [|a s IH]; [done|].
  destruct s as [|b s].
  - simpl. by intros ->.
  - intros H.
    assert (str_rstrip c (String b s) = String b s) as E
      by (apply IH; exact H).
    change (str_rstrip c (String a (String b s)))
      with (match str_rstrip c (String b s) with
            | EmptyString =>
                if Ascii.eqb a c then EmptyString else String a EmptyString
            | r => String a r
            end).
    by rewrite E.
Qed.

Lemma str_all_app (c : ascii) (a b : string) :
  str_all c (a +:+ b) = str_all c a && str_all c b.
Proof.
  induction a as [|x a IH]; [done|].
  change (String x a +:+ b) with (String x (a +:+ b)). simpl.
  by rewrite IH, andb_assoc.
Qed.

Lemma str_all_name (n : string) :
  Posix.valid_name n = true → str_all Posix.sep n = false.
Proof.
  intros (Hne & _ & Hc)%valid_name_inv. destruct n as [|a n]; [done|].
  simpl in *. apply orb_false_elim in Hc as [-> _]. done.
Qed.

Lemma join_snoc (c : ascii) (x : string) (xs : list string) (w : string) :
  Str.join c ((x :: xs) ++ [w]) = Str.join c (x :: xs) +:+ String c w.
Proof.
  revert x. induction xs as [|y xs IH]; intros x; [done|].
  change (Str.join c ((x :: y :: xs) ++ [w]))
    with (x +:+ String c (Str.join c ((y :: xs) ++ [w]))).
  rewrite IH.
  change (Str.join c (x :: y :: xs))
    with (x +:+ String c (Str.join c (y :: xs))).
  by rewrite str_app_assoc.
Qed.

(** The directory of a normalised absolute path is the normalised path of
    all its components but the last. *)
Lemma dirname_normal (root : string) (comps : list string) :
  root = "/" ∨ root = "//" →
  Forall (fun n => Posix.valid_name n = true ∧ n ≠ "..") comps →
  dirname (root +:+ Str.join Posix.sep comps)
  = root +:+ Str.join Posix.sep (removelast comps).
Proof.
  intros Hroot Hv.
  destruct comps as [|w comps _] using rev_ind.
  { by destruct Hroot as [-> | ->]. }
  rewrite removelast_last.
  apply Forall_app in Hv as [Hv Hlast].
  inversion_clear Hlast as [|?? [Hw _] _].
  pose proof (valid_name_inv _ Hw) as (Hwne & _ & Hwsep).
  unfold dirname. destruct comps as [|x xs].
  - simpl Str.join. destruct Hroot as [-> | ->].
    + change ("/" +:+ w) with ("" +:+ String Posix.sep w).
      by rewrite upto_last_snoc.
    + change ("//" +:+ w) with ("/" +:+ String Posix.sep w).
      by rewrite upto_last_snoc.
  - rewrite join_snoc, <- str_app_assoc, upto_last_snoc by done.
    set (d := root +:+ Str.join Posix.sep (x :: xs)).
    inversion_clear Hv as [|?? [Hx _] Hxs].
    assert (str_all Posix.sep (d +:+ String Posix.sep "") = false) as ->.
    { subst d. rewrite join_sep_rel, !str_all_app, (str_all_name x) by done.
      by rewrite andb_false_r. }
    assert (d +:+ String Posix.sep "" ≠ "") as Hne.
    { intros [_ ?]%str_app_eq_nil. done. }
    rewrite bool_decide_eq_false_2 by done. simpl.
    rewrite rstrip_snoc. apply rstrip_id. subst d. rewrite join_sep_rel.
    assert (valid_names xs) as Hxs'.
    { eapply Forall_impl; [done|]. by intros n [? _]. }
    destruct xs as [|y ys].
    + simpl. rewrite str_app_nil_r, endswith_app.
      * apply endswith_no_sep. by apply valid_name_inv in Hx as (_ & _ & ?).
      * by apply valid_name_inv in Hx as (? & _).
    + rewrite <- str_app_assoc. by apply endswith_rel.
Qed.

(** What [resolve_path] returns in a working directory that is an
    absolute path. *)
Lemma resolve_path_normal (cwd p : string) :
  Posix.isabs cwd = true →
  ∃ (root : string) (comps : list string),
    (root = "/" ∨ root = "//")
    ∧ Forall (fun n => Posix.valid_name n = true ∧ n ≠ "..") comps
    ∧ resolve_path cwd p = root +:+ Str.join Posix.sep comps.
Proof.
  intros Hcwd. apply normpath_abs.
  destruct (Posix.isabs p) eqn:Hp; [done|]. by apply join_abs.
Qed.

Lemma removelast_normal (comps : list string) :
  Forall (fun n => Posix.valid_name n = true ∧ n ≠ "..") comps →
  Forall (fun n => Posix.valid_name n = true ∧ n ≠ "..") (removelast comps).
Proof.
  intros Hv. destruct comps as [|w comps _] using rev_ind; [done|].
  rewrite removelast_last. by apply Forall_app in Hv as [? _].
Qed.

Lemma dirname_components (cwd p : string) :
  Posix.isabs cwd = true →
  Posix.components (dirname (resolve_path cwd p))
  = removelast (Posix.components (resolve_path cwd p)).
Proof.
  intros Hcwd.
  destruct (resolve_path_normal cwd p Hcwd) as (root & comps & Hr & Hv & ->).
  rewrite dirname_normal, !components_normal by
    (done || by apply removelast_normal). done.
Qed.

End Dirname.

(* ===================================================================== *)
(** * The log directory and the log file *)
(* ===================================================================== *)

Lemma made_same (fs : filesystem) (k : list string) :
  FS.wf fs → is_Some (fs !! k) → ∀ q, made fs k q = fs !! q.
Proof.
  intros Hwf Hk q. unfold made. destruct (fs !! q) eqn:E; [done|].
  case_bool_decide as Hq; [|done].
  destruct (wf_prefix_some fs q k Hwf Hk Hq). congruence.
Qed.

Lemma made_eq (fs fs' : filesystem) (k : list string) :
  FS.wf fs → is_Some (fs !! k) → (∀ q, fs' !! q = made fs k q) → fs' = fs.
Proof.
  intros Hwf Hk H. apply map_eq. intros q. by rewrite H, made_same.
Qed.

Lemma no_file_above (fs : filesystem) (j k : list string) (c : bytes) :
  FS.wf fs → is_Some (fs !! k) → j `prefix_of` k → j ≠ k →
  fs !! j ≠ Some (File c).
Proof.
  intros Hwf [nd Hk] [r ->] Hne Hj.
  rewrite (wf_below_file fs j r c) in Hk; [done..|].
  intros ->. by rewrite app_nil_r in Hne.
Qed.

Lemma ensure_cases (log_path : string) (fs : filesystem) :
  FS.wf fs →
  match ensure_log_dir_exists log_path fs with
  | inr fs' =>
      FS.wf fs'
      ∧ (∀ q, fs' !! q = made fs (Posix.components (dirname log_path)) q)
      ∧ ∀ j c, j `prefix_of` Posix.components (dirname log_path) →
               j ≠ Posix.components (dirname log_path) →
               fs !! j ≠ Some (File c)
  | inl _ =>
      ∃ j c, j `prefix_of` Posix.components (dirname log_path)
             ∧ j ≠ Posix.components (dirname log_path)
             ∧ fs !! j = Some (File c)
  end.
Proof.
  intros Hwf. unfold ensure_log_dir_exists.
  set (dir := Posix.components (dirname log_path)).
  destruct (FS.exists_ fs (dirname log_path)) eqn:Hex; simpl.
  - apply exists_some in Hex; [|done]. fold dir in Hex. split_and!; [done| |].
    + intros q. by rewrite made_same.
    + intros j c. by apply no_file_above.
  - apply exists_none in Hex; [|done]. fold dir in Hex.
    pose proof (makedirs_spec fs (dirname log_path) Hwf Hex) as H.
    fold dir in H.
    destruct (FS.makedirs fs (dirname log_path)) as [e|fs'].
    + destruct H as (j & c & Hj & Hc). exists j, c. split_and!; [done| |done].
      intros ->. congruence.
    + destruct H as [Hwf' Hmade]. split_and!; [done..|].
      intros j c Hj Hne Hc.
      apply (no_file_above fs' j dir c Hwf'); [|done..|].
      * rewrite Hmade. unfold made. rewrite Hex.
        by rewrite bool_decide_eq_true_2.
      * rewrite Hmade. unfold made. by rewrite Hc.
Qed.

Lemma open_a_cases (fs : filesystem) (p : string) :
  FS.wf fs →
  match open_a fs p with
  | inr fs' =>
      fs !! removelast (Posix.components p) = Some Dir
      ∧ ((∃ c, fs !! Posix.components p = Some (File c) ∧ fs' = fs)
         ∨ (fs !! Posix.components p = None
            ∧ fs' = <[Posix.components p := File []]> fs))
  | inl _ =>
      fs !! removelast (Posix.components p) ≠ Some Dir
      ∨ fs !! Posix.components p = Some Dir
  end.
Proof.
  intros Hwf. unfold open_a.
  destruct (Posix.components p) as [|c cs] eqn:Ek.
  { right. by destruct Hwf. }
  set (d := removelast (c :: cs)).
  pose proof (resolve_found fs [] d Hwf) as Hr.
  rewrite app_nil_l in Hr.
  destruct (FS.resolve fs [] d) as [e|[data|]]; simpl in Hr;
    [left; congruence..|].
  destruct (fs !! (c :: cs)) as [[data|]|] eqn:E; [|by right|]; split;
    try done; [left|right]; by eauto.
Qed.

Lemma resolve_path_again (cwd cwd' p : string) :
  Posix.isabs cwd = true →
  Posix.abspath cwd' (resolve_path cwd p) = resolve_path cwd p.
Proof.
  intros Hcwd.
  destruct (resolve_path_normal cwd p Hcwd) as (root & comps & Hr & Hv & ->).
  unfold Posix.abspath.
  assert (Posix.isabs (root +:+ Str.join Posix.sep comps) = true) as ->
    by (by destruct Hr as [-> | ->]).
  by apply normpath_stable.
Qed.

Lemma resolve_path_valid (cwd p : string) :
  valid_names (Posix.components (resolve_path cwd p)).
Proof. apply components_valid. Qed.

Lemma prefix_removelast {A} (j k : list A) :
  j `prefix_of` k → j ≠ k → j `prefix_of` removelast k.
Proof.
  intros [r ->] Hne. destruct r as [|x r _] using rev_ind.
  { by rewrite app_nil_r in Hne. }
  rewrite app_assoc, removelast_last. by apply prefix_app_r.
Qed.

Lemma removelast_prefix {A} (k : list A) : removelast k `prefix_of` k.
Proof.
  destruct k as [|x k _] using rev_ind; [done|].
  rewrite removelast_last. by apply prefix_app_r.
Qed.

Lemma removelast_ne {A} (k : list A) : k ≠ [] → removelast k ≠ k.
Proof.
  destruct k as [|x k _] using rev_ind; [done|]. intros _.
  rewrite removelast_last. intros E. apply (f_equal length) in E.
  rewrite length_app in E. simpl in E. lia.
Qed.

(** Every way [setup_logging] can go. *)
Lemma setup_logging_cases (cwd log_path : string) (p : process) :
  Posix.isabs cwd = true → FS.wf (files p) →
  let k := Posix.components (resolve_path cwd log_path) in
  match setup_logging cwd log_path p with
  | inr p' =>
      FS.wf (files p')
      ∧ (∀ j c, j `prefix_of` k → j ≠ k → files p !! j ≠ Some (File c))
      ∧ files p !! k ≠ Some Dir
      ∧ files p' !! k
        = Some (File (match files p !! k with
                      | Some (File c) => c
                      | _ => []
                      end))
      ∧ (∀ q, q ≠ k → files p' !! q = made (files p) (removelast k) q)
      ∧ FolderSync p'
        = Logger INFO
            (handlers (FolderSync p)
             ++ [RotatingFileHandler (resolve_path cwd log_path) 10240%N 5
                   formatter;
                 StreamHandler formatter])
  | inl (_, p') =>
      files p' = files p
      ∧ handlers (FolderSync p') = handlers (FolderSync p)
      ∧ ((∃ j c, j `prefix_of` k ∧ j ≠ k ∧ files p !! j = Some (File c))
         ∨ files p !! k = Some Dir)
  end.
Proof.
  intros Hcwd Hwf k. unfold setup_logging.
  rewrite resolve_path_again by done.
  pose proof (ensure_cases (resolve_path cwd log_path) (files p) Hwf) as He.
  rewrite dirname_components in He by done. fold k in He.
  destruct (ensure_log_dir_exists (resolve_path cwd log_path) (files p))
    as [e|fs1].
  { destruct He as (j & c & Hj & Hne & Hc). split_and!; [done..|].
    left. exists j, c. split_and!; [|  |done].
    - etrans; [done|]. apply removelast_prefix.
    - intros ->. apply Hne. apply (anti_symm prefix); [done|].
      apply removelast_prefix. }
  destruct He as (Hwf1 & Hmade & Hfree).
  pose proof (open_a_cases fs1 (resolve_path cwd log_path) Hwf1) as Ho.
  fold k in Ho.
  assert (k ≠ [] → ¬ k `prefix_of` removelast k) as Hlong.
  { intros Hk Hpre. apply (removelast_ne k Hk).
    apply (anti_symm prefix); [apply removelast_prefix|done]. }
  assert (k ≠ [] → fs1 !! k = files p !! k) as Hsame.
  { intros Hk. rewrite Hmade. unfold made.
    destruct (files p !! k); [done|].
    by rewrite bool_decide_eq_false_2 by by apply Hlong. }
  assert (is_Some (files p !! removelast k) → fs1 = files p) as Hkept.
  { intros Hd. by apply (made_eq _ _ (removelast k)). }
  destruct (open_a fs1 (resolve_path cwd log_path)) as [e|fs2]; simpl.
  - assert (k = [] ∨ k ≠ []) as [Hk|Hk] by (destruct k; by eauto).
    { split_and!; [|done|].
      - apply Hkept. rewrite Hk. simpl. destruct Hwf as [-> _]. by eauto.
      - right. rewrite Hk. by destruct Hwf. }
    destruct Ho as [Ho|Ho].
    + assert (∃ c, files p !! removelast k = Some (File c)) as [c Hc].
      { rewrite Hmade in Ho. unfold made in Ho.
        destruct (files p !! removelast k) as [[c|]|]; [by eauto|done|].
        by rewrite bool_decide_eq_true_2 in Ho. }
      split_and!; [apply Hkept; by eauto|done|].
      left. exists (removelast k), c.
      split_and!; [apply removelast_prefix|by apply removelast_ne|done].
    + rewrite Hsame in Ho by done. split_and!; [|done|by right].
      apply Hkept. apply (wf_prefix_some _ _ k Hwf); [by eauto|].
      apply removelast_prefix.
  - destruct Ho as [Hd Ho].
    assert (k ≠ []) as Hk.
    { intros Hk. rewrite Hk in Ho. destruct Hwf1 as [Hroot _].
      destruct Ho as [(c & Hc & _)|[Hn _]]; congruence. }
    specialize (Hsame Hk).
    assert (∃ d n, k = d ++ [n] ∧ Posix.valid_name n = true)
      as (d & n & Ek & Hn).
    { pose proof (resolve_path_valid cwd log_path) as Hv. fold k in Hv.
      destruct k as [|n d _] using rev_ind; [done|].
      apply Forall_app in Hv as [_ Hv]. inversion_clear Hv. by eauto. }
    split_and!.
    + destruct Ho as [(c & Hc & ->)|[Hn' ->]]; [done|].
      rewrite Ek in *. rewrite removelast_last in Hd.
      apply wf_insert_file; [done..|congruence].
    + intros j c Hj Hne Hc.
      pose proof (prefix_removelast j k Hj Hne) as Hj'.
      destruct (decide (j = removelast k)) as [->|Hne']; [|by eapply Hfree].
      rewrite Hmade in Hd. unfold made in Hd. by rewrite Hc in Hd.
    + rewrite <- Hsame. destruct Ho as [(c & Hc & _)|[Hn' _]]; congruence.
    + destruct Ho as [(c & Hc & ->)|[Hn' ->]].
      * by rewrite <- Hsame, Hc.
      * rewrite <- Hsame, Hn'. apply lookup_insert_eq.
    + intros q Hq. destruct Ho as [(c & Hc & ->)|[Hn' ->]]; [done|].
      by rewrite lookup_insert_ne.
    + done.
Qed.

(** X12. On the file systems of this development (regular files and
    directories, one path for an entry, no operation denied or failing
    part-way), [ensure_log_dir_exists] on a resolved path raises exactly
    when a regular file stands strictly above the directory of the log
    path.  When it returns, that directory exists, every entry that
    existed is as it was, and the only new entries are directories on the
    way to it. *)
Theorem ensure_log_dir_exists_makes_the_directories
    (cwd p : string) (fs : filesystem) :
  Posix.isabs cwd = true → FS.wf fs →
  let log_path := resolve_path cwd p in
  let log_dir := removelast (Posix.components log_path) in
  match ensure_log_dir_exists log_path fs with
  | inr fs' =>
      FS.wf fs'
      ∧ is_Some (fs' !! log_dir)
      ∧ (∀ q nd, fs !! q = Some nd → fs' !! q = Some nd)
      ∧ (∀ q, fs !! q = None → is_Some (fs' !! q) →
              fs' !! q = Some Dir ∧ q `prefix_of` log_dir)
      ∧ ∀ j c, j `prefix_of` log_dir → j ≠ log_dir →
               fs !! j ≠ Some (File c)
  | inl _ =>
      ∃ j c, j `prefix_of` log_dir ∧ j ≠ log_dir ∧ fs !! j = Some (File c)
  end.
Proof.
  intros Hcwd Hwf log_path log_dir.
  pose proof (ensure_cases log_path fs Hwf) as H.
  unfold log_path in H at 2 3 4 5 6.
  rewrite !dirname_components in H by done. fold log_path log_dir in H.
  destruct (ensure_log_dir_exists log_path fs) as [e|fs']; [done|].
  destruct H as (Hwf' & Hmade & Hfree). split_and!; [done| | | |done].
  - rewrite Hmade. unfold made. destruct (fs !! log_dir); [by eauto|].
    rewrite bool_decide_eq_true_2 by done. by eauto.
  - intros q nd Hq. rewrite Hmade. unfold made. by rewrite Hq.
  - intros q Hq. rewrite Hmade. unfold made. rewrite Hq.
    case_bool_decide; [done|]. by intros [? ?].
Qed.

(** X13. [setup_logging] in a working directory that is an absolute
    path, on the file systems of this development (regular files and
    directories, one path for an entry, no operation denied or failing
    part-way): when no regular file stands strictly above the resolved log path
    and that path is not a directory, the call returns; the missing
    directories on the way have been made, the log file is there with the
    content it had (empty when it was missing), nothing else has changed,
    and the logger has level [INFO] and two more handlers, the rotating
    file handler on the resolved path (10240 bytes, 5 backups) and the
    console handler. *)
Theorem setup_logging_opens_the_log (cwd log_path : string) (p : process) :
  Posix.isabs cwd = true → FS.wf (files p) →
  let k := Posix.components (resolve_path cwd log_path) in
  (∀ j c, j `prefix_of` k → j ≠ k → files p !! j ≠ Some (File c)) →
  files p !! k ≠ Some Dir →
  ∃ p', setup_logging cwd log_path p = inr p'
    ∧ FS.wf (files p')
    ∧ files p' !! k
      = Some (File (match files p !! k with
                    | Some (File c) => c
                    | _ => []
                    end))
    ∧ (∀ q, q ≠ k → files p' !! q = made (files p) (removelast k) q)
    ∧ FolderSync p'
      = Logger INFO
          (handlers (FolderSync p)
           ++ [RotatingFileHandler (resolve_path cwd log_path) 10240%N 5
                 formatter;
               StreamHandler formatter]).
Proof.
  intros Hcwd Hwf k Hfree Hk.
  pose proof (setup_logging_cases cwd log_path p Hcwd Hwf) as H.
  fold k in H.
  destruct (setup_logging cwd log_path p) as [[e p']|p'].
  - destruct H as (_ & _ & [(j & c & Hj & Hne & Hc)|?]); [|done].
    by destruct (Hfree j c).
  - exists p'. by destruct H as (? & _ & _ & ? & ? & ?).
Qed.

(** X14. On the file systems of this development (regular files and
    directories, one path for an entry, no operation denied or failing
    part-way), a call of [setup_logging] that raises has changed nothing
    in the file system and has added no handler; and it raises only when
    a regular file stands strictly above the resolved log path or that
    path is a directory. *)
Theorem setup_logging_fails_cleanly
    (cwd log_path : string) (p p' : process) (e : OSError) :
  Posix.isabs cwd = true → FS.wf (files p) →
  setup_logging cwd log_path p = inl (e, p') →
  let k := Posix.components (resolve_path cwd log_path) in
  files p' = files p
  ∧ handlers (FolderSync p') = handlers (FolderSync p)
  ∧ ((∃ j c, j `prefix_of` k ∧ j ≠ k ∧ files p !! j = Some (File c))
     ∨ files p !! k = Some Dir).
Proof.
  intros Hcwd Hwf Hrun k.
  pose proof (setup_logging_cases cwd log_path p Hcwd Hwf) as H.
  by rewrite Hrun in H.
Qed.

(** X15. [setup_logging] twice: a second call with the same path returns
    too and leaves the file system as the first call has left it, but it
    adds the same two handlers again: the logger then has each of them
    twice. *)
Theorem setup_logging_twice_doubles_the_handlers
    (cwd log_path : string) (p p1 : process) :
  Posix.isabs cwd = true → FS.wf (files p) →
  setup_logging cwd log_path p = inr p1 →
  ∃ p2, setup_logging cwd log_path p1 = inr p2
    ∧ files p2 = files p1
    ∧ handlers (FolderSync p2)
      = handlers (FolderSync p)
        ++ [RotatingFileHandler (resolve_path cwd log_path) 10240%N 5
              formatter;
            StreamHandler formatter;
            RotatingFileHandler (resolve_path cwd log_path) 10240%N 5
              formatter;
            StreamHandler formatter].
Proof.
  intros Hcwd Hwf Hrun.
  pose proof (setup_logging_cases cwd log_path p Hcwd Hwf) as H1.
  rewrite Hrun in H1. simpl in H1.
  destruct H1 as (Hwf1 & _ & _ & Hk1 & _ & Hlg1).
  set (k := Posix.components (resolve_path cwd log_path)) in *.
  pose proof (setup_logging_cases cwd log_path p1 Hcwd Hwf1) as H2.
  fold k in H2.
  destruct (setup_logging cwd log_path p1) as [[e p2]|p2].
  - destruct H2 as (_ & _ & [(j & c & Hj & Hne & Hc)|Hd]); [|congruence].
    by destruct (no_file_above (files p1) j k c).
  - exists p2. destruct H2 as (_ & _ & _ & Hk2 & Hq2 & Hlg2).
    split_and!; [done| |].
    + apply map_eq. intros q. destruct (decide (q = k)) as [->|Hq].
      * by rewrite Hk2, Hk1.
      * rewrite Hq2 by done. apply made_same; [done|].
        apply (wf_prefix_some _ _ k Hwf1); [by eauto|].
        apply removelast_prefix.
    + rewrite Hlg2, Hlg1. simpl. by rewrite <- app_assoc.
Qed.

(* ===================================================================== *)
(** * [calculate_md5] on what is not a regular file *)
(* ===================================================================== *)

(** Why path resolution fails: a component is missing below directories,
    or a regular file stands on the way. *)
Lemma resolve_inl (fs : filesystem) (cur rest : list string) (e : OSError) :
  FS.resolve fs cur rest = inl e →
  (e = FileNotFoundError
   ∧ ∃ j, j `prefix_of` rest ∧ fs !! (cur ++ j) = None
          ∧ ∀ i, i `prefix_of` j → i ≠ j → fs !! (cur ++ i) = Some Dir)
  ∨ (e = NotADirectoryError
     ∧ ∃ j c, j `prefix_of` rest ∧ j ≠ rest
              ∧ fs !! (cur ++ j) = Some (File c)).
Proof.
  revert cur. induction rest as [|n rest IH]; intros cur; simpl.
  - destruct (fs !! cur) eqn:E; [done|]. intros [= <-]. left.
    split; [done|]. exists []. rewrite app_nil_r.
    split_and!; [done..|]. intros i Hi%prefix_nil_inv. by subst.
  - destruct (fs !! cur) as [[c|]|] eqn:E.
    + intros [= <-]. right. split; [done|]. exists [], c.
      rewrite app_nil_r. split_and!; [apply prefix_nil|done..].
    + intros H. destruct (IH _ H) as [(-> & j & Hj & Hn & Hd)
                                      |(-> & j & c & Hj & Hne & Hc)].
      * left. split; [done|]. exists (n :: j). rewrite <- app_assoc in Hn.
        split_and!; [by apply prefix_cons|done|].
        intros [|m i] Hi Hne; [by rewrite app_nil_r|].
        apply prefix_cons_inv_1 in Hi as Hm. subst m.
        apply prefix_cons_inv_2 in Hi.
        rewrite (cons_middle n cur i), app_assoc. apply Hd; [done|].
        congruence.
      * right. split; [done|]. exists (n :: j), c.
        rewrite <- app_assoc in Hc.
        split_and!; [by apply prefix_cons|congruence|done].
    + intros [= <-]. left. split; [done|]. exists []. rewrite app_nil_r.
      split_and!; [apply prefix_nil|done|].
      intros i Hi%prefix_nil_inv. by subst.
Qed.

(** X16. [calculate_md5] by kind of path, on the file systems of this
    development (regular files and directories, one path for an entry, no
    operation denied: every file can be read) and for a path as
    [resolve_path] returns it in a working directory that is an absolute
    path: on a regular file it returns the digest of its content; on a
    directory it raises [IsADirectoryError]; on a path that does not
    exist it raises [NotADirectoryError] when a regular file stands on
    the way and [FileNotFoundError] otherwise.  In no case does it change
    the state. *)
Theorem calculate_md5_by_kind_of_path (cwd p : string) (st : state) :
  Posix.isabs cwd = true → FS.wf (fs st) →
  let file_path := resolve_path cwd p in
  match fs st !! Posix.components file_path with
  | Some (File data) => calculate_md5 file_path st = Ok (MD5.md5 data) st
  | Some Dir => calculate_md5 file_path st = Raise IsADirectoryError st
  | None =>
      ((∃ j c, j `prefix_of` Posix.components file_path
               ∧ fs st !! j = Some (File c))
       ∧ calculate_md5 file_path st = Raise NotADirectoryError st)
      ∨ ((∀ j c, j `prefix_of` Posix.components file_path →
                 fs st !! j ≠ Some (File c))
         ∧ calculate_md5 file_path st = Raise FileNotFoundError st)
  end.
Proof.
  intros _ Hwf file_path.
  destruct (fs st !! Posix.components file_path) as [[data|]|] eqn:E.
  - by apply calculate_md5_ok, open_rb_file.
  - by apply calculate_md5_raise, open_rb_dir.
  - pose proof (stat_found (fs st) file_path Hwf) as Hf. rewrite E in Hf.
    unfold FS.stat in Hf.
    destruct (FS.resolve (fs st) [] (Posix.components file_path))
      as [e|nd] eqn:Hr; [|done].
    assert (calculate_md5 file_path st = Raise e st) as ->.
    { apply calculate_md5_raise. unfold FS.open_rb, FS.stat. by rewrite Hr. }
    destruct (resolve_inl _ _ _ _ Hr) as [(-> & j & Hj & Hn & Hd)
                                          |(-> & j & c & Hj & Hne & Hc)].
    + right. split; [|done]. intros i c Hi Hc. simpl in *.
      destruct (prefix_weak_total i j _ Hi Hj) as [Hij|[r ->]].
      * destruct (decide (i = j)) as [->|Hne]; [congruence|].
        specialize (Hd i Hij Hne). congruence.
      * rewrite (wf_below_none (fs st) j r Hwf Hn) in Hc. done.
    + left. split; [|done]. by exists j, c.
Qed.

(* ===================================================================== *)
(** * One and the same root *)
(* ===================================================================== *)

Lemma for_each_noop {A} (xs : list A) (body : A → M unit) (st : state) :
  (∀ x, x ∈ xs → body x st = Ok tt st) → for_each xs body st = Ok tt st.
Proof.
  induction xs as [|x xs IH]; intros H; [done|]. simpl. unfold bind.
  rewrite H by (apply elem_of_cons; by left). apply IH. intros y Hy.
  apply H. apply elem_of_cons. by right.
Qed.

(** A walk whose loop body changes nothing, on a file system it can go
    through with its fuel. *)
Lemma os_walk_noop fuel topdown (top : string)
    (body : string → list string → list string → M unit) (st : state)
    (q : list string) :
  FS.wf (fs st) → good_root top →
  (∀ q dirs files, valid_names q →
     fs st !! (Posix.components top ++ q) = Some Dir →
     (∀ n, n ∈ files
           ↔ ∃ c, fs st !! (Posix.components top ++ q ++ [n])
                  = Some (File c)) →
     body (walk_path top q) dirs files st = Ok tt st) →
  valid_names q → 0 < fuel →
  (∀ r, is_Some (fs st !! (Posix.components top ++ q ++ r)) →
        length r < fuel) →
  os_walk fuel topdown (walk_path top q) body st = Ok tt st.
Proof.
  intros Hwf Htop Hbody. revert q.
  induction fuel as [|fuel IH]; intros q Hq Hpos Hfuel; [lia|].
  simpl. unfold bind, query.
  pose proof (walk_path_components top q Htop Hq) as Hk.
  assert (fs st !! (Posix.components top ++ q) = Some Dir
          ∨ fs st !! (Posix.components top ++ q) ≠ Some Dir) as [Hd|Hd].
  { destruct (fs st !! (Posix.components top ++ q)) as [[c|]|];
      by eauto. }
  2: { destruct (scandir_fail (fs st) (walk_path top q) Hwf) as [e ->];
         [by rewrite Hk|done]. }
  destruct (scandir_spec (fs st) (walk_path top q) Hwf)
    as (dirs & files & -> & Hdirs & Hfiles & _); [by rewrite Hk|].
  rewrite Hk in Hdirs, Hfiles.
  assert (body (walk_path top q) dirs files st = Ok tt st) as Hb.
  { apply Hbody; [done..|]. intros n. rewrite Hfiles.
    by rewrite <- app_assoc. }
  assert (for_each dirs
            (fun dirname =>
               os_walk fuel topdown (Posix.join (walk_path top q) dirname)
                 body) st = Ok tt st) as Hbelow.
  { apply for_each_noop. intros n Hn. apply Hdirs in Hn.
    rewrite <- app_assoc in Hn.
    assert (Posix.valid_name n = true) as Hv.
    { apply (wf_snoc (fs st) (Posix.components top ++ q) n Hwf).
      rewrite <- app_assoc. by eauto. }
    rewrite <- walk_path_snoc. apply IH.
    - apply Forall_app. split; [done|]. by constructor.
    - specialize (Hfuel [n] (mk_is_Some _ _ Hn)). simpl in Hfuel. lia.
    - intros r Hr. rewrite <- app_assoc in Hr. apply Hfuel in Hr.
      simpl in Hr. lia. }
  destruct topdown; by rewrite ?Hb, ?Hbelow, ?Hb.
Qed.

Section SameRoot.

Context (top : string) (st : state).
Hypothesis Htop : good_root top.
Hypothesis Hwf : FS.wf (fs st).

Lemma same_root_exists q nd :
  valid_names q → fs st !! (Posix.components top ++ q) = Some nd →
  FS.exists_ (fs st) (walk_path top q) = true.
Proof.
  intros Hq Hnd. apply exists_some; [done|].
  rewrite walk_path_components by done. by eauto.
Qed.

Lemma sync_dir_same_root q dirs files :
  valid_names q → fs st !! (Posix.components top ++ q) = Some Dir →
  (∀ n, n ∈ files
        ↔ ∃ c, fs st !! (Posix.components top ++ q ++ [n]) = Some (File c)) →
  sync_dir top top (walk_path top q) dirs files st = Ok tt st.
Proof.
  intros Hq Hd Hfiles. unfold sync_dir.
  rewrite walk_path_mirror by done. unfold bind, query.
  rewrite (same_root_exists q Dir) by done. simpl.
  apply for_each_noop. intros n [c Hc]%Hfiles.
  assert (valid_names (q ++ [n])) as Hqn.
  { apply Forall_app. split; [done|]. constructor; [|done].
    apply (wf_snoc (fs st) (Posix.components top ++ q) n Hwf).
    rewrite <- app_assoc. by eauto. }
  pose proof (walk_path_components top (q ++ [n]) Htop Hqn) as Hk.
  rewrite walk_path_snoc in Hk.
  assert (FS.exists_ (fs st) (Posix.join (walk_path top q) n) = true) as Hex.
  { apply exists_some; [done|]. rewrite Hk. by eauto. }
  assert (FS.open_rb (fs st) (Posix.join (walk_path top q) n) = inr c)
    as Hopen.
  { apply open_rb_file; [done|]. by rewrite Hk. }
  unfold sync_file, bind, query. rewrite Hex. simpl.
  rewrite (calculate_md5_ok _ c) by done. unfold ret.
  rewrite (calculate_md5_ok _ c) by done.
  by rewrite bool_decide_eq_true_2.
Qed.

Lemma prune_dir_same_root q dirs files :
  valid_names q → fs st !! (Posix.components top ++ q) = Some Dir →
  (∀ n, n ∈ files
        ↔ ∃ c, fs st !! (Posix.components top ++ q ++ [n]) = Some (File c)) →
  prune_dir top top (walk_path top q) dirs files st = Ok tt st.
Proof.
  intros Hq Hd Hfiles. unfold prune_dir.
  apply for_each_noop. intros n [c Hc]%Hfiles.
  assert (valid_names (q ++ [n])) as Hqn.
  { apply Forall_app. split; [done|]. constructor; [|done].
    apply (wf_snoc (fs st) (Posix.components top ++ q) n Hwf).
    rewrite <- app_assoc. by eauto. }
  unfold prune_file, bind, query.
  rewrite <- walk_path_snoc, walk_path_mirror by done.
  by rewrite (same_root_exists (q ++ [n]) (File c)).
Qed.

End SameRoot.

(** X17. One root for both: on the file systems of this development
    (regular files and directories, one path for an entry, no operation
    denied: every file can be read), a call whose source and replica
    resolve to the same path, other than the root directory, returns and
    changes nothing: it copies nothing, removes nothing and logs
    nothing. *)
Theorem same_root_is_left_alone fuel cwd source replica st :
  FS.wf (fs st) →
  resolve_path cwd source = resolve_path cwd replica →
  root_of cwd source ≠ [] →
  fs_height (fs st) < fuel →
  sync_folders fuel cwd source replica st = Ok tt st.
Proof.
  intros Hwf Esame Hroot Hfuel. unfold sync_folders, propagate, prune.
  rewrite <- Esame. set (top := resolve_path cwd source).
  assert (good_root top) as Htop by by apply resolve_path_good.
  assert (∀ r, is_Some (fs st !! (Posix.components top ++ [] ++ r)) →
               length r < fuel) as Hbound.
  { intros r Hr. apply fs_height_le in Hr. simpl in Hr.
    rewrite length_app in Hr. lia. }
  assert (os_walk fuel true top (sync_dir top top) st = Ok tt st) as H1.
  { apply (os_walk_noop fuel true top (sync_dir top top) st [] Hwf Htop);
      [|done|lia|done]. intros. by apply sync_dir_same_root. }
  assert (os_walk fuel false top (prune_dir top top) st = Ok tt st) as H2.
  { apply (os_walk_noop fuel false top (prune_dir top top) st [] Hwf Htop);
      [|done|lia|done]. intros. by apply prune_dir_same_root. }
  unfold bind. by rewrite H1, H2.
Qed.

(* ===================================================================== *)
(** * The further theorems at work *)
(* ===================================================================== *)

(** A check that no regular file stands strictly above a path. *)
Lemma no_file_above_check (fs : filesystem) (k : list string) :
  Forall (fun n => file_at fs (take n k) = false) (seq 0 (length k)) →
  ∀ j c, j `prefix_of` k → j ≠ k → fs !! j ≠ Some (File c).
Proof.
  intros H j c [r ->] Hne Hc. rewrite Forall_forall in H.
  specialize (H (length j)). rewrite take_app_length in H.
  unfold file_at in H. rewrite Hc in H.
  assert (true = false); [|done]. apply H, elem_of_seq.
  rewrite length_app. destruct r; [by rewrite app_nil_r in Hne|]. simpl. lia.
Qed.

Ltac check_ran := vm_compute; reflexivity.

Lemma frame_witness :
  let st := State fs_world [] in
  let st' := state_after (sync_folders 5 "/" "/s" "/r" st) in
  sync_folders 5 "/" "/s" "/r" st = Ok tt st'
  ∧ ∀ p, ¬ root_of "/" "/r" `prefix_of` p →
      fs st' !! p = fs st !! p
      ∨ (fs st !! p = None ∧ fs st' !! p = Some Dir
         ∧ p `prefix_of` root_of "/" "/r").
Proof.
  intros st st'. split; [check_ran|].
  apply (only_the_replica_changes "/" "/s" "/r" 5 st st').
  - check_wf.
  - check_roots.
  - left. check_ran.
Defined.

Lemma missing_source_witness :
  ∃ st', sync_folders 5 "/" "/missing" "/s" (State fs_hello []) = Ok tt st'
    ∧ (∀ r c, r ≠ [] →
              fs_hello !! (root_of "/" "/s" ++ r) = Some (File c) →
              fs st' !! (root_of "/" "/s" ++ r) = None)
    ∧ (∀ p nd, fs st' !! p = Some nd → fs_hello !! p = Some nd)
    ∧ (∀ p, fs_hello !! p = Some Dir → fs st' !! p = Some Dir).
Proof.
  apply (missing_source_empties_replica "/" "/missing" "/s" 5
           (State fs_hello [])).
  - check_wf.
  - check_roots.
  - check_fuel.
  - vm_compute. discriminate.
Defined.

Lemma exact_mirror_witness :
  ∃ st', sync_folders 5 "/" "/s" "/r" (State fs_world []) = Ok tt st'
    ∧ ∀ q c, q ≠ [] →
        fs st' !! (root_of "/" "/r" ++ q) = Some (File c)
        ↔ fs_world !! (root_of "/" "/s" ++ q) = Some (File c).
Proof.
  apply (replica_files_are_the_source_files "/" "/s" "/r" 5
           (State fs_world [])).
  - check_wf.
  - check_roots.
  - check_no_conflict.
  - check_collision_free.
  - check_fuel.
Defined.

Lemma aborted_call_witness :
  let st := State fs_dir_for_file [] in
  let st' := state_after (sync_folders 5 "/" "/s" "/r" st) in
  sync_folders 5 "/" "/s" "/r" st = Raise IsADirectoryError st'
  ∧ (∀ p, is_Some (fs st !! p) → is_Some (fs st' !! p))
  ∧ (∃ evs, log st' = log st ++ evs ∧ ∀ r, Removed_file r ∉ evs)
  ∧ ¬ no_conflict (fs st) (root_of "/" "/s") (root_of "/" "/r").
Proof.
  intros st st'. split; [check_ran|].
  apply (aborted_call_has_removed_nothing "/" "/s" "/r" 5 st
           IsADirectoryError st').
  - check_wf.
  - check_roots.
  - check_ran.
Defined.

Lemma logged_lines_witness :
  let st := State fs_world [] in
  let st' := state_after (sync_folders 5 "/" "/s" "/r" st) in
  sync_folders 5 "/" "/s" "/r" st = Ok tt st'
  ∧ ∃ evs, log st' = log st ++ evs
           ∧ Forall (reported (fs st) (fs st')) evs.
Proof.
  intros st st'. split; [check_ran|].
  apply (logged_lines_are_true "/" "/s" "/r" 5 st st').
  - check_wf.
  - check_roots.
  - check_ran.
Defined.

Lemma up_to_date_witness :
  let st := State fs_collision [] in
  let st' := state_after (sync_folders 5 "/" "/s" "/r" st) in
  sync_folders 5 "/" "/s" "/r" st = Ok tt st'
  ∧ fs st' !! (root_of "/" "/r" ++ ["f"]) = Some (File collision_b)
  ∧ ∃ evs, log st' = log st ++ evs
           ∧ ∀ s, Copied_file s (walk_path (resolve_path "/" "/r") ["f"])
                  ∉ evs.
Proof.
  intros st st'. split; [check_ran|].
  apply (up_to_date_file_is_left_alone "/" "/s" "/r" 5 st st' ["f"]
           collision_a collision_b).
  - check_wf.
  - check_roots.
  - left. check_ran.
  - reflexivity.
  - reflexivity.
  - check_ran.
Defined.

Lemma content_origin_witness :
  let st := State fs_world [] in
  let st' := state_after (sync_folders 5 "/" "/s" "/r" st) in
  fs st' !! ["r"; "a"; "b.txt"] = Some (File (b_ "world"))
  ∧ (fs st !! ["r"; "a"; "b.txt"] = Some (File (b_ "world"))
     ∨ ∃ q, ["r"; "a"; "b.txt"] = root_of "/" "/r" ++ q
            ∧ fs st !! (root_of "/" "/s" ++ q) = Some (File (b_ "world"))).
Proof.
  intros st st'. split; [check_ran|].
  apply (file_content_comes_from_the_source "/" "/s" "/r" 5 st st').
  - check_wf.
  - check_roots.
  - left. check_ran.
  - check_ran.
Defined.

Lemma directories_stay_witness :
  let st := State fs_extra_dir [] in
  let st' := state_after (sync_folders 5 "/" "/s" "/r" st) in
  sync_folders 5 "/" "/s" "/r" st = Ok tt st'
  ∧ fs st' !! ["r"; "e"] = Some Dir.
Proof.
  intros st st'. split; [check_ran|].
  apply (directories_are_never_removed 5 "/" "/s" "/r" st st').
  - left. check_ran.
  - reflexivity.
Defined.

Lemma every_change_witness :
  let st := State fs_source_inside [] in
  let st' := state_after (sync_folders 5 "/" "/r/s" "/r" st) in
  sync_folders 5 "/" "/r/s" "/r" st = Ok tt st'
  ∧ ∃ evs, log st' = log st ++ evs ∧ (evs = [] → fs st' = fs st).
Proof.
  intros st st'. split; [check_ran|].
  apply (every_change_is_logged 5 "/" "/r/s" "/r" st st').
  left. check_ran.
Defined.

Lemma resolve_path_witness :
  Posix.isabs (resolve_path "/home/u" "../logs/./x.log") = true
  ∧ Forall (fun n => Posix.valid_name n = true ∧ n ≠ "..")
      (Posix.components (resolve_path "/home/u" "../logs/./x.log"))
  ∧ resolve_path "/tmp" (resolve_path "/home/u" "../logs/./x.log")
    = resolve_path "/home/u" "../logs/./x.log".
Proof.
  apply (resolve_path_is_absolute_and_stable "/home/u" "/tmp"
           "../logs/./x.log").
  reflexivity.
Defined.

Lemma log_directory_witness :
  match ensure_log_dir_exists (resolve_path "/s" "logs/run/sync.log")
          fs_hello with
  | inr fs' =>
      FS.wf fs'
      ∧ is_Some (fs' !! removelast
                          (Posix.components
                             (resolve_path "/s" "logs/run/sync.log")))
      ∧ (∀ q nd, fs_hello !! q = Some nd → fs' !! q = Some nd)
      ∧ (∀ q, fs_hello !! q = None → is_Some (fs' !! q) →
              fs' !! q = Some Dir
              ∧ q `prefix_of`
                  removelast (Posix.components
                                (resolve_path "/s" "logs/run/sync.log")))
      ∧ ∀ j c,
          j `prefix_of`
            removelast (Posix.components
                          (resolve_path "/s" "logs/run/sync.log")) →
          j ≠ removelast (Posix.components
                            (resolve_path "/s" "logs/run/sync.log")) →
          fs_hello !! j ≠ Some (File c)
  | inl _ =>
      ∃ j c,
        j `prefix_of`
          removelast (Posix.components
                        (resolve_path "/s" "logs/run/sync.log"))
        ∧ j ≠ removelast (Posix.components
                            (resolve_path "/s" "logs/run/sync.log"))
        ∧ fs_hello !! j = Some (File c)
  end.
Proof.
  apply (ensure_log_dir_exists_makes_the_directories "/s"
           "logs/run/sync.log" fs_hello).
  - reflexivity.
  - check_wf.
Defined.

Lemma setup_logging_witness :
  let p := Process fs_hello (Logger NOTSET []) in
  let k := Posix.components (resolve_path "/s" "./logs/logfile.log") in
  ∃ p', setup_logging "/s" "./logs/logfile.log" p = inr p'
    ∧ FS.wf (files p')
    ∧ files p' !! k
      = Some (File (match files p !! k with
                    | Some (File c) => c
                    | _ => []
                    end))
    ∧ (∀ q, q ≠ k → files p' !! q = made (files p) (removelast k) q)
    ∧ FolderSync p'
      = Logger INFO
          (handlers (FolderSync p)
           ++ [RotatingFileHandler (resolve_path "/s" "./logs/logfile.log")
                 10240%N 5 formatter;
               StreamHandler formatter]).
Proof.
  intros p k.
  apply (setup_logging_opens_the_log "/s" "./logs/logfile.log" p).
  - reflexivity.
  - check_wf.
  - apply no_file_above_check. vm_compute. repeat constructor.
  - vm_compute. discriminate.
Defined.

Lemma setup_logging_failure_witness :
  let p := Process fs_hello (Logger NOTSET []) in
  let p' := Process fs_hello (Logger INFO []) in
  let k := Posix.components (resolve_path "/" "s/a/b.txt/sync.log") in
  setup_logging "/" "s/a/b.txt/sync.log" p = inl (NotADirectoryError, p')
  ∧ files p' = files p
  ∧ handlers (FolderSync p') = handlers (FolderSync p)
  ∧ ((∃ j c, j `prefix_of` k ∧ j ≠ k ∧ files p !! j = Some (File c))
     ∨ files p !! k = Some Dir).
Proof.
  intros p p' k. split; [check_ran|].
  apply (setup_logging_fails_cleanly "/" "s/a/b.txt/sync.log" p p'
           NotADirectoryError).
  - reflexivity.
  - check_wf.
  - check_ran.
Defined.

Lemma setup_logging_twice_witness :
  let p := Process fs_hello (Logger NOTSET []) in
  let p1 := match setup_logging "/s" "logs/logfile.log" p with
            | inr p' | inl (_, p') => p'
            end in
  setup_logging "/s" "logs/logfile.log" p = inr p1
  ∧ ∃ p2, setup_logging "/s" "logs/logfile.log" p1 = inr p2
      ∧ files p2 = files p1
      ∧ handlers (FolderSync p2)
        = handlers (FolderSync p)
          ++ [RotatingFileHandler (resolve_path "/s" "logs/logfile.log")
                10240%N 5 formatter;
              StreamHandler formatter;
              RotatingFileHandler (resolve_path "/s" "logs/logfile.log")
                10240%N 5 formatter;
              StreamHandler formatter].
Proof.
  intros p p1. split; [check_ran|].
  apply (setup_logging_twice_doubles_the_handlers "/s" "logs/logfile.log"
           p p1).
  - reflexivity.
  - check_wf.
  - check_ran.
Defined.

Lemma calculate_md5_kind_witness :
  match fs_hello !! Posix.components (resolve_path "/s" "a/b.txt/x") with
  | Some (File data) =>
      calculate_md5 (resolve_path "/s" "a/b.txt/x") (State fs_hello [])
      = Ok (MD5.md5 data) (State fs_hello [])
  | Some Dir =>
      calculate_md5 (resolve_path "/s" "a/b.txt/x") (State fs_hello [])
      = Raise IsADirectoryError (State fs_hello [])
  | None =>
      ((∃ j c,
          j `prefix_of` Posix.components (resolve_path "/s" "a/b.txt/x")
          ∧ fs_hello !! j = Some (File c))
       ∧ calculate_md5 (resolve_path "/s" "a/b.txt/x") (State fs_hello [])
         = Raise NotADirectoryError (State fs_hello []))
      ∨ ((∀ j c,
            j `prefix_of` Posix.components (resolve_path "/s" "a/b.txt/x") →
            fs_hello !! j ≠ Some (File c))
         ∧ calculate_md5 (resolve_path "/s" "a/b.txt/x") (State fs_hello [])
           = Raise FileNotFoundError (State fs_hello []))
  end.
Proof.
  apply (calculate_md5_by_kind_of_path "/s" "a/b.txt/x" (State fs_hello [])).
  - reflexivity.
  - check_wf.
Defined.

Lemma same_root_witness :
  sync_folders 5 "/" "/s" "s/./" (State fs_world [])
  = Ok tt (State fs_world []).
Proof.
  apply (same_root_is_left_alone 5 "/" "/s" "s/./" (State fs_world [])).
  - check_wf.
  - reflexivity.
  - vm_compute. discriminate.
  - check_fuel.
Defined.
